(** * BigInt: a shallow embedding of the decimal arbitrary-precision integer
      library (BigInt.h / BigInt.cpp) and the properties of its specification.

    A [BigInt] is the pair of fields of the C++ class: [digits], a
    [std::vector<int>] with the least-significant decimal digit first, and
    the flag [negative].  Functions that can throw, that contain a loop with
    no syntactic bound, or that index a container return a [result].

    Modelling conventions.
    - [int] digits, carries and counters are written as [Z]; on values whose
      digits are in [0,9] none of them leaves the range of [int].  C++ [/]
      and [%] truncate, so they are [Z.quot] and [Z.rem].
    - [long long] arithmetic that can leave the 64-bit range is reduced with
      [wrap64] (two's complement); [size_t] arithmetic with [wrap_size].
    - vector lengths are taken to be below [INT_MAX], so the conversions
      between [size()] and [int] loop counters are exact. *)

From Stdlib Require Import ZArith Zpow_facts Factorial String Ascii List Sorted Bool Lia.
Import ListNotations.
Local Open Scope Z_scope.

(** ** Outcomes of a call *)

Inductive exception : Type :=
| DivisionByZero
| Overflow
| Underflow
| InvalidInput
| OutOfRange.

(** [Undefined] stands for C++ undefined behaviour (an access outside a
    container); [OutOfFuel] for a loop that has not finished within the
    iteration budget handed to the function. *)
Inductive result (A : Type) : Type :=
| Ok (a : A)
| Throw (e : exception)
| Undefined
| OutOfFuel.

Arguments Ok {A} a.
Arguments Throw {A} e.
Arguments Undefined {A}.
Arguments OutOfFuel {A}.

Definition bind {A B : Type} (m : result A) (k : A -> result B) : result B :=
  match m with
  | Ok a => k a
  | Throw e => Throw e
  | Undefined => Undefined
  | OutOfFuel => OutOfFuel
  end.

Notation "x <- m ;; k" := (bind m (fun x => k))
  (at level 61, m at next level, right associativity).
Notation "' p <- m ;; k" := (bind m (fun x => match x with p => k end))
  (at level 61, p pattern, m at next level, right associativity).

(** ** Machine integers *)

Definition LLONG_MAX : Z := 2 ^ 63 - 1.
Definition LLONG_MIN : Z := - 2 ^ 63.
Definition SIZE_MOD : Z := 2 ^ 64.

(** Two's-complement reduction of a [long long] result. *)
Definition wrap64 (z : Z) : Z := (z + 2 ^ 63) mod 2 ^ 64 - 2 ^ 63.

(** Reduction of a [size_t] result. *)
Definition wrap_size (z : Z) : Z := z mod SIZE_MOD.

(** ** The class *)

Record BigInt : Type := mkBigInt { digits : list Z; negative : bool }.

(** [BigInt::BigInt()] *)
Definition BigInt_default : BigInt := mkBigInt [0] false.

(** [BigInt::isZero] *)
Definition isZero (x : BigInt) : bool :=
  match digits x with
  | [d] => d =? 0
  | _ => false
  end.

(** [BigInt::isNegative] *)
Definition isNegative (x : BigInt) : bool := negative x && negb (isZero x).

(** [BigInt::isPositive] *)
Definition isPositive (x : BigInt) : bool := negb (negative x) && negb (isZero x).

(** [BigInt::removeLeadingZeros]: pop the back of the vector while it holds
    more than one element and the last one is 0.  [strip_back] works on the
    reversed vector, whose head is the back. *)
Fixpoint strip_back (r : list Z) : list Z :=
  match r with
  | d :: (_ :: _) as r' => if d =? 0 then strip_back r' else r
  | _ => r
  end.

Definition removeLeadingZeros (ds : list Z) : list Z := rev (strip_back (rev ds)).

(** [BigInt::normalize] *)
Definition normalize (x : BigInt) : BigInt :=
  let ds := removeLeadingZeros (digits x) in
  match ds with
  | [d] => if d =? 0 then mkBigInt ds false else mkBigInt ds (negative x)
  | _ => mkBigInt ds (negative x)
  end.

(** The [while (num > 0)] loop of [BigInt::BigInt(long long)].  A positive
    [num] has at most [log2 num + 1] decimal digits, which bounds the loop. *)
Fixpoint ll_digits (fuel : nat) (num : Z) : list Z :=
  match fuel with
  | O => []
  | S fuel' =>
      if num >? 0 then Z.rem num 10 :: ll_digits fuel' (Z.quot num 10) else []
  end.

(** [BigInt::BigInt(long long)].  [num = -num] is evaluated in 64 bits. *)
Definition BigInt_of_ll (num : Z) : BigInt :=
  let neg := num <? 0 in
  let num := if num <? 0 then wrap64 (- num) else num in
  if num =? 0 then mkBigInt [0] neg
  else mkBigInt (ll_digits (S (Z.to_nat (Z.log2 num))) num) neg.

Definition ZERO : BigInt := BigInt_of_ll 0.
Definition ONE : BigInt := BigInt_of_ll 1.
Definition TWO : BigInt := BigInt_of_ll 2.

(** ** Text *)

Definition char_code (c : ascii) : Z := Z.of_N (N_of_ascii c).
Definition code_char (z : Z) : ascii := ascii_of_N (Z.to_N (z mod 256)).

(** [std::isdigit] on an ASCII character. *)
Definition isdigit (c : ascii) : bool := (48 <=? char_code c) && (char_code c <=? 57).

(** [str[i]] of a [std::string]: the character at [i < size()], the
    terminating null character at [i = size()], undefined beyond. *)
Definition string_at (str : list ascii) (i : Z) : result ascii :=
  if i <? Z.of_nat (length str) then Ok (nth (Z.to_nat i) str zero)
  else if i =? Z.of_nat (length str) then Ok zero
  else Undefined.

(** The loop [for (size_t i = str.length() - 1; i >= start; --i)] of the
    text constructor.  [i] is a [size_t]: the comparison is unsigned and
    [--i] wraps below 0. *)
Fixpoint parse_loop (fuel : nat) (str : list ascii) (start i : Z)
    (ds : list Z) : result (list Z) :=
  match fuel with
  | O => OutOfFuel
  | S fuel' =>
      if i >=? start then
        c <- string_at str i ;;
        if isdigit c
        then parse_loop fuel' str start (wrap_size (i - 1)) (ds ++ [char_code c - 48])
        else Throw InvalidInput
      else Ok ds
  end.

(** [BigInt::BigInt(const std::string&)] *)
Definition BigInt_of_string (s : string) : result BigInt :=
  let str := list_ascii_of_string s in
  match str with
  | [] => Throw InvalidInput
  | c0 :: _ =>
      let neg := Ascii.eqb c0 "-" in
      let start := if Ascii.eqb c0 "-" then 1
                   else if Ascii.eqb c0 "+" then 1 else 0 in
      let len := Z.of_nat (length str) in
      if start >=? len then Throw InvalidInput
      else
        ds <- parse_loop (S (length str)) str start (wrap_size (len - 1)) [] ;;
        Ok (normalize (mkBigInt ds neg))
  end.

(** [BigInt::toString] *)
Definition toString (x : BigInt) : string :=
  if isZero x then "0"%string
  else
    ((if negative x then "-" else "")
       ++ string_of_list_ascii (map (fun d => code_char (48 + d)) (rev (digits x))))%string.

(** ** Comparison *)

(** The digit loop of [compareMagnitude], from index [i - 1] down to 0. *)
Fixpoint compare_from (i : nat) (xs ys : list Z) : Z :=
  match i with
  | O => 0
  | S i' =>
      if nth i' xs 0 =? nth i' ys 0 then compare_from i' xs ys
      else if nth i' xs 0 <? nth i' ys 0 then -1 else 1
  end.

(** [BigInt::compareMagnitude] *)
Definition compareMagnitude (x y : BigInt) : Z :=
  if negb (length (digits x) =? length (digits y))%nat then
    if (length (digits x) <? length (digits y))%nat then -1 else 1
  else compare_from (length (digits x)) (digits x) (digits y).

Definition list_Z_eqb (xs ys : list Z) : bool :=
  if list_eq_dec Z.eq_dec xs ys then true else false.

(** [operator==] *)
Definition op_eq (x y : BigInt) : bool :=
  Bool.eqb (negative x) (negative y) && list_Z_eqb (digits x) (digits y).

(** [operator!=] *)
Definition op_ne (x y : BigInt) : bool := negb (op_eq x y).

(** [operator<] *)
Definition op_lt (x y : BigInt) : bool :=
  if negb (Bool.eqb (negative x) (negative y)) then negative x
  else if negative x then compareMagnitude x y >? 0
  else compareMagnitude x y <? 0.

(** [operator<=] *)
Definition op_le (x y : BigInt) : bool := op_lt x y || op_eq x y.

(** [operator>] *)
Definition op_gt (x y : BigInt) : bool := negb (op_le x y).

(** [operator>=] *)
Definition op_ge (x y : BigInt) : bool := negb (op_lt x y).

(** Unary [operator-] *)
Definition op_neg (x : BigInt) : BigInt := mkBigInt (digits x) (negb (negative x)).

(** [abs] *)
Definition abs (x : BigInt) : BigInt := if isNegative x then op_neg x else x.

(** ** Addition and subtraction *)

(** The iterations of the addition loop that run on the carry alone, once
    both operands are exhausted: [for (...; i < maxSize || carry; ++i)].
    Each one divides the carry by 10, so a carry [c] is used up after at
    most [log2 |c| + 1] of them. *)
Fixpoint carry_digits (fuel : nat) (carry : Z) : list Z :=
  match fuel with
  | O => []
  | S fuel' =>
      if carry =? 0 then []
      else Z.rem carry 10 :: carry_digits fuel' (Z.quot carry 10)
  end.

(** The iterations of the addition loop in which only one operand still
    has digits. *)
Fixpoint add_rest (ds : list Z) (carry : Z) : list Z :=
  match ds with
  | [] => carry_digits (S (Z.to_nat (Z.log2 (Z.abs carry)))) carry
  | d :: ds' =>
      let sum := carry + d in
      Z.rem sum 10 :: add_rest ds' (Z.quot sum 10)
  end.

(** The digit loop of [operator+]: iteration [i] adds [digits[i]] and
    [other.digits[i]] where they exist; the lists are consumed in step. *)
Fixpoint add_digits (xs ys : list Z) (carry : Z) : list Z :=
  match xs, ys with
  | [], _ => add_rest ys carry
  | _, [] => add_rest xs carry
  | x :: xs', y :: ys' =>
      let sum := carry + x + y in
      Z.rem sum 10 :: add_digits xs' ys' (Z.quot sum 10)
  end.

(** The digit loop of [operator-], over the indices of the left operand. *)
Fixpoint sub_digits (xs ys : list Z) (borrow : Z) : list Z :=
  match xs with
  | [] => []
  | x :: xs' =>
      let diff := match ys with
                  | y :: _ => x - borrow - y
                  | [] => x - borrow
                  end in
      if diff <? 0 then diff + 10 :: sub_digits xs' (tl ys) 1
      else diff :: sub_digits xs' (tl ys) 0
  end.

(** [operator+] and [operator-] call each other; [depth] bounds the nesting
    of these calls ([plus_minus_total] shows that 3 is always enough). *)
Fixpoint plus_rec (depth : nat) (x y : BigInt) {struct depth} : option BigInt :=
  match depth with
  | O => None
  | S depth' =>
      if negb (Bool.eqb (negative x) (negative y)) then
        if negative x then minus_rec depth' y (op_neg x)
        else minus_rec depth' x (op_neg y)
      else Some (mkBigInt (add_digits (digits x) (digits y) 0) (negative x))
  end
with minus_rec (depth : nat) (x y : BigInt) {struct depth} : option BigInt :=
  match depth with
  | O => None
  | S depth' =>
      if negb (Bool.eqb (negative x) (negative y)) then
        if negative x then option_map op_neg (plus_rec depth' (op_neg x) y)
        else plus_rec depth' x (op_neg y)
      else if negative x then minus_rec depth' (op_neg y) (op_neg x)
      else if op_lt x y then option_map op_neg (minus_rec depth' y x)
      else Some (normalize (mkBigInt (sub_digits (digits x) (digits y) 0) false))
  end.

(** Binary [operator+] *)
Definition op_plus (x y : BigInt) : BigInt :=
  match plus_rec 3 x y with
  | Some r => r
  | None => BigInt_default
  end.

(** Binary [operator-] *)
Definition op_minus (x y : BigInt) : BigInt :=
  match minus_rec 3 x y with
  | Some r => r
  | None => BigInt_default
  end.

(** ** Multiplication *)

Fixpoint set_nth (k : nat) (v : Z) (l : list Z) : list Z :=
  match l, k with
  | [], _ => []
  | _ :: l', O => v :: l'
  | d :: l', S k' => d :: set_nth k' v l'
  end.

(** The inner loop of [schoolbookMultiply],
    [for (size_t j = 0; j < other.digits.size() || carry; ++j)], on the row
    of digit [xi] at index [i].  [result.digits[i + j]] outside the vector is
    undefined behaviour, which the loop reaches after at most
    [result.digits.size()] iterations if it has not ended before. *)
Fixpoint mul_row (fuel : nat) (xi : Z) (ys : list Z) (i j : nat) (carry : Z)
    (res : list Z) : result (list Z) :=
  if (j <? length ys)%nat || negb (carry =? 0) then
    match fuel with
    | O => OutOfFuel
    | S fuel' =>
        match nth_error res (i + j) with
        | None => Undefined
        | Some cell =>
            let product :=
              if (j <? length ys)%nat then cell + carry + xi * nth j ys 0
              else cell + carry in
            mul_row fuel' xi ys i (S j) (Z.quot product 10)
              (set_nth (i + j) (Z.rem product 10) res)
        end
    end
  else Ok res.

(** The outer loop of [schoolbookMultiply], over the digits of [*this]
    from index [i] on. *)
Fixpoint mul_rows (xs ys : list Z) (i : nat) (res : list Z) : result (list Z) :=
  match xs with
  | [] => Ok res
  | xi :: xs' =>
      res' <- mul_row (S (length res)) xi ys i 0 0 res ;;
      mul_rows xs' ys (S i) res'
  end.

(** [BigInt::schoolbookMultiply] *)
Definition schoolbookMultiply (x y : BigInt) : result BigInt :=
  res <- mul_rows (digits x) (digits y) 0
           (repeat 0 (length (digits x) + length (digits y))) ;;
  Ok (normalize (mkBigInt res false)).

(** [operator*] *)
Definition op_mul (x y : BigInt) : result BigInt :=
  if isZero x || isZero y then Ok ZERO
  else
    r <- schoolbookMultiply x y ;;
    Ok (normalize (mkBigInt (digits r) (xorb (negative x) (negative y)))).

(** ** Division *)

(** [while (remainder >= divisorAbs) { remainder = remainder - divisorAbs; digit++; }] *)
Fixpoint div_digit (fuel : nat) (remainder divisorAbs : BigInt) (digit : Z)
    : result (BigInt * Z) :=
  if op_ge remainder divisorAbs then
    match fuel with
    | O => OutOfFuel
    | S fuel' => div_digit fuel' (op_minus remainder divisorAbs) divisorAbs (digit + 1)
    end
  else Ok (remainder, digit).

(** The loop [for (int i = current.digits.size() - 1; i >= 0; --i)] of
    [divideWithRemainder]; the argument [i] counts the indices still to
    visit, the next one being [i - 1]. *)
Fixpoint div_loop (fuel : nat) (current : list Z) (divisorAbs : BigInt) (i : nat)
    (quotient remainder : BigInt) : result (BigInt * BigInt) :=
  match i with
  | O => Ok (quotient, remainder)
  | S i' =>
      let remainder1 :=
        normalize (mkBigInt (nth i' current 0 :: digits remainder) (negative remainder)) in
      '(remainder2, digit) <- div_digit fuel remainder1 divisorAbs 0 ;;
      div_loop fuel current divisorAbs i'
        (mkBigInt (digit :: digits quotient) (negative quotient)) remainder2
  end.

(** [BigInt::divideWithRemainder] *)
Definition divideWithRemainder (fuel : nat) (dividend divisor : BigInt)
    : result (BigInt * BigInt) :=
  if isZero dividend then Ok (ZERO, ZERO)
  else
    let current := abs dividend in
    let divisorAbs := abs divisor in
    '(quotient, remainder) <-
       div_loop fuel (digits current) divisorAbs (length (digits current))
         BigInt_default BigInt_default ;;
    Ok (normalize quotient, remainder).

(** [operator/] *)
Definition op_div (fuel : nat) (x y : BigInt) : result BigInt :=
  if isZero y then Throw DivisionByZero
  else
    '(q, _) <- divideWithRemainder fuel x y ;;
    Ok (normalize (mkBigInt (digits q) (xorb (negative x) (negative y)))).

(** [operator%] *)
Definition op_mod (fuel : nat) (x y : BigInt) : result BigInt :=
  if isZero y then Throw DivisionByZero
  else
    '(_, r) <- divideWithRemainder fuel x y ;;
    Ok (normalize (mkBigInt (digits r) (negative x))).

(** ** Number theory *)

(** The binary search of [BigInt::sqrt]. *)
Fixpoint sqrt_loop (fuel k : nat) (n left right res : BigInt) : result BigInt :=
  if op_le left right then
    match k with
    | O => OutOfFuel
    | S k' =>
        mid <- op_div fuel (op_plus left right) TWO ;;
        square <- op_mul mid mid ;;
        if op_le square n then sqrt_loop fuel k' n (op_plus mid ONE) right mid
        else sqrt_loop fuel k' n left (op_minus mid ONE) res
    end
  else Ok res.

(** [BigInt::sqrt] *)
Definition sqrt (fuel : nat) (n : BigInt) : result BigInt :=
  if op_lt n ZERO then Throw InvalidInput
  else if op_le n ONE then Ok n
  else sqrt_loop fuel fuel n (BigInt_of_ll 1) n (BigInt_of_ll 1).

(** The loop of [BigInt::pow]. *)
Fixpoint pow_loop (fuel k : nat) (res b e : BigInt) : result BigInt :=
  if negb (isZero e) then
    match k with
    | O => OutOfFuel
    | S k' =>
        m <- op_mod fuel e TWO ;;
        res' <- (if op_eq m ONE then op_mul res b else Ok res) ;;
        b' <- op_mul b b ;;
        e' <- op_div fuel e TWO ;;
        pow_loop fuel k' res' b' e'
    end
  else Ok res.

(** [BigInt::pow] *)
Definition pow (fuel : nat) (base exponent : BigInt) : result BigInt :=
  if op_lt exponent ZERO then Throw InvalidInput
  else if isZero exponent then Ok ONE
  else pow_loop fuel fuel (BigInt_of_ll 1) base exponent.

(** [operator^] *)
Definition op_pow (fuel : nat) (x y : BigInt) : result BigInt := pow fuel x y.

(** [while (num % i == ZERO) { num = num / i; count++; }] *)
Fixpoint divide_out (fuel k : nat) (num i : BigInt) (count : Z) : result (BigInt * Z) :=
  m <- op_mod fuel num i ;;
  if op_eq m ZERO then
    match k with
    | O => OutOfFuel
    | S k' =>
        num' <- op_div fuel num i ;;
        divide_out fuel k' num' i (count + 1)
    end
  else Ok (num, count).

(** The loop [while (i <= sqrtNum)] of [primeFactorization]. *)
Fixpoint odd_divisors (fuel k : nat) (i sqrtNum num : BigInt)
    (factors : list (BigInt * Z)) : result (BigInt * list (BigInt * Z)) :=
  if op_le i sqrtNum then
    match k with
    | O => OutOfFuel
    | S k' =>
        '(num', count) <- divide_out fuel fuel num i 0 ;;
        let factors' := if count >? 0 then factors ++ [(i, count)] else factors in
        odd_divisors fuel k' (op_plus i TWO) sqrtNum num' factors'
    end
  else Ok (num, factors).

(** [BigInt::primeFactorization] *)
Definition primeFactorization (fuel : nat) (n : BigInt) : result (list (BigInt * Z)) :=
  let num := abs n in
  if op_le num ONE then Ok []
  else
    '(num1, count) <- divide_out fuel fuel num TWO 0 ;;
    let factors := if count >? 0 then [(TWO, count)] else [] in
    sqrtNum <- sqrt fuel num1 ;;
    '(num2, factors') <- odd_divisors fuel fuel (BigInt_of_ll 3) sqrtNum num1 factors ;;
    Ok (if op_gt num2 ONE then factors' ++ [(num2, 1)] else factors').

(** ** Conversion to [long long] *)

(** [BigInt::toLongLong]; the accumulation runs from the most significant
    digit down, in 64 bits. *)
Definition toLongLong (x : BigInt) : result Z :=
  if op_gt x (BigInt_of_ll LLONG_MAX) || op_lt x (BigInt_of_ll LLONG_MIN)
  then Throw OutOfRange
  else
    let r := fold_left (fun acc d => wrap64 (acc * 10 + d)) (rev (digits x)) 0 in
    Ok (if negative x then wrap64 (- r) else r).

(** ** Combinatorial and number-theoretic functions *)

Definition INT_MAX : Z := 2 ^ 31 - 1.

(** Two's-complement reduction of an [int] result. *)
Definition wrap32 (z : Z) : Z := (z + 2 ^ 31) mod 2 ^ 32 - 2 ^ 31.

(** [for (int i = 2; i <= n; ++i) result *= BigInt(i);] *)
Fixpoint factorial_loop (k : nat) (i n : Z) (res : BigInt) : result BigInt :=
  if i <=? n then
    match k with
    | O => OutOfFuel
    | S k' =>
        res' <- op_mul res (BigInt_of_ll i) ;;
        factorial_loop k' (wrap32 (i + 1)) n res'
    end
  else Ok res.

(** [BigInt::factorial] *)
Definition factorial (fuel : nat) (n : Z) : result BigInt :=
  if n <? 0 then Throw InvalidInput
  else factorial_loop fuel 2 n (BigInt_of_ll 1).

(** [for (int i = 2; i <= n; ++i) { temp = a + b; a = b; b = temp; }] *)
Fixpoint fibonacci_loop (k : nat) (i n : Z) (a b : BigInt) : result BigInt :=
  if i <=? n then
    match k with
    | O => OutOfFuel
    | S k' =>
        let temp := op_plus a b in
        fibonacci_loop k' (wrap32 (i + 1)) n b temp
    end
  else Ok b.

(** [BigInt::fibonacci] *)
Definition fibonacci (fuel : nat) (n : Z) : result BigInt :=
  if n <? 0 then Throw InvalidInput
  else if n <=? 1 then Ok (BigInt_of_ll n)
  else fibonacci_loop fuel 2 n (BigInt_of_ll 0) (BigInt_of_ll 1).


(** [while (!y.isZero()) { temp = y; y = x % y; x = temp; }] *)
Fixpoint gcd_loop (fuel k : nat) (x y : BigInt) : result BigInt :=
  if negb (isZero y) then
    match k with
    | O => OutOfFuel
    | S k' =>
        m <- op_mod fuel x y ;;
        gcd_loop fuel k' y m
    end
  else Ok x.

(** [BigInt::gcd] *)
Definition gcd (fuel : nat) (a b : BigInt) : result BigInt :=
  gcd_loop fuel fuel (abs a) (abs b).

(** [BigInt::lcm] *)
Definition lcm (fuel : nat) (a b : BigInt) : result BigInt :=
  if isZero a || isZero b then Ok ZERO
  else
    p <- op_mul a b ;;
    g <- gcd fuel a b ;;
    op_div fuel (abs p) g.

(** The trial division of [isPrimeMillerRabin]:
    [for (BigInt i = TWO; i * i <= num; i = i + ONE)]. *)
Fixpoint trial_division (fuel k : nat) (num i : BigInt) : result bool :=
  sq <- op_mul i i ;;
  if op_le sq num then
    match k with
    | O => OutOfFuel
    | S k' =>
        m <- op_mod fuel num i ;;
        if op_eq m ZERO then Ok false
        else trial_division fuel k' num (op_plus i ONE)
    end
  else Ok true.

(** The rounds of the probabilistic test, [count] of them still to run.
    The random source is an input of the model: [draws i] is the value that
    the [i]-th call [dis(gen)] returns. *)
Fixpoint random_rounds (fuel : nat) (draws : nat -> Z) (i count : nat)
    (num : BigInt) : result bool :=
  match count with
  | O => Ok true
  | S count' =>
      g <- gcd fuel (BigInt_of_ll (draws i)) num ;;
      if op_ne g ONE then Ok false
      else random_rounds fuel draws (S i) count' num
  end.

(** [BigInt::isPrimeMillerRabin] *)
Definition isPrimeMillerRabin (fuel : nat) (draws : nat -> Z) (n : BigInt)
    (iterations : Z) : result bool :=
  let num := abs n in
  if op_le num (BigInt_of_ll 100) then trial_division fuel fuel num TWO
  else random_rounds fuel draws 0 (Z.to_nat iterations) num.

(** [BigInt::isPrime]; the call leaves [iterations] at its default, 5. *)
Definition isPrime (fuel : nat) (draws : nat -> Z) (n : BigInt) : result bool :=
  if op_le n ONE then Ok false
  else if op_eq n TWO then Ok true
  else
    m <- op_mod fuel n TWO ;;
    if op_eq m ZERO then Ok false
    else isPrimeMillerRabin fuel draws n 5.

(** The loop of [BigInt::modPow]. *)
Fixpoint modPow_loop (fuel k : nat) (res b e modulus : BigInt) : result BigInt :=
  if negb (isZero e) then
    match k with
    | O => OutOfFuel
    | S k' =>
        m <- op_mod fuel e TWO ;;
        res' <- (if op_eq m ONE
                 then p <- op_mul res b ;; op_mod fuel p modulus
                 else Ok res) ;;
        sq <- op_mul b b ;;
        b' <- op_mod fuel sq modulus ;;
        e' <- op_div fuel e TWO ;;
        modPow_loop fuel k' res' b' e' modulus
    end
  else Ok res.

(** [BigInt::modPow] *)
Definition modPow (fuel : nat) (base exponent modulus : BigInt) : result BigInt :=
  if op_le modulus ZERO then Throw InvalidInput
  else if op_lt exponent ZERO then Throw InvalidInput
  else
    b <- op_mod fuel base modulus ;;
    modPow_loop fuel fuel (BigInt_of_ll 1) b exponent modulus.

(** [BigInt::getDigitCount] *)
Definition getDigitCount (x : BigInt) : Z := Z.of_nat (length (digits x)).

(** [min] *)
Definition min (a b : BigInt) : BigInt := if op_lt a b then a else b.

(** [max] *)
Definition max (a b : BigInt) : BigInt := if op_gt a b then a else b.

(** * Denotation and canonical form *)

(** The magnitude denoted by a digit vector. *)
Fixpoint value (ds : list Z) : Z :=
  match ds with
  | [] => 0
  | d :: ds' => d + 10 * value ds'
  end.

(** The integer denoted by a [BigInt]. *)
Definition to_Z (x : BigInt) : Z :=
  if negative x then - value (digits x) else value (digits x).

Definition digit_okb (d : Z) : bool := (0 <=? d) && (d <=? 9).

Definition digits_ok (ds : list Z) : Prop := Forall (fun d => 0 <= d <= 9) ds.

(** Canonical form of the data model: a non-empty vector of digits in
    [0,9], no most-significant zero except in the vector [0], and zero never
    negative.  The head of the reversed vector is the most significant digit. *)
Definition canonicalb (x : BigInt) : bool :=
  match rev (digits x) with
  | [] => false
  | top :: rest =>
      forallb digit_okb (digits x)
      && (negb (top =? 0)
          || match rest with [] => negb (negative x) | _ :: _ => false end)
  end.

Definition canonical (x : BigInt) : Prop := canonicalb x = true.

(** The same invariant stated on the denotation, the form used in proofs. *)
Record wf (x : BigInt) : Prop := mk_wf {
  wf_nonempty : digits x <> [];
  wf_digits : digits_ok (digits x);
  wf_top : length (digits x) = 1%nat
           \/ 10 ^ (Z.of_nat (length (digits x)) - 1) <= value (digits x);
  wf_zero : value (digits x) = 0 -> negative x = false
}.

(** A factor list multiplied out: the product of [factor ^ multiplicity]. *)
Fixpoint factors_product (fs : list (BigInt * Z)) : Z :=
  match fs with
  | [] => 1
  | (p, k) :: fs' => to_Z p ^ k * factors_product fs'
  end.

(** Factor entries in strictly ascending order of the factor. *)
Definition factor_lt (a b : BigInt * Z) : Prop := to_Z (fst a) < to_Z (fst b).

Definition ascending (fs : list (BigInt * Z)) : Prop := StronglySorted factor_lt fs.

(** [d] divides no number in [2, bound): the state of trial division. *)
Definition no_small_divisor (num bound : Z) : Prop :=
  forall d, 2 <= d < bound -> ~ (d | num).

(** Factor entries that are canonical primes below [bound], each with a
    multiplicity of at least 1, in strictly ascending order. *)
Definition factors_ok (bound : Z) (fs : list (BigInt * Z)) : Prop :=
  Forall (fun pk => wf (fst pk) /\ Z.prime (to_Z (fst pk)) /\ 1 <= snd pk
                    /\ to_Z (fst pk) < bound) fs
  /\ ascending fs.

(** The grammar of the text constructor: an optional sign, then digits. *)
Definition is_sign (c : ascii) : bool := Ascii.eqb c "-" || Ascii.eqb c "+".

(** The characters that remain after the optional sign. *)
Definition text_body (str : list ascii) : list ascii :=
  match str with
  | c0 :: body => if is_sign c0 then body else str
  | [] => []
  end.

(** The number denoted by a sequence of decimal digit characters, most
    significant first. *)
Definition numeral (body : list ascii) : Z :=
  fold_left (fun acc c => acc * 10 + (char_code c - 48)) body 0.

(** The Fibonacci numbers. *)
Fixpoint fib (n : nat) : Z :=
  match n with
  | O => 0
  | S m => match m with
           | O => 1
           | S p => fib m + fib p
           end
  end.

(** The decimal rendering of an integer, as the specification describes the
    canonical text form: ["0"] for zero, otherwise an optional ["-"] followed
    by the digits, most significant first, without leading zeros. *)
Fixpoint decimal_digits (fuel : nat) (n : Z) (acc : list ascii) : list ascii :=
  match fuel with
  | O => acc
  | S fuel' =>
      if n =? 0 then acc
      else decimal_digits fuel' (n / 10) (code_char (48 + n mod 10) :: acc)
  end.

Definition decimal (n : Z) : string :=
  if n =? 0 then "0"%string
  else
    let body := string_of_list_ascii
                  (decimal_digits (S (Z.to_nat (Z.log2 (Z.abs n)))) (Z.abs n) []) in
    if n <? 0 then ("-" ++ body)%string else body.

(** * Basic facts *)

(** Split a conjunction into its parts, leaving records alone. *)
Ltac split_and := repeat match goal with |- _ /\ _ => split end.

Section Value.

Lemma value_app (xs ys : list Z) :
  value (xs ++ ys) = value xs + 10 ^ Z.of_nat (length xs) * value ys.
Proof.
  induction xs as [|x xs IH]; cbn [app value length].
  - rewrite Z.pow_0_r. lia.
  - rewrite IH, Nat2Z.inj_succ, Z.pow_succ_r by lia. ring.
Qed.

Lemma digits_ok_app (xs ys : list Z) :
  digits_ok (xs ++ ys) <-> digits_ok xs /\ digits_ok ys.
Proof. apply Forall_app. Qed.

Lemma digits_ok_rev (xs : list Z) : digits_ok xs -> digits_ok (rev xs).
Proof. apply Forall_rev. Qed.

Lemma value_bound (ds : list Z) :
  digits_ok ds -> 0 <= value ds < 10 ^ Z.of_nat (length ds).
Proof.
  induction 1 as [|d ds Hd _ IH]; cbn [value length].
  - rewrite Z.pow_0_r. lia.
  - rewrite Nat2Z.inj_succ, Z.pow_succ_r by lia. lia.
Qed.

Lemma pow10_pos (n : Z) : 0 <= n -> 0 < 10 ^ n.
Proof. intros. apply Z.pow_pos_nonneg; lia. Qed.

Lemma pow10_le (n m : Z) : 0 <= n <= m -> 10 ^ n <= 10 ^ m.
Proof. intros. apply Z.pow_le_mono_r; lia. Qed.

(** Digit vectors of one length denote different numbers unless equal. *)
Lemma value_inj (xs ys : list Z) :
  digits_ok xs -> digits_ok ys -> length xs = length ys ->
  value xs = value ys -> xs = ys.
Proof.
  intros Hx; revert ys.
  induction Hx as [|x xs Hd Hx IH]; intros [|y ys] Hy Hlen Hv; try discriminate; auto.
  inversion Hy as [|? ? Hdy Hys]; subst.
  cbn [value length] in *.
  assert (x = y /\ value xs = value ys) as [-> Hv'] by lia.
  f_equal. apply IH; auto.
Qed.

(** The most significant digit is non-zero exactly when the value reaches
    the power of ten of its position. *)
Lemma top_digit_value (ds : list Z) (top : Z) :
  digits_ok (ds ++ [top]) ->
  (top <> 0 <-> 10 ^ Z.of_nat (length ds) <= value (ds ++ [top])).
Proof.
  intros H. apply digits_ok_app in H as [Hds Htop].
  inversion Htop as [|? ? Ht _]; subst.
  rewrite value_app. cbn [value].
  pose proof (value_bound ds Hds) as Hb.
  pose proof (pow10_pos (Z.of_nat (length ds))) as Hp.
  split; intros; nia.
Qed.

End Value.

Section Canonical.

Lemma forallb_digits_ok (ds : list Z) :
  forallb digit_okb ds = true <-> digits_ok ds.
Proof.
  unfold digits_ok. rewrite forallb_forall, Forall_forall.
  split; intros H d Hin; specialize (H d Hin); unfold digit_okb in *; lia.
Qed.

Lemma canonical_wf (x : BigInt) : canonical x <-> wf x.
Proof.
  unfold canonical, canonicalb. destruct x as [ds ng]. cbn [digits negative].
  destruct (rev ds) as [|top rest] eqn:Hrev.
  - split; [discriminate|]. intros [Hne _ _ _]. cbn in Hne.
    apply (f_equal (@rev Z)) in Hrev. rewrite rev_involutive in Hrev. contradiction.
  - assert (Hds : ds = rev rest ++ [top]).
    { rewrite <- (rev_involutive ds), Hrev. reflexivity. }
    assert (Hlen : length ds = S (length rest)).
    { rewrite Hds, length_app, length_rev. cbn. lia. }
    rewrite andb_true_iff, forallb_digits_ok, orb_true_iff, negb_true_iff, Z.eqb_neq.
    split.
    + intros [Hok Htop]. constructor; cbn [digits negative].
      * rewrite Hds. destruct (rev rest); discriminate.
      * exact Hok.
      * destruct Htop as [Htop | Htop].
        -- right. rewrite Hlen, Hds.
           replace (Z.of_nat (S (length rest)) - 1) with (Z.of_nat (length (rev rest)))
             by (rewrite length_rev; lia).
           apply top_digit_value; [rewrite <- Hds; exact Hok | exact Htop].
        -- destruct rest; [|discriminate]. left. rewrite Hlen. reflexivity.
      * intros Hv. destruct Htop as [Htop | Htop].
        -- exfalso. rewrite Hds in Hok.
           pose proof (proj1 (top_digit_value _ _ Hok) Htop) as Hle.
           rewrite <- Hds in Hle.
           pose proof (pow10_pos (Z.of_nat (length (rev rest)))). lia.
        -- destruct rest; [|discriminate]. now apply negb_true_iff in Htop.
    + intros [Hne Hok Htop Hz]. cbn [digits negative] in *. split; [exact Hok|].
      destruct (Z.eq_dec top 0) as [-> | Hnz]; [right | left; exact Hnz].
      destruct rest as [|r rest].
      * apply negb_true_iff, Hz. rewrite Hds. reflexivity.
      * exfalso. destruct Htop as [Htop | Htop]; [cbn in Hlen; lia|].
        rewrite Hds in Hok.
        pose proof (top_digit_value _ _ Hok) as Hiff.
        rewrite <- Hds, length_rev in Hiff.
        rewrite Hlen in Htop.
        replace (Z.of_nat (S (length (r :: rest))) - 1)
          with (Z.of_nat (length (r :: rest))) in Htop by lia.
        apply Hiff in Htop. congruence.
Qed.

Lemma wf_value_nonneg (x : BigInt) : wf x -> 0 <= value (digits x).
Proof. intros H. apply value_bound, H. Qed.

Lemma wf_length_pos (x : BigInt) : wf x -> (1 <= length (digits x))%nat.
Proof.
  intros [Hne _ _ _]. destruct (digits x); [contradiction | cbn; lia].
Qed.

(** The length of a canonical vector is determined by its value. *)
Lemma wf_length_le (x y : BigInt) :
  wf x -> wf y -> value (digits x) <= value (digits y) ->
  (length (digits x) <= length (digits y))%nat.
Proof.
  intros Hx Hy Hle.
  pose proof (wf_length_pos x Hx). pose proof (wf_length_pos y Hy).
  destruct (wf_top x Hx) as [H1 | Hpow]; [lia|].
  pose proof (value_bound _ (wf_digits y Hy)) as Hb.
  destruct (Nat.le_gt_cases (length (digits x)) (length (digits y))) as [|Hgt]; auto.
  exfalso.
  assert (10 ^ Z.of_nat (length (digits y)) <= 10 ^ (Z.of_nat (length (digits x)) - 1))
    by (apply pow10_le; lia).
  lia.
Qed.

Lemma wf_digits_eq (x y : BigInt) :
  wf x -> wf y -> value (digits x) = value (digits y) -> digits x = digits y.
Proof.
  intros Hx Hy Hv.
  apply value_inj; try apply wf_digits; auto.
  apply Nat.le_antisymm; apply wf_length_le; auto; lia.
Qed.

(** Canonical values are equal as soon as they denote the same integer. *)
Lemma wf_inj (x y : BigInt) : wf x -> wf y -> to_Z x = to_Z y -> x = y.
Proof.
  intros Hx Hy Hz.
  pose proof (wf_value_nonneg x Hx). pose proof (wf_value_nonneg y Hy).
  pose proof (wf_zero x Hx) as Hzx. pose proof (wf_zero y Hy) as Hzy.
  unfold to_Z in Hz.
  assert (Hv : value (digits x) = value (digits y) /\ negative x = negative y).
  { destruct (negative x), (negative y).
    - split; [lia | reflexivity].
    - assert (E : value (digits x) = 0) by lia. specialize (Hzx E). discriminate.
    - assert (E : value (digits y) = 0) by lia. specialize (Hzy E). discriminate.
    - split; [lia | reflexivity]. }
  destruct Hv as [Hv Hn].
  pose proof (wf_digits_eq x y Hx Hy Hv) as Hd.
  destruct x, y; cbn in *; congruence.
Qed.

Lemma isZero_value (x : BigInt) : wf x -> isZero x = (to_Z x =? 0).
Proof.
  intros Hx. unfold isZero, to_Z.
  pose proof (wf_value_nonneg x Hx) as Hnn.
  destruct Hx as [Hne Hok Htop Hz].
  destruct (digits x) as [|d [|d' ds]] eqn:Hd; [contradiction | |].
  - cbn [value] in *. destruct (negative x); destruct (Z.eqb_spec d 0); lia.
  - destruct Htop as [Htop | Htop]; [cbn in Htop; lia|].
    assert (0 < 10 ^ (Z.of_nat (length (d :: d' :: ds)) - 1))
      by (apply pow10_pos; cbn [length]; lia).
    destruct (negative x); symmetry; apply Z.eqb_neq; lia.
Qed.

End Canonical.

(** * Normalisation *)

Section Normalize.

Lemma value_zeros (zs : list Z) : Forall (fun d => d = 0) zs -> value zs = 0.
Proof. induction 1; cbn [value]; lia. Qed.

Lemma strip_back_spec (r : list Z) :
  exists zs, r = zs ++ strip_back r
             /\ Forall (fun d => d = 0) zs
             /\ (r <> [] -> strip_back r <> [])
             /\ match strip_back r with
                | d :: _ :: _ => d <> 0
                | _ => True
                end.
Proof.
  induction r as [|d r IH].
  - exists []. cbn. repeat split; auto.
  - destruct r as [|d' r'].
    + exists []. cbn. repeat split; auto; try discriminate.
    + cbn [strip_back]. destruct (Z.eqb_spec d 0) as [-> | Hd].
      * destruct IH as (zs & Heq & Hz & Hne & Htop).
        exists (0 :: zs). split; [cbn; f_equal; exact Heq|].
        split; [constructor; auto|]. split; [|exact Htop].
        intros _. apply Hne. discriminate.
      * exists []. cbn. repeat split; auto; try discriminate.
Qed.

Lemma removeLeadingZeros_spec (ds : list Z) :
  ds <> [] -> digits_ok ds ->
  removeLeadingZeros ds <> []
  /\ digits_ok (removeLeadingZeros ds)
  /\ value (removeLeadingZeros ds) = value ds
  /\ (length (removeLeadingZeros ds) = 1%nat
      \/ 10 ^ (Z.of_nat (length (removeLeadingZeros ds)) - 1)
         <= value (removeLeadingZeros ds)).
Proof.
  intros Hne Hok. unfold removeLeadingZeros.
  destruct (strip_back_spec (rev ds)) as (zs & Heq & Hz & Hne' & Htop).
  set (s := strip_back (rev ds)) in *.
  assert (Hds : ds = rev s ++ rev zs).
  { rewrite <- (rev_involutive ds), Heq, rev_app_distr. reflexivity. }
  assert (Hs : s <> []).
  { apply Hne'. intros E. apply Hne. rewrite <- (rev_involutive ds), E. reflexivity. }
  assert (Hoks : digits_ok (rev s)).
  { rewrite Hds in Hok. apply digits_ok_app in Hok. tauto. }
  split; [|split; [exact Hoks | split]].
  - intros E. apply Hs. rewrite <- (rev_involutive s), E. reflexivity.
  - rewrite Hds. rewrite value_app, (value_zeros (rev zs)); [lia|].
    apply Forall_rev, Hz.
  - destruct s as [|d [|d' s']]; [contradiction | left; reflexivity | right].
    cbn [rev] in Hoks |- *. rewrite length_app. cbn [length].
    replace (Z.of_nat (length (rev s' ++ [d']) + 1) - 1)
      with (Z.of_nat (length (rev s' ++ [d']))) by lia.
    apply top_digit_value; assumption.
Qed.

Lemma normalize_spec (x : BigInt) :
  digits x <> [] -> digits_ok (digits x) ->
  wf (normalize x) /\ to_Z (normalize x) = to_Z x.
Proof.
  intros Hne Hok.
  destruct (removeLeadingZeros_spec _ Hne Hok) as (Hr & Hrok & Hv & Htop).
  unfold normalize, to_Z.
  destruct (removeLeadingZeros (digits x)) as [|d [|d' r]] eqn:Hrem;
    [contradiction | |].
  - destruct (Z.eqb_spec d 0) as [-> | Hd]; cbn [digits negative].
    + split; [constructor; cbn [digits negative]; auto|].
      rewrite <- Hv. cbn. destruct (negative x); reflexivity.
    + split; [constructor; cbn [digits negative]; auto|].
      * cbn [value]. intros; lia.
      * rewrite <- Hv. reflexivity.
  - cbn [digits negative]. split; [constructor; cbn [digits negative]; auto|].
    + destruct Htop as [Htop | Htop]; [discriminate|].
      assert (0 < 10 ^ (Z.of_nat (length (d :: d' :: r)) - 1))
        by (apply pow10_pos; cbn [length]; lia).
      intros; lia.
    + rewrite <- Hv. reflexivity.
Qed.

Lemma normalize_wf_id (x : BigInt) : wf x -> normalize x = x.
Proof.
  intros Hx.
  destruct (normalize_spec x (wf_nonempty x Hx) (wf_digits x Hx)) as [Hw Hz].
  apply wf_inj; auto.
Qed.

End Normalize.

(** * Comparison *)

Section Compare.

Lemma compare_from_app (i : nat) (xs ys a b : list Z) :
  (i <= length xs)%nat -> (i <= length ys)%nat ->
  compare_from i (xs ++ a) (ys ++ b) = compare_from i xs ys.
Proof.
  induction i as [|i IH]; intros Hx Hy; cbn [compare_from]; auto.
  rewrite !app_nth1 by lia. rewrite IH by lia. reflexivity.
Qed.

Lemma compare_from_value (xs ys : list Z) :
  digits_ok xs -> digits_ok ys -> length xs = length ys ->
  compare_from (length xs) xs ys = Z.sgn (value xs - value ys).
Proof.
  revert ys. induction xs as [|x xs IH] using rev_ind; intros ys Hx Hy Hlen.
  - destruct ys; [reflexivity | discriminate].
  - destruct ys as [|y ys _] using rev_ind.
    { rewrite length_app in Hlen. cbn in Hlen. lia. }
    rewrite !length_app in Hlen. cbn [length] in Hlen.
    assert (Hl : length xs = length ys) by lia.
    apply digits_ok_app in Hx as [Hx Hdx]. apply digits_ok_app in Hy as [Hy Hdy].
    inversion Hdx as [|? ? Hxr _]; inversion Hdy as [|? ? Hyr _]; subst.
    rewrite length_app. cbn [length]. rewrite Nat.add_1_r. cbn [compare_from].
    assert (Hny : nth (length xs) (ys ++ [y]) 0 = y) by (rewrite Hl; apply nth_middle).
    rewrite nth_middle, !Hny.
    rewrite !value_app. cbn [value]. rewrite <- Hl.
    pose proof (value_bound xs Hx) as Hbx. pose proof (value_bound ys Hy) as Hby.
    rewrite <- Hl in Hby.
    pose proof (pow10_pos (Z.of_nat (length xs))) as Hp.
    destruct (Z.eqb_spec x y) as [-> | Hne].
    + rewrite compare_from_app by lia. rewrite IH by auto. f_equal. ring.
    + destruct (Z.ltb_spec x y).
      * symmetry. apply Z.sgn_neg. nia.
      * symmetry. apply Z.sgn_pos. nia.
Qed.

Lemma compareMagnitude_value (x y : BigInt) :
  wf x -> wf y ->
  compareMagnitude x y = Z.sgn (value (digits x) - value (digits y)).
Proof.
  intros Hx Hy. unfold compareMagnitude.
  destruct (Nat.eqb_spec (length (digits x)) (length (digits y))) as [Hl | Hl]; cbn [negb].
  - apply compare_from_value; auto; apply wf_digits; auto.
  - destruct (Nat.ltb_spec (length (digits x)) (length (digits y))) as [Hlt | Hge].
    + symmetry. apply Z.sgn_neg.
      destruct (Z.le_gt_cases (value (digits y)) (value (digits x))) as [Hle|]; [|lia].
      pose proof (wf_length_le y x Hy Hx Hle). lia.
    + symmetry. apply Z.sgn_pos.
      destruct (Z.le_gt_cases (value (digits x)) (value (digits y))) as [Hle|]; [|lia].
      pose proof (wf_length_le x y Hx Hy Hle). lia.
Qed.

Lemma wf_negative_pos (x : BigInt) : wf x -> negative x = true -> 0 < value (digits x).
Proof.
  intros Hx Hn. pose proof (wf_value_nonneg x Hx). pose proof (wf_zero x Hx) as Hz.
  destruct (Z.eq_dec (value (digits x)) 0) as [E|]; [|lia].
  rewrite (Hz E) in Hn. discriminate.
Qed.

Lemma op_lt_value (x y : BigInt) : wf x -> wf y -> op_lt x y = (to_Z x <? to_Z y).
Proof.
  intros Hx Hy. unfold op_lt, to_Z.
  rewrite (compareMagnitude_value x y Hx Hy).
  pose proof (wf_value_nonneg x Hx). pose proof (wf_value_nonneg y Hy).
  pose proof (wf_negative_pos x Hx) as Hpx. pose proof (wf_negative_pos y Hy) as Hpy.
  destruct (negative x), (negative y); cbn [Bool.eqb negb].
  - destruct (Z.sgn_spec (value (digits x) - value (digits y)))
      as [[? ->] | [[? ->] | [? ->]]];
      destruct (Z.ltb_spec (- value (digits x)) (- value (digits y))); lia.
  - specialize (Hpx eq_refl). symmetry. apply Z.ltb_lt. lia.
  - specialize (Hpy eq_refl). symmetry. apply Z.ltb_ge. lia.
  - destruct (Z.sgn_spec (value (digits x) - value (digits y)))
      as [[? ->] | [[? ->] | [? ->]]];
      destruct (Z.ltb_spec (value (digits x)) (value (digits y))); lia.
Qed.

Lemma list_Z_eqb_eq (xs ys : list Z) : list_Z_eqb xs ys = true <-> xs = ys.
Proof.
  unfold list_Z_eqb. destruct (list_eq_dec Z.eq_dec xs ys); split; auto; discriminate.
Qed.

Lemma op_eq_true (x y : BigInt) : op_eq x y = true <-> x = y.
Proof.
  unfold op_eq. rewrite andb_true_iff, eqb_true_iff, list_Z_eqb_eq.
  destruct x, y; cbn [digits negative]. split.
  - intros [-> ->]. reflexivity.
  - intros E. inversion E. auto.
Qed.

Lemma op_eq_value (x y : BigInt) : wf x -> wf y -> op_eq x y = (to_Z x =? to_Z y).
Proof.
  intros Hx Hy. destruct (Z.eqb_spec (to_Z x) (to_Z y)) as [E | E].
  - apply op_eq_true, wf_inj; auto.
  - destruct (op_eq x y) eqn:Heq; auto.
    apply op_eq_true in Heq. subst. contradiction.
Qed.

Lemma op_le_value (x y : BigInt) : wf x -> wf y -> op_le x y = (to_Z x <=? to_Z y).
Proof.
  intros Hx Hy. unfold op_le. rewrite op_lt_value, op_eq_value by auto.
  destruct (Z.ltb_spec (to_Z x) (to_Z y)), (Z.eqb_spec (to_Z x) (to_Z y)),
    (Z.leb_spec (to_Z x) (to_Z y)); cbn; lia.
Qed.

Lemma op_gt_value (x y : BigInt) : wf x -> wf y -> op_gt x y = (to_Z y <? to_Z x).
Proof.
  intros Hx Hy. unfold op_gt. rewrite op_le_value by auto.
  destruct (Z.leb_spec (to_Z x) (to_Z y)), (Z.ltb_spec (to_Z y) (to_Z x)); cbn; lia.
Qed.

Lemma op_ge_value (x y : BigInt) : wf x -> wf y -> op_ge x y = (to_Z y <=? to_Z x).
Proof.
  intros Hx Hy. unfold op_ge. rewrite op_lt_value by auto.
  destruct (Z.ltb_spec (to_Z x) (to_Z y)), (Z.leb_spec (to_Z y) (to_Z x)); cbn; lia.
Qed.

End Compare.

(** * Addition and subtraction *)

Section AddSub.

Lemma quot_rem_digit (s : Z) :
  0 <= s -> 0 <= Z.rem s 10 <= 9 /\ s = Z.rem s 10 + 10 * Z.quot s 10 /\ 0 <= Z.quot s 10.
Proof.
  intros Hs. rewrite Z.rem_mod_nonneg, Z.quot_div_nonneg by lia.
  pose proof (Z.mod_pos_bound s 10 ltac:(lia)).
  pose proof (Z.div_mod s 10 ltac:(lia)).
  pose proof (Z.div_pos s 10 ltac:(lia) ltac:(lia)). lia.
Qed.

Lemma add_rest_spec (ds : list Z) (c : Z) :
  digits_ok ds -> 0 <= c <= 1 ->
  digits_ok (add_rest ds c)
  /\ value (add_rest ds c) = value ds + c
  /\ (length (add_rest ds c) = length ds
      \/ (length (add_rest ds c) = S (length ds)
          /\ 10 ^ Z.of_nat (length ds) <= value (add_rest ds c))).
Proof.
  intros Hok; revert c. induction Hok as [|d ds Hd Hok IH]; intros c Hc.
  - assert (c = 0 \/ c = 1) as [-> | ->] by lia; cbn.
    + repeat split; auto. constructor.
    + split; [repeat constructor; lia|]. split; [reflexivity|]. right. split; [reflexivity | lia].
  - cbn [add_rest].
    destruct (quot_rem_digit (c + d) ltac:(lia)) as (Hr & Hs & Hq).
    assert (Hq1 : 0 <= Z.quot (c + d) 10 <= 1) by lia.
    destruct (IH _ Hq1) as (IHok & IHv & IHl).
    cbn [value length]. split; [constructor; auto|]. split; [lia|].
    destruct IHl as [-> | [-> Hp]]; [left; reflexivity | right].
    split; auto. rewrite Nat2Z.inj_succ, Z.pow_succ_r by lia. lia.
Qed.

Lemma add_digits_spec (xs ys : list Z) (c : Z) :
  digits_ok xs -> digits_ok ys -> 0 <= c <= 1 ->
  digits_ok (add_digits xs ys c)
  /\ value (add_digits xs ys c) = value xs + value ys + c
  /\ (length (add_digits xs ys c) = Nat.max (length xs) (length ys)
      \/ (length (add_digits xs ys c) = S (Nat.max (length xs) (length ys))
          /\ 10 ^ Z.of_nat (Nat.max (length xs) (length ys))
             <= value (add_digits xs ys c))).
Proof.
  intros Hx; revert ys c.
  induction Hx as [|x xs Hd Hx IH]; intros ys c Hy Hc.
  - cbn [add_digits length value Nat.max].
    destruct (add_rest_spec ys c Hy Hc) as (H1 & H2 & H3). repeat split; auto; lia.
  - destruct Hy as [|y ys Hdy Hy].
    + cbn [add_digits]. rewrite Nat.max_0_r. cbn [value].
      destruct (add_rest_spec (x :: xs) c ltac:(constructor; auto) Hc) as (H1 & H2 & H3).
      cbn [value] in H2. repeat split; auto; lia.
    + cbn [add_digits].
      destruct (quot_rem_digit (c + x + y) ltac:(lia)) as (Hr & Hs & Hq).
      assert (Hq1 : 0 <= Z.quot (c + x + y) 10 <= 1) by lia.
      destruct (IH ys _ Hy Hq1) as (IHok & IHv & IHl).
      cbn [value length]. rewrite <- Nat.succ_max_distr.
      split; [constructor; auto|]. split; [lia|].
      destruct IHl as [-> | [-> Hp]]; [left; reflexivity | right].
      split; auto. rewrite Nat2Z.inj_succ, Z.pow_succ_r by lia. lia.
Qed.

Lemma sub_digits_spec (xs ys : list Z) (b : Z) :
  digits_ok xs -> digits_ok ys -> 0 <= b <= 1 -> (length ys <= length xs)%nat ->
  digits_ok (sub_digits xs ys b)
  /\ length (sub_digits xs ys b) = length xs
  /\ exists fb, 0 <= fb <= 1
       /\ value (sub_digits xs ys b)
          = value xs - value ys - b + fb * 10 ^ Z.of_nat (length xs).
Proof.
  intros Hx; revert ys b.
  induction Hx as [|x xs Hd Hx IH]; intros ys b Hy Hb Hlen.
  - destruct ys; [|cbn in Hlen; lia]. cbn. repeat split; [constructor|].
    exists b. split; lia.
  - cbn [sub_digits].
    assert (Htl : digits_ok (tl ys)) by (destruct Hy; [constructor | assumption]).
    assert (Hltl : (length (tl ys) <= length xs)%nat)
      by (destruct ys; cbn [tl length] in *; lia).
    set (diff := match ys with y :: _ => x - b - y | [] => x - b end).
    assert (Hdiff : -10 <= diff <= 9 /\ value ys = x - b - diff + 10 * value (tl ys)).
    { subst diff. destruct Hy as [|y ys Hdy Hy]; cbn [value tl]; lia. }
    destruct Hdiff as [Hrange Hvy].
    destruct (Z.ltb_spec diff 0).
    + destruct (IH (tl ys) 1 Htl ltac:(lia) Hltl) as (IHok & IHl & fb & Hfb & IHv).
      cbn [value length]. split; [constructor; auto; lia|]. split; [lia|].
      exists fb. split; auto.
      rewrite IHv, Hvy, Nat2Z.inj_succ, Z.pow_succ_r by lia. ring.
    + destruct (IH (tl ys) 0 Htl ltac:(lia) Hltl) as (IHok & IHl & fb & Hfb & IHv).
      cbn [value length]. split; [constructor; auto; lia|]. split; [lia|].
      exists fb. split; auto.
      rewrite IHv, Hvy, Nat2Z.inj_succ, Z.pow_succ_r by lia. ring.
Qed.

Lemma op_neg_spec (x : BigInt) :
  wf x -> to_Z x <> 0 -> wf (op_neg x) /\ to_Z (op_neg x) = - to_Z x.
Proof.
  intros [Hne Hok Htop Hz] Hnz. unfold op_neg, to_Z in *.
  split.
  - constructor; cbn [digits negative]; auto.
    intros E. rewrite E in Hnz. destruct (negative x); lia.
  - cbn [digits negative]. destruct (negative x); cbn [negb]; lia.
Qed.

(** The digit loop of [operator+] on operands of one sign. *)
Lemma add_same_sign (x y : BigInt) :
  wf x -> wf y -> negative x = negative y ->
  let r := mkBigInt (add_digits (digits x) (digits y) 0) (negative x) in
  wf r /\ to_Z r = to_Z x + to_Z y.
Proof.
  intros Hx Hy Hs r.
  destruct (add_digits_spec (digits x) (digits y) 0 (wf_digits x Hx) (wf_digits y Hy)
              ltac:(lia)) as (Hok & Hv & Hl).
  pose proof (wf_length_pos x Hx) as Hlx. pose proof (wf_length_pos y Hy) as Hly.
  pose proof (wf_value_nonneg x Hx) as Hnx. pose proof (wf_value_nonneg y Hy) as Hny.
  split.
  - constructor; cbn [digits negative r].
    + intros E. rewrite E in Hl. cbn [length] in Hl. lia.
    + exact Hok.
    + destruct Hl as [Hl | [Hl Hp]].
      * rewrite Hl.
        destruct (Nat.max_spec (length (digits x)) (length (digits y))) as [[_ ->] | [_ ->]].
        -- destruct (wf_top y Hy) as [? | Hp]; [left; assumption | right; lia].
        -- destruct (wf_top x Hx) as [? | Hp]; [left; assumption | right; lia].
      * right. rewrite Hl.
        replace (Z.of_nat (S (Nat.max (length (digits x)) (length (digits y)))) - 1)
          with (Z.of_nat (Nat.max (length (digits x)) (length (digits y)))) by lia.
        exact Hp.
    + intros E. apply (wf_zero x Hx). lia.
  - unfold to_Z. cbn [digits negative r]. rewrite <- Hs, Hv.
    destruct (negative x); lia.
Qed.

(** The digit loop of [operator-] when the left operand is the larger. *)
Lemma sub_nonneg (x y : BigInt) :
  wf x -> wf y -> negative x = false -> negative y = false -> to_Z y <= to_Z x ->
  let r := normalize (mkBigInt (sub_digits (digits x) (digits y) 0) false) in
  wf r /\ to_Z r = to_Z x - to_Z y.
Proof.
  intros Hx Hy Hnx Hny Hle r. unfold to_Z in Hle |- *. rewrite Hnx, Hny in *.
  pose proof (wf_length_le y x Hy Hx Hle) as Hlen.
  destruct (sub_digits_spec (digits x) (digits y) 0 (wf_digits x Hx) (wf_digits y Hy)
              ltac:(lia) Hlen) as (Hok & Hl & fb & Hfb & Hv).
  pose proof (wf_length_pos x Hx) as Hlx.
  destruct (normalize_spec (mkBigInt (sub_digits (digits x) (digits y) 0) false))
    as [Hw Hz]; cbn [digits negative]; auto.
  { intros E. rewrite E in Hl. cbn in Hl. lia. }
  split; [exact Hw|].
  fold r in Hz. unfold to_Z in Hz. cbn [digits negative] in Hz.
  pose proof (value_bound _ Hok) as Hb. rewrite Hl in Hb.
  assert (fb = 0) by nia. subst fb.
  destruct (negative r); lia.
Qed.

Lemma plus_minus_rec_spec (n : nat) :
  (forall x y r, wf x -> wf y -> plus_rec n x y = Some r ->
                 wf r /\ to_Z r = to_Z x + to_Z y)
  /\ (forall x y r, wf x -> wf y -> minus_rec n x y = Some r ->
                    wf r /\ to_Z r = to_Z x - to_Z y).
Proof.
  induction n as [|n [IHp IHm]]; [split; intros; discriminate|].
  assert (Hneg : forall z, wf z -> negative z = true ->
                           wf (op_neg z) /\ to_Z (op_neg z) = - to_Z z
                           /\ negative (op_neg z) = false).
  { intros z Hz Hn. pose proof (wf_negative_pos z Hz Hn).
    destruct (op_neg_spec z Hz) as [? ?].
    - unfold to_Z. rewrite Hn. lia.
    - split; [assumption|]. split; [assumption|]. cbn. rewrite Hn. reflexivity. }
  split; intros x y r Hx Hy Hr; cbn [plus_rec minus_rec] in Hr.
  - destruct (negative x) eqn:Hnx, (negative y) eqn:Hny; cbn [Bool.eqb negb] in Hr.
    + inversion Hr; subst. rewrite <- Hnx.
      apply (add_same_sign x y); auto. congruence.
    + destruct (Hneg x Hx Hnx) as (Hw & Hz & _).
      destruct (IHm _ _ _ Hy Hw Hr) as [? ?]. split; auto. lia.
    + destruct (Hneg y Hy Hny) as (Hw & Hz & _).
      destruct (IHm _ _ _ Hx Hw Hr) as [? ?]. split; auto. lia.
    + inversion Hr; subst. rewrite <- Hnx.
      apply (add_same_sign x y); auto. congruence.
  - destruct (negative x) eqn:Hnx, (negative y) eqn:Hny; cbn [Bool.eqb negb] in Hr.
    + destruct (Hneg x Hx Hnx) as (Hwx & Hzx & _).
      destruct (Hneg y Hy Hny) as (Hwy & Hzy & _).
      destruct (IHm _ _ _ Hwy Hwx Hr) as [? ?]. split; auto. lia.
    + destruct (Hneg x Hx Hnx) as (Hwx & Hzx & _).
      destruct (plus_rec n (op_neg x) y) as [s|] eqn:Hs; [|discriminate].
      inversion Hr; subst.
      destruct (IHp _ _ _ Hwx Hy Hs) as [Hws Hzs].
      pose proof (wf_negative_pos x Hx Hnx).
      assert (0 <= to_Z y) by (unfold to_Z; rewrite Hny; apply wf_value_nonneg; auto).
      assert (to_Z x < 0) by (unfold to_Z; rewrite Hnx; lia).
      destruct (op_neg_spec s Hws ltac:(lia)) as [? ?]. split; auto. lia.
    + destruct (Hneg y Hy Hny) as (Hwy & Hzy & _).
      destruct (IHp _ _ _ Hx Hwy Hr) as [? ?]. split; auto. lia.
    + rewrite op_lt_value in Hr by auto.
      destruct (Z.ltb_spec (to_Z x) (to_Z y)) as [Hlt | Hge].
      * destruct (minus_rec n y x) as [s|] eqn:Hs; [|discriminate].
        inversion Hr; subst.
        destruct (IHm _ _ _ Hy Hx Hs) as [Hws Hzs].
        destruct (op_neg_spec s Hws ltac:(lia)) as [? ?]. split; auto. lia.
      * inversion Hr; subst. apply sub_nonneg; auto.
Qed.

Lemma compare_from_antisym (i : nat) (xs ys : list Z) :
  compare_from i ys xs = - compare_from i xs ys.
Proof.
  induction i as [|i IH]; cbn [compare_from]; auto.
  rewrite IH.
  destruct (Z.eqb_spec (nth i ys 0) (nth i xs 0)), (Z.eqb_spec (nth i xs 0) (nth i ys 0));
    try lia.
  destruct (Z.ltb_spec (nth i ys 0) (nth i xs 0)), (Z.ltb_spec (nth i xs 0) (nth i ys 0));
    lia.
Qed.

Lemma compareMagnitude_antisym (x y : BigInt) :
  compareMagnitude y x = - compareMagnitude x y.
Proof.
  unfold compareMagnitude.
  destruct (Nat.eqb_spec (length (digits y)) (length (digits x))) as [E | E],
    (Nat.eqb_spec (length (digits x)) (length (digits y))) as [E' | E'];
    try lia; cbn [negb].
  - rewrite E. apply compare_from_antisym.
  - destruct (Nat.ltb_spec (length (digits y)) (length (digits x))),
      (Nat.ltb_spec (length (digits x)) (length (digits y))); lia.
Qed.

Lemma op_lt_asym (x y : BigInt) : op_lt x y = true -> op_lt y x = false.
Proof.
  unfold op_lt. rewrite (compareMagnitude_antisym x y).
  destruct (negative x), (negative y); cbn [Bool.eqb negb]; try congruence;
    rewrite ?Z.gtb_ltb; intros H; apply Z.ltb_lt in H; apply Z.ltb_ge; lia.
Qed.

Lemma plus_rec_S (n : nat) (x y : BigInt) :
  plus_rec (S n) x y =
  if negb (Bool.eqb (negative x) (negative y)) then
    if negative x then minus_rec n y (op_neg x) else minus_rec n x (op_neg y)
  else Some (mkBigInt (add_digits (digits x) (digits y) 0) (negative x)).
Proof. reflexivity. Qed.

Lemma minus_rec_S (n : nat) (x y : BigInt) :
  minus_rec (S n) x y =
  if negb (Bool.eqb (negative x) (negative y)) then
    if negative x then option_map op_neg (plus_rec n (op_neg x) y)
    else plus_rec n x (op_neg y)
  else if negative x then minus_rec n (op_neg y) (op_neg x)
  else if op_lt x y then option_map op_neg (minus_rec n y x)
  else Some (normalize (mkBigInt (sub_digits (digits x) (digits y) 0) false)).
Proof. reflexivity. Qed.

(** The mutual calls of [operator+] and [operator-] nest at most 3 deep. *)
Lemma plus_minus_total (x y : BigInt) :
  plus_rec 3 x y <> None /\ minus_rec 3 x y <> None.
Proof.
  assert (Hbase : forall a b, negative a = false -> negative b = false ->
                              minus_rec 2 a b <> None).
  { intros a b Ha Hb. rewrite minus_rec_S, Ha, Hb. cbn [Bool.eqb negb].
    destruct (op_lt a b) eqn:Hlt; [|discriminate].
    rewrite minus_rec_S, Ha, Hb. cbn [Bool.eqb negb].
    rewrite (op_lt_asym a b Hlt). discriminate. }
  assert (Hsame : forall a b, negative a = negative b -> plus_rec 2 a b <> None).
  { intros a b E. rewrite plus_rec_S, E, eqb_reflx. discriminate. }
  split.
  - rewrite plus_rec_S.
    destruct (negative x) eqn:Hnx, (negative y) eqn:Hny; cbn [Bool.eqb negb];
      try discriminate; apply Hbase; auto; cbn; rewrite ?Hnx, ?Hny; reflexivity.
  - rewrite minus_rec_S.
    destruct (negative x) eqn:Hnx, (negative y) eqn:Hny; cbn [Bool.eqb negb].
    + apply Hbase; cbn; rewrite ?Hnx, ?Hny; reflexivity.
    + destruct (plus_rec 2 (op_neg x) y) eqn:E; [discriminate|].
      exfalso. revert E. apply Hsame. cbn. rewrite Hnx, Hny. reflexivity.
    + apply Hsame. cbn. rewrite Hnx, Hny. reflexivity.
    + destruct (op_lt x y) eqn:Hlt; [|discriminate].
      destruct (minus_rec 2 y x) eqn:E; [discriminate|].
      exfalso. revert E. apply Hbase; auto.
Qed.

Lemma op_plus_spec (x y : BigInt) :
  wf x -> wf y -> wf (op_plus x y) /\ to_Z (op_plus x y) = to_Z x + to_Z y.
Proof.
  intros Hx Hy. unfold op_plus.
  destruct (plus_rec 3 x y) as [r|] eqn:Hr.
  - apply (proj1 (plus_minus_rec_spec 3) x y r); auto.
  - destruct (plus_minus_total x y) as [H _]. contradiction.
Qed.

Lemma op_minus_spec (x y : BigInt) :
  wf x -> wf y -> wf (op_minus x y) /\ to_Z (op_minus x y) = to_Z x - to_Z y.
Proof.
  intros Hx Hy. unfold op_minus.
  destruct (minus_rec 3 x y) as [r|] eqn:Hr.
  - apply (proj2 (plus_minus_rec_spec 3) x y r); auto.
  - destruct (plus_minus_total x y) as [_ H]. contradiction.
Qed.

End AddSub.

(** * Multiplication *)

Section Mul.

Lemma set_nth_length (k : nat) (v : Z) (l : list Z) :
  length (set_nth k v l) = length l.
Proof.
  revert k; induction l as [|d l IH]; intros [|k]; cbn [set_nth length]; auto.
Qed.

Lemma set_nth_ok (k : nat) (v : Z) (l : list Z) :
  digits_ok l -> 0 <= v <= 9 -> digits_ok (set_nth k v l).
Proof.
  intros Hl Hv; revert k.
  induction Hl as [|d l Hd Hl IH]; intros [|k]; cbn [set_nth];
    try constructor; auto; apply IH.
Qed.

Lemma set_nth_value (k : nat) (v : Z) (l : list Z) :
  (k < length l)%nat ->
  value (set_nth k v l) = value l + (v - nth k l 0) * 10 ^ Z.of_nat k.
Proof.
  revert k; induction l as [|d l IH]; intros k Hk; [cbn in Hk; lia|].
  destruct k as [|k]; cbn [set_nth value nth].
  - rewrite Z.pow_0_r. ring.
  - cbn [length] in Hk. rewrite IH by lia.
    rewrite Nat2Z.inj_succ, Z.pow_succ_r by lia. ring.
Qed.

Lemma nth_digit_range (k : nat) (l : list Z) : digits_ok l -> 0 <= nth k l 0 <= 9.
Proof.
  intros Hl; revert k. induction Hl as [|d l Hd Hl IH]; intros [|k]; cbn [nth]; auto; lia.
Qed.

Lemma nth_le_value (k : nat) (l : list Z) :
  digits_ok l -> nth k l 0 * 10 ^ Z.of_nat k <= value l.
Proof.
  intros Hl; revert k. induction Hl as [|d l Hd Hl IH]; intros [|k]; cbn [nth value].
  - lia.
  - lia.
  - pose proof (value_bound l Hl). rewrite Z.pow_0_r. lia.
  - specialize (IH k). rewrite Nat2Z.inj_succ, Z.pow_succ_r by lia.
    pose proof (value_bound l Hl). lia.
Qed.

Lemma value_skipn (j : nat) (l : list Z) :
  (j < length l)%nat -> value (skipn j l) = nth j l 0 + 10 * value (skipn (S j) l).
Proof.
  revert j; induction l as [|d l IH]; intros j Hj; [cbn in Hj; lia|].
  destruct j as [|j]; [reflexivity|].
  cbn [length] in Hj. change (skipn (S j) (d :: l)) with (skipn j l).
  change (skipn (S (S j)) (d :: l)) with (skipn (S j) l). cbn [nth].
  apply IH. lia.
Qed.

Lemma value_skipn_all (j : nat) (l : list Z) :
  (length l <= j)%nat -> value (skipn j l) = 0.
Proof. intros H. rewrite skipn_all2 by lia. reflexivity. Qed.

Lemma mul_row_done (fuel : nat) (xi : Z) (ys : list Z) (i j : nat) (carry : Z)
    (res : list Z) :
  (j <? length ys)%nat || negb (carry =? 0) = false ->
  mul_row fuel xi ys i j carry res = Ok res.
Proof. intros H. destruct fuel; cbn [mul_row]; rewrite H; reflexivity. Qed.

Lemma mul_row_step (fuel : nat) (xi : Z) (ys : list Z) (i j : nat) (carry : Z)
    (res : list Z) (cell : Z) :
  (j <? length ys)%nat || negb (carry =? 0) = true ->
  nth_error res (i + j) = Some cell ->
  mul_row (S fuel) xi ys i j carry res =
  let product :=
    if (j <? length ys)%nat then cell + carry + xi * nth j ys 0 else cell + carry in
  mul_row fuel xi ys i (S j) (Z.quot product 10) (set_nth (i + j) (Z.rem product 10) res).
Proof. intros H E. cbn [mul_row]. rewrite H, E. reflexivity. Qed.

(** One row of the schoolbook product adds [xi * 10^i * ys] to the buffer
    and stays inside it. *)
Lemma mul_row_spec (fuel : nat) (xi : Z) (ys : list Z) (i : nat) :
  forall (j : nat) (carry : Z) (res : list Z),
    digits_ok ys -> 0 <= xi <= 9 -> digits_ok res -> 0 <= carry <= 9 ->
    (j <= length ys)%nat -> (i + length ys < length res)%nat ->
    (length ys - j < fuel)%nat ->
    value res + carry * 10 ^ Z.of_nat (i + j)
      + xi * 10 ^ Z.of_nat (i + j) * value (skipn j ys)
      < 10 ^ Z.of_nat (i + length ys + 1) ->
    exists res',
      mul_row fuel xi ys i j carry res = Ok res'
      /\ digits_ok res' /\ length res' = length res
      /\ value res' = value res + carry * 10 ^ Z.of_nat (i + j)
                      + xi * 10 ^ Z.of_nat (i + j) * value (skipn j ys).
Proof.
  induction fuel as [|fuel IH]; intros j carry res Hys Hxi Hres Hc Hj Hin Hfuel Hbound;
    [lia|].
  destruct ((j <? length ys)%nat || negb (carry =? 0)) eqn:Hcond.
  2:{ apply orb_false_iff in Hcond as [Hjm Hc0].
      apply Nat.ltb_ge in Hjm. apply negb_false_iff, Z.eqb_eq in Hc0. subst carry.
      rewrite mul_row_done by (apply orb_false_iff; split;
        [apply Nat.ltb_ge; lia | reflexivity]).
      exists res. rewrite value_skipn_all by lia. repeat split; auto; lia. }
  destruct (nth_error res (i + j)) as [cell|] eqn:Hcell.
  2:{ apply nth_error_None in Hcell. lia. }
  pose proof (nth_error_nth res (i + j) 0 Hcell) as Hnth.
  assert (Hij : (i + j < length res)%nat) by lia.
  pose proof (nth_digit_range (i + j) res Hres) as Hcr. rewrite Hnth in Hcr.
  pose proof (pow10_pos (Z.of_nat (i + j)) ltac:(lia)) as Hp.
  rewrite (mul_row_step fuel xi ys i j carry res cell Hcond Hcell). cbv zeta.
  destruct (Nat.ltb_spec j (length ys)) as [Hlt | Hge].
  - pose proof (nth_digit_range j ys Hys) as Hyr.
    set (product := cell + carry + xi * nth j ys 0) in *.
    assert (Hprod : 0 <= product <= 99) by (subst product; nia).
    destruct (quot_rem_digit product ltac:(lia)) as (Hr & Hs & Hq).
    assert (Hq9 : 0 <= Z.quot product 10 <= 9) by lia.
    assert (Hpow : 10 ^ Z.of_nat (i + S j) = 10 * 10 ^ Z.of_nat (i + j)).
    { replace (Z.of_nat (i + S j)) with (Z.succ (Z.of_nat (i + j))) by lia.
      apply Z.pow_succ_r. lia. }
    assert (Hval : value (set_nth (i + j) (Z.rem product 10) res)
                   + Z.quot product 10 * 10 ^ Z.of_nat (i + S j)
                   + xi * 10 ^ Z.of_nat (i + S j) * value (skipn (S j) ys)
                   = value res + carry * 10 ^ Z.of_nat (i + j)
                     + xi * 10 ^ Z.of_nat (i + j) * value (skipn j ys)).
    { rewrite set_nth_value by lia. rewrite Hnth, Hpow, (value_skipn j ys Hlt).
      replace (Z.rem product 10) with (product - 10 * Z.quot product 10) by lia.
      subst product. ring. }
    destruct (IH (S j) (Z.quot product 10) (set_nth (i + j) (Z.rem product 10) res))
      as (res' & Hrun & Hok' & Hlen' & Hv'); auto.
    + apply set_nth_ok; auto.
    + rewrite set_nth_length. lia.
    + lia.
    + rewrite Hval. exact Hbound.
    + exists res'. rewrite set_nth_length in Hlen'. rewrite Hv', Hval. auto.
  - assert (Hjm : j = length ys) by lia. subst j.
    rewrite value_skipn_all in * by lia.
    pose proof (nth_le_value (i + length ys) res Hres) as Hle. rewrite Hnth in Hle.
    assert (Hp1 : 10 ^ Z.of_nat (i + length ys + 1) = 10 * 10 ^ Z.of_nat (i + length ys)).
    { replace (Z.of_nat (i + length ys + 1)) with (Z.succ (Z.of_nat (i + length ys)))
        by lia. apply Z.pow_succ_r. lia. }
    assert (Hsmall : 0 <= cell + carry <= 9) by nia.
    rewrite Z.rem_small, Z.quot_small by lia.
    rewrite mul_row_done
      by (apply orb_false_iff; split; [apply Nat.ltb_ge; lia | reflexivity]).
    eexists. split; [reflexivity|].
    split; [apply set_nth_ok; auto|]. split; [apply set_nth_length|].
    rewrite set_nth_value by lia. rewrite Hnth. ring.
Qed.

Lemma mul_rows_spec (xs ys : list Z) :
  forall (i : nat) (res : list Z),
    digits_ok xs -> digits_ok ys -> digits_ok res ->
    length res = (i + length xs + length ys)%nat ->
    value res < 10 ^ Z.of_nat (i + length ys) ->
    exists res',
      mul_rows xs ys i res = Ok res'
      /\ digits_ok res' /\ length res' = length res
      /\ value res' = value res + 10 ^ Z.of_nat i * value xs * value ys.
Proof.
  induction xs as [|xi xs IH]; intros i res Hxs Hys Hres Hlen Hbound.
  - exists res. cbn [mul_rows value]. repeat split; auto. ring.
  - inversion Hxs as [|? ? Hxi Hxs']; subst. cbn [mul_rows length] in *.
    pose proof (value_bound ys Hys) as Hby.
    pose proof (value_bound res Hres) as Hbr.
    pose proof (pow10_pos (Z.of_nat i) ltac:(lia)) as Hpi.
    assert (Hsplit : 10 ^ Z.of_nat (i + length ys)
                     = 10 ^ Z.of_nat i * 10 ^ Z.of_nat (length ys)).
    { rewrite Nat2Z.inj_add. apply Z.pow_add_r; lia. }
    assert (Hsucc : 10 ^ Z.of_nat (i + length ys + 1) = 10 * 10 ^ Z.of_nat (i + length ys)).
    { replace (Z.of_nat (i + length ys + 1)) with (Z.succ (Z.of_nat (i + length ys)))
        by lia. apply Z.pow_succ_r. lia. }
    assert (Hkey : value res + xi * 10 ^ Z.of_nat i * value ys
                   < 10 * 10 ^ Z.of_nat (i + length ys)).
    { rewrite Hsplit in *.
      assert (H1 : 10 ^ Z.of_nat i * value ys
                   <= 10 ^ Z.of_nat i * 10 ^ Z.of_nat (length ys)) by nia.
      assert (H2 : xi * (10 ^ Z.of_nat i * value ys)
                   <= 9 * (10 ^ Z.of_nat i * 10 ^ Z.of_nat (length ys))) by nia.
      lia. }
    destruct (mul_row_spec (S (length res)) xi ys i 0 0 res)
      as (res1 & Hrun & Hok1 & Hlen1 & Hv1); auto; try lia.
    { rewrite Nat.add_0_r. cbn [skipn]. lia. }
    rewrite Hrun. cbn [bind].
    rewrite Nat.add_0_r in Hv1. cbn [skipn] in Hv1.
    assert (Hs' : 10 ^ Z.of_nat (S i + length ys) = 10 * 10 ^ Z.of_nat (i + length ys)).
    { replace (Z.of_nat (S i + length ys)) with (Z.succ (Z.of_nat (i + length ys)))
        by lia. apply Z.pow_succ_r. lia. }
    destruct (IH (S i) res1) as (res' & Hrun' & Hok' & Hlen' & Hv'); auto; try lia.
    exists res'. split; [exact Hrun'|]. split; [exact Hok'|]. split; [lia|].
    rewrite Hv', Hv1. cbn [value].
    rewrite Nat2Z.inj_succ, Z.pow_succ_r by lia. ring.
Qed.

Lemma value_repeat_zero (n : nat) : value (repeat 0 n) = 0.
Proof. induction n; cbn [repeat value]; lia. Qed.

Lemma digits_ok_repeat_zero (n : nat) : digits_ok (repeat 0 n).
Proof. induction n; cbn [repeat]; constructor; auto; lia. Qed.

Lemma schoolbookMultiply_spec (x y : BigInt) :
  wf x -> wf y ->
  exists r, schoolbookMultiply x y = Ok r
            /\ wf r /\ to_Z r = value (digits x) * value (digits y).
Proof.
  intros Hx Hy. unfold schoolbookMultiply.
  pose proof (wf_length_pos x Hx) as Hlx.
  destruct (mul_rows_spec (digits x) (digits y) 0
              (repeat 0 (length (digits x) + length (digits y))))
    as (res & Hrun & Hok & Hlen & Hv);
    try apply wf_digits; auto.
  - apply digits_ok_repeat_zero.
  - rewrite repeat_length. lia.
  - rewrite value_repeat_zero. apply pow10_pos. lia.
  - rewrite Hrun. cbn [bind]. eexists. split; [reflexivity|].
    rewrite repeat_length in Hlen.
    destruct (normalize_spec (mkBigInt res false)) as [Hw Hz]; cbn [digits]; auto.
    { intros E. rewrite E in Hlen. cbn in Hlen. lia. }
    split; [exact Hw|]. rewrite Hz. unfold to_Z. cbn [digits negative].
    rewrite Hv, value_repeat_zero, Z.pow_0_r. ring.
Qed.

Lemma wf_ZERO : wf ZERO.
Proof. apply canonical_wf. reflexivity. Qed.

Lemma wf_ONE : wf ONE.
Proof. apply canonical_wf. reflexivity. Qed.

Lemma wf_TWO : wf TWO.
Proof. apply canonical_wf. reflexivity. Qed.

Lemma op_mul_spec (x y : BigInt) :
  wf x -> wf y ->
  exists r, op_mul x y = Ok r /\ wf r /\ to_Z r = to_Z x * to_Z y.
Proof.
  intros Hx Hy. unfold op_mul.
  rewrite (isZero_value x Hx), (isZero_value y Hy).
  destruct (Z.eqb_spec (to_Z x) 0) as [Ex | Ex]; cbn [orb].
  { exists ZERO. split; [reflexivity|]. split; [apply wf_ZERO|]. rewrite Ex. reflexivity. }
  destruct (Z.eqb_spec (to_Z y) 0) as [Ey | Ey].
  { exists ZERO. split; [reflexivity|]. split; [apply wf_ZERO|]. rewrite Ey. cbn. lia. }
  destruct (schoolbookMultiply_spec x y Hx Hy) as (r & Hrun & Hw & Hz).
  rewrite Hrun. cbn [bind]. eexists. split; [reflexivity|].
  destruct (normalize_spec (mkBigInt (digits r) (xorb (negative x) (negative y))))
    as [Hw' Hz']; cbn [digits]; try apply Hw.
  split; [exact Hw'|]. rewrite Hz'.
  pose proof (wf_value_nonneg r Hw) as Hnn.
  assert (Hvr : value (digits r) = value (digits x) * value (digits y)).
  { rewrite <- Hz. unfold to_Z. destruct (negative r) eqn:Hn; auto.
    pose proof (wf_negative_pos r Hw Hn) as Hpos.
    pose proof (wf_value_nonneg x Hx). pose proof (wf_value_nonneg y Hy).
    unfold to_Z in Hz. rewrite Hn in Hz. nia. }
  unfold to_Z. cbn [digits negative]. rewrite Hvr.
  destruct (negative x), (negative y); cbn [xorb]; ring.
Qed.

End Mul.

(** * Division *)

Section Div.

Lemma wf_nonneg_sign (x : BigInt) : wf x -> 0 <= to_Z x -> negative x = false.
Proof.
  intros Hx Hnn. destruct (negative x) eqn:Hn; auto.
  pose proof (wf_negative_pos x Hx Hn). unfold to_Z in Hnn. rewrite Hn in Hnn. lia.
Qed.

Lemma to_Z_nonneg (x : BigInt) : negative x = false -> to_Z x = value (digits x).
Proof. intros H. unfold to_Z. rewrite H. reflexivity. Qed.

Lemma abs_spec (x : BigInt) :
  wf x -> wf (abs x) /\ to_Z (abs x) = Z.abs (to_Z x) /\ negative (abs x) = false.
Proof.
  intros Hx. unfold abs, isNegative. rewrite (isZero_value x Hx).
  pose proof (wf_value_nonneg x Hx) as Hnn.
  destruct (negative x) eqn:Hn; cbn [andb].
  - pose proof (wf_negative_pos x Hx Hn) as Hpos.
    assert (Hz : to_Z x = - value (digits x)) by (unfold to_Z; rewrite Hn; reflexivity).
    destruct (Z.eqb_spec (to_Z x) 0) as [E | E]; [lia|]. cbn [negb].
    destruct (op_neg_spec x Hx E) as [Hw Hv].
    split_and; auto; [lia | cbn; rewrite Hn; reflexivity].
  - rewrite (to_Z_nonneg x Hn). split_and; auto. lia.
Qed.

Lemma div_digit_spec (fuel : nat) (dv : BigInt) :
  wf dv -> 0 < to_Z dv ->
  forall (r : BigInt) (digit : Z),
    wf r -> 0 <= to_Z r < (Z.of_nat fuel + 1) * to_Z dv ->
    exists r' k,
      div_digit fuel r dv digit = Ok (r', digit + k)
      /\ wf r' /\ 0 <= k <= Z.of_nat fuel
      /\ to_Z r = k * to_Z dv + to_Z r' /\ 0 <= to_Z r' < to_Z dv.
Proof.
  intros Hdv Hpos.
  induction fuel as [|fuel IH]; intros r digit Hr Hb.
  - cbn [div_digit]. rewrite op_ge_value by auto.
    destruct (Z.leb_spec (to_Z dv) (to_Z r)); [lia|].
    exists r, 0. rewrite Z.add_0_r. split_and; auto; lia.
  - cbn [div_digit]. rewrite op_ge_value by auto.
    destruct (Z.leb_spec (to_Z dv) (to_Z r)) as [Hge | Hlt].
    + destruct (op_minus_spec r dv Hr Hdv) as [Hw Hv].
      destruct (IH (op_minus r dv) (digit + 1) Hw ltac:(lia))
        as (r' & k & Hrun & Hw' & Hk & Heq & Hrange).
      exists r', (k + 1). rewrite Hrun. split; [f_equal; f_equal; lia|].
      split_and; auto; lia.
    + exists r, 0. rewrite Z.add_0_r. split_and; auto; lia.
Qed.

Lemma value_firstn_S (i : nat) (l : list Z) :
  (i < length l)%nat ->
  value (firstn (S i) l) = value (firstn i l) + nth i l 0 * 10 ^ Z.of_nat i.
Proof.
  revert i; induction l as [|d l IH]; intros i Hi; [cbn in Hi; lia|].
  destruct i as [|i].
  - cbn. lia.
  - cbn [length] in Hi. change (firstn (S (S i)) (d :: l)) with (d :: firstn (S i) l).
    change (firstn (S i) (d :: l)) with (d :: firstn i l).
    cbn [value nth]. rewrite IH by lia.
    rewrite Nat2Z.inj_succ, Z.pow_succ_r by lia. ring.
Qed.

(** Long division: each column extends the running remainder by one digit
    and produces one quotient digit. *)
Lemma div_loop_spec (fuel : nat) (current : list Z) (dv : BigInt) :
  (9 <= fuel)%nat -> wf dv -> 0 < to_Z dv -> digits_ok current ->
  forall (i : nat) (q r : BigInt),
    (i <= length current)%nat ->
    digits_ok (digits q) -> wf r -> 0 <= to_Z r < to_Z dv ->
    exists q' r',
      div_loop fuel current dv i q r = Ok (q', r')
      /\ digits_ok (digits q') /\ (length (digits q) <= length (digits q'))%nat
      /\ wf r' /\ 0 <= to_Z r' < to_Z dv
      /\ value (digits q') * to_Z dv + to_Z r'
         = (value (digits q) * to_Z dv + to_Z r) * 10 ^ Z.of_nat i
           + value (firstn i current).
Proof.
  intros Hfuel Hdv Hpos Hcur.
  induction i as [|i IH]; intros q r Hi Hq Hr Hrange.
  - exists q, r. cbn [div_loop firstn value]. rewrite Z.pow_0_r.
    split_and; auto; lia.
  - cbn [div_loop].
    pose proof (nth_digit_range i current Hcur) as Hd.
    pose proof (wf_nonneg_sign r Hr ltac:(lia)) as Hsign.
    set (r1 := normalize (mkBigInt (nth i current 0 :: digits r) (negative r))).
    destruct (normalize_spec (mkBigInt (nth i current 0 :: digits r) (negative r)))
      as [Hw1 Hz1]; cbn [digits].
    { discriminate. }
    { constructor; auto. apply wf_digits, Hr. }
    fold r1 in Hw1, Hz1.
    assert (Hv1 : to_Z r1 = nth i current 0 + 10 * to_Z r).
    { rewrite Hz1. unfold to_Z. cbn [digits negative value]. rewrite Hsign. reflexivity. }
    assert (Hb1 : 0 <= to_Z r1 < (Z.of_nat fuel + 1) * to_Z dv) by nia.
    destruct (div_digit_spec fuel dv Hdv Hpos r1 0 Hw1 Hb1)
      as (r2 & k & Hrun & Hw2 & Hk & Heq & Hrange2).
    rewrite Hrun. cbn [bind]. cbn [Z.add] in *.
    assert (Hk9 : 0 <= k <= 9) by nia.
    destruct (IH (mkBigInt (k :: digits q) (negative q)) r2)
      as (q' & r' & Hrun' & Hq' & Hlen' & Hw' & Hrange' & Hval'); auto; try lia.
    { cbn [digits]. constructor; auto. }
    exists q', r'. split; [exact Hrun'|]. split; [exact Hq'|].
    cbn [digits length] in Hlen'. split; [lia|]. split; [exact Hw'|].
    split; [exact Hrange'|].
    rewrite Hval'. cbn [digits value]. rewrite value_firstn_S by lia.
    rewrite Nat2Z.inj_succ, Z.pow_succ_r by lia.
    replace ((k + 10 * value (digits q)) * to_Z dv + to_Z r2)
      with (10 * (value (digits q) * to_Z dv + to_Z r) + nth i current 0) by lia.
    ring.
Qed.

Lemma divideWithRemainder_spec (fuel : nat) (x y : BigInt) :
  (9 <= fuel)%nat -> wf x -> wf y -> to_Z y <> 0 ->
  exists q r,
    divideWithRemainder fuel x y = Ok (q, r)
    /\ wf q /\ wf r /\ 0 <= to_Z q /\ 0 <= to_Z r < Z.abs (to_Z y)
    /\ Z.abs (to_Z x) = to_Z q * Z.abs (to_Z y) + to_Z r.
Proof.
  intros Hfuel Hx Hy Hnz. unfold divideWithRemainder.
  rewrite (isZero_value x Hx).
  destruct (Z.eqb_spec (to_Z x) 0) as [Ex | Ex].
  { exists ZERO, ZERO. split; [reflexivity|].
    split; [apply wf_ZERO|]. split; [apply wf_ZERO|].
    rewrite Ex. change (to_Z ZERO) with 0. lia. }
  destruct (abs_spec x Hx) as (Hwx & Hvx & Hsx).
  destruct (abs_spec y Hy) as (Hwy & Hvy & Hsy).
  destruct (div_loop_spec fuel (digits (abs x)) (abs y) Hfuel Hwy ltac:(lia)
              (wf_digits _ Hwx) (length (digits (abs x))) BigInt_default BigInt_default)
    as (q & r & Hrun & Hq & Hlen & Hwr & Hrange & Hval); auto.
  { repeat constructor; lia. }
  { apply canonical_wf. reflexivity. }
  { change (to_Z BigInt_default) with 0. lia. }
  rewrite Hrun. cbn [bind].
  exists (normalize q), r. split; [reflexivity|].
  destruct (normalize_spec q) as [Hwq Hzq]; auto.
  { cbn [BigInt_default digits length] in Hlen. destruct (digits q); [cbn in Hlen; lia|].
    discriminate. }
  rewrite firstn_all in Hval. cbn [BigInt_default digits value] in Hval.
  change (to_Z BigInt_default) with 0 in Hval.
  rewrite (to_Z_nonneg _ Hsx) in Hvx.
  pose proof (value_bound _ Hq) as Hqb.
  assert (Hqq : to_Z (normalize q) = value (digits q)).
  { rewrite Hzq. unfold to_Z. destruct (negative q) eqn:Hnq; auto.
    (* the quotient is built from the default value, whose flag is false *)
    exfalso. revert Hnq. clear - Hrun.
    assert (Hgen : forall i q0 r0 q1 r1,
               div_loop fuel (digits (abs x)) (abs y) i q0 r0 = Ok (q1, r1) ->
               negative q1 = negative q0).
    { induction i as [|i IH]; intros q0 r0 q1 r1 H; cbn [div_loop] in H.
      - inversion H; reflexivity.
      - destruct (div_digit fuel _ (abs y) 0) as [[r2 k]| | |]; cbn [bind] in H;
          try discriminate.
        apply IH in H. exact H. }
    rewrite (Hgen _ _ _ _ _ Hrun). discriminate. }
  rewrite Hqq. rewrite Hvy in *. split; [exact Hwq|]. split; [exact Hwr|].
  split; [lia|]. split; [lia|]. lia.
Qed.

Lemma op_div_spec (fuel : nat) (x y : BigInt) :
  (9 <= fuel)%nat -> wf x -> wf y -> to_Z y <> 0 ->
  exists q, op_div fuel x y = Ok q /\ wf q /\ to_Z q = Z.quot (to_Z x) (to_Z y).
Proof.
  intros Hfuel Hx Hy Hnz. unfold op_div.
  rewrite (isZero_value y Hy). destruct (Z.eqb_spec (to_Z y) 0) as [|_]; [contradiction|].
  destruct (divideWithRemainder_spec fuel x y Hfuel Hx Hy Hnz)
    as (q & r & Hrun & Hwq & Hwr & Hq & Hr & Heq).
  rewrite Hrun. cbn [bind]. eexists. split; [reflexivity|].
  destruct (normalize_spec (mkBigInt (digits q) (xorb (negative x) (negative y))))
    as [Hw Hz]; cbn [digits]; try apply Hwq.
  split; [exact Hw|]. rewrite Hz.
  pose proof (wf_nonneg_sign q Hwq Hq) as Hsq.
  rewrite (to_Z_nonneg q Hsq) in *.
  assert (Hquot : value (digits q) = Z.abs (to_Z x) / Z.abs (to_Z y)).
  { apply (Z.div_unique _ _ _ (to_Z r)); lia. }
  rewrite <- Z.quot_div_nonneg in Hquot by lia.
  rewrite Z.quot_abs in Hquot by lia.
  pose proof (wf_value_nonneg x Hx) as Hxn. pose proof (wf_value_nonneg y Hy) as Hyn.
  assert (Hyp : 0 < value (digits y)).
  { unfold to_Z in Hnz. destruct (negative y); lia. }
  assert (Hs : 0 <= Z.quot (value (digits x)) (value (digits y)))
    by (apply Z.quot_pos; lia).
  unfold to_Z in Hquot |- *. cbn [digits negative].
  destruct (negative x), (negative y); cbn [xorb]; cbv iota in Hquot |- *.
  - rewrite Z.quot_opp_opp in * by lia. lia.
  - rewrite Z.quot_opp_l in * by lia. lia.
  - rewrite Z.quot_opp_r in * by lia. lia.
  - lia.
Qed.

Lemma op_mod_spec (fuel : nat) (x y : BigInt) :
  (9 <= fuel)%nat -> wf x -> wf y -> to_Z y <> 0 ->
  exists r, op_mod fuel x y = Ok r /\ wf r /\ to_Z r = Z.rem (to_Z x) (to_Z y).
Proof.
  intros Hfuel Hx Hy Hnz. unfold op_mod.
  rewrite (isZero_value y Hy). destruct (Z.eqb_spec (to_Z y) 0) as [|_]; [contradiction|].
  destruct (divideWithRemainder_spec fuel x y Hfuel Hx Hy Hnz)
    as (q & r & Hrun & Hwq & Hwr & Hq & Hr & Heq).
  rewrite Hrun. cbn [bind]. eexists. split; [reflexivity|].
  destruct (normalize_spec (mkBigInt (digits r) (negative x)))
    as [Hw Hz]; cbn [digits]; try apply Hwr.
  split; [exact Hw|]. rewrite Hz.
  pose proof (wf_nonneg_sign r Hwr ltac:(lia)) as Hsr.
  rewrite (to_Z_nonneg r Hsr) in *.
  assert (Hrem : value (digits r) = Z.abs (to_Z x) mod Z.abs (to_Z y)).
  { apply (Z.mod_unique _ _ (to_Z q)); lia. }
  rewrite <- Z.rem_mod_nonneg in Hrem by lia.
  rewrite Z.rem_abs in Hrem by lia.
  unfold to_Z at 1. cbn [digits negative].
  pose proof (wf_value_nonneg x Hx) as Hxn.
  assert (Hsgn : negative x = true -> Z.rem (to_Z x) (to_Z y) <= 0).
  { intros Hn. apply Z.rem_nonpos; [lia|]. unfold to_Z. rewrite Hn. lia. }
  assert (Hsgn' : negative x = false -> 0 <= Z.rem (to_Z x) (to_Z y)).
  { intros Hn. apply Z.rem_nonneg; [lia|]. unfold to_Z. rewrite Hn. lia. }
  destruct (negative x); [specialize (Hsgn eq_refl) | specialize (Hsgn' eq_refl)]; lia.
Qed.

End Div.

(** * Square root *)

Section Sqrt.

Lemma wf_of_ll_1 : wf (BigInt_of_ll 1).
Proof. apply canonical_wf. reflexivity. Qed.

Lemma half_bounds (a : Z) : 0 <= a -> 2 * Z.quot a 2 <= a < 2 * Z.quot a 2 + 2.
Proof.
  intros Ha. pose proof (Z.quot_rem' a 2).
  pose proof (Z.rem_bound_pos a 2 Ha ltac:(lia)). lia.
Qed.

(** The binary search keeps [res * res <= n < (right + 1) * (right + 1)]
    and [left - 1 <= res]; the width of the interval bounds the iterations. *)
Lemma sqrt_loop_spec (fuel : nat) (n : BigInt) :
  (9 <= fuel)%nat -> wf n ->
  forall (k : nat) (left right res : BigInt),
    wf left -> wf right -> wf res ->
    1 <= to_Z left -> 0 <= to_Z right -> 0 <= to_Z res ->
    to_Z left - 1 <= to_Z res ->
    to_Z res * to_Z res <= to_Z n ->
    to_Z n < (to_Z right + 1) * (to_Z right + 1) ->
    to_Z right - to_Z left + 1 <= Z.of_nat k ->
    exists r,
      sqrt_loop fuel k n left right res = Ok r
      /\ wf r /\ 0 <= to_Z r
      /\ to_Z r * to_Z r <= to_Z n < (to_Z r + 1) * (to_Z r + 1).
Proof.
  intros Hfuel Hn.
  induction k as [|k IH]; intros left right res Hl Hr Hres HL HR HS Hlow Hsq Hup Hk.
  - cbn [sqrt_loop]. rewrite op_le_value by auto.
    destruct (Z.leb_spec (to_Z left) (to_Z right)); [lia|].
    exists res. split_and; auto; nia.
  - cbn [sqrt_loop]. rewrite op_le_value by auto.
    destruct (Z.leb_spec (to_Z left) (to_Z right)) as [Hle | Hgt].
    2:{ exists res. split_and; auto; nia. }
    destruct (op_plus_spec left right Hl Hr) as [Hws Hvs].
    destruct (op_div_spec fuel (op_plus left right) TWO Hfuel Hws wf_TWO)
      as (mid & Hrun & Hwm & Hvm).
    { change (to_Z TWO) with 2. lia. }
    change (to_Z TWO) with 2 in Hvm. rewrite Hvs in Hvm.
    pose proof (half_bounds (to_Z left + to_Z right) ltac:(lia)) as Hhalf.
    rewrite <- Hvm in Hhalf.
    rewrite Hrun. cbn [bind].
    destruct (op_mul_spec mid mid Hwm Hwm) as (sq & Hmul & Hwsq & Hvsq).
    rewrite Hmul. cbn [bind]. rewrite op_le_value by auto. rewrite Hvsq.
    destruct (Z.leb_spec (to_Z mid * to_Z mid) (to_Z n)) as [Hfit | Hbig].
    + destruct (op_plus_spec mid ONE Hwm wf_ONE) as [Hw1 Hv1].
      change (to_Z ONE) with 1 in Hv1.
      apply IH; auto; lia.
    + destruct (op_minus_spec mid ONE Hwm wf_ONE) as [Hw1 Hv1].
      change (to_Z ONE) with 1 in Hv1.
      apply IH; auto; lia.
Qed.

Lemma sqrt_spec (fuel : nat) (n : BigInt) :
  (9 <= fuel)%nat -> wf n -> 0 <= to_Z n -> to_Z n <= Z.of_nat fuel ->
  exists r,
    sqrt fuel n = Ok r
    /\ wf r /\ 0 <= to_Z r
    /\ to_Z r * to_Z r <= to_Z n < (to_Z r + 1) * (to_Z r + 1).
Proof.
  intros Hfuel Hn Hnn Hk. unfold sqrt.
  rewrite op_lt_value by (auto using wf_ZERO). change (to_Z ZERO) with 0.
  destruct (Z.ltb_spec (to_Z n) 0); [lia|].
  rewrite op_le_value by (auto using wf_ONE). change (to_Z ONE) with 1.
  destruct (Z.leb_spec (to_Z n) 1) as [Hsmall | Hbig].
  - exists n. split_and; auto; nia.
  - apply sqrt_loop_spec; auto using wf_of_ll_1;
      change (to_Z (BigInt_of_ll 1)) with 1; lia.
Qed.

Lemma sqrt_negative (fuel : nat) (n : BigInt) :
  wf n -> to_Z n < 0 -> sqrt fuel n = Throw InvalidInput.
Proof.
  intros Hn Hneg. unfold sqrt.
  rewrite op_lt_value by (auto using wf_ZERO). change (to_Z ZERO) with 0.
  destruct (Z.ltb_spec (to_Z n) 0); [reflexivity | lia].
Qed.

End Sqrt.

(** * Prime factorisation *)

Section Factorization.

Lemma wf_of_ll_3 : wf (BigInt_of_ll 3).
Proof. apply canonical_wf. reflexivity. Qed.

Lemma factors_product_snoc (fs : list (BigInt * Z)) (p : BigInt) (k : Z) :
  factors_product (fs ++ [(p, k)]) = factors_product fs * to_Z p ^ k.
Proof.
  induction fs as [|[q j] fs IH]; cbn [app factors_product].
  - ring.
  - rewrite IH. ring.
Qed.

Lemma ascending_snoc (fs : list (BigInt * Z)) (p : BigInt) (k : Z) :
  ascending fs -> Forall (fun qk => to_Z (fst qk) < to_Z p) fs ->
  ascending (fs ++ [(p, k)]).
Proof.
  unfold ascending. induction 1 as [|q fs Hs IH Hq]; intros Hall; cbn [app].
  - repeat constructor.
  - inversion Hall as [|? ? Hqp Hall']; subst. constructor; auto.
    apply Forall_app. split; [exact Hq|]. constructor; [exact Hqp | constructor].
Qed.

Lemma factors_ok_mono (B B' : Z) (fs : list (BigInt * Z)) :
  B <= B' -> factors_ok B fs -> factors_ok B' fs.
Proof.
  intros HB [Hall Hasc]. split; [|exact Hasc].
  eapply Forall_impl; [|exact Hall]. intros [p k]. cbn [fst snd].
  intros (Hw & Hp & Hk & Hlt). split_and; auto. lia.
Qed.

Lemma factors_ok_snoc (B B' : Z) (fs : list (BigInt * Z)) (p : BigInt) (k : Z) :
  factors_ok B fs -> wf p -> Z.prime (to_Z p) -> 1 <= k ->
  B <= to_Z p -> to_Z p < B' ->
  factors_ok B' (fs ++ [(p, k)]).
Proof.
  intros [Hall Hasc] Hw Hp Hk HB HB'. split.
  - apply Forall_app. split.
    + eapply Forall_impl; [|exact Hall]. intros [q j]. cbn [fst snd].
      intros (Hwq & Hpq & Hkq & Hlt). split_and; auto. lia.
    + constructor; [|constructor]. cbn [fst snd]. split_and; auto.
  - apply ascending_snoc; auto.
    eapply Forall_impl; [|exact Hall]. intros [q j]. cbn [fst snd].
    intros (_ & _ & _ & Hlt). lia.
Qed.

Lemma prime_from_no_small (p num : Z) :
  2 <= p -> (p | num) -> no_small_divisor num p -> Z.prime p.
Proof.
  intros Hp Hdiv Hno. split; [lia|].
  intros d Hd Hdp. apply (Hno d); [lia|].
  eapply Z.divide_trans; eauto.
Qed.

(** Dividing out a factor: the loop stops at the cofactor that [i] no
    longer divides, having counted the multiplicity. *)
Lemma divide_out_spec (fuel : nat) (i : BigInt) :
  (9 <= fuel)%nat -> wf i -> 2 <= to_Z i ->
  forall (k : nat) (num : BigInt) (count : Z),
    wf num -> 1 <= to_Z num -> to_Z num <= Z.of_nat k ->
    exists num' c,
      divide_out fuel k num i count = Ok (num', count + c)
      /\ wf num' /\ 1 <= to_Z num' /\ 0 <= c
      /\ to_Z num = to_Z num' * to_Z i ^ c
      /\ ~ (to_Z i | to_Z num')
      /\ (c = 0 -> num' = num).
Proof.
  intros Hfuel Hi Hi2.
  induction k as [|k IH]; intros num count Hnum Hpos Hk; [lia|].
  cbn [divide_out].
  destruct (op_mod_spec fuel num i Hfuel Hnum Hi ltac:(lia)) as (m & Hm & Hwm & Hvm).
  rewrite Hm. cbn [bind].
  rewrite op_eq_value by (auto using wf_ZERO). change (to_Z ZERO) with 0.
  destruct (Z.eqb_spec (to_Z m) 0) as [Hz | Hnz].
  - destruct (op_div_spec fuel num i Hfuel Hnum Hi ltac:(lia)) as (q & Hq & Hwq & Hvq).
    rewrite Hq. cbn [bind].
    pose proof (Z.quot_rem' (to_Z num) (to_Z i)) as Hqr.
    rewrite <- Hvq, <- Hvm, Hz in Hqr.
    assert (Hq1 : 1 <= to_Z q) by nia.
    assert (Hqk : to_Z q <= Z.of_nat k) by nia.
    destruct (IH q (count + 1) Hwq Hq1 Hqk)
      as (num' & c & Hrun & Hw' & Hpos' & Hc & Heq & Hnd & _).
    exists num', (c + 1). rewrite Hrun.
    split; [f_equal; f_equal; lia|]. split_and; auto; try lia.
    rewrite Z.pow_add_r, Z.pow_1_r by lia. rewrite Hqr, Heq. ring.
  - exists num, 0. rewrite Z.add_0_r, Z.pow_0_r. split_and; auto; try lia.
    intros Hdiv. apply Hnz. rewrite Hvm. apply Z.rem_divide; [lia | exact Hdiv].
Qed.

(** Trial division by the odd numbers from [i] up to the bound. *)
Lemma odd_divisors_spec (fuel : nat) (sqrtNum : BigInt) :
  (9 <= fuel)%nat -> wf sqrtNum ->
  forall (k : nat) (i num : BigInt) (factors : list (BigInt * Z)),
    wf i -> wf num -> 3 <= to_Z i -> Z.Odd (to_Z i) ->
    1 <= to_Z num -> to_Z num <= Z.of_nat fuel ->
    no_small_divisor (to_Z num) (to_Z i) ->
    factors_ok (to_Z i) factors ->
    to_Z sqrtNum - to_Z i + 1 <= Z.of_nat k ->
    exists num' factors' bound,
      odd_divisors fuel k i sqrtNum num factors = Ok (num', factors')
      /\ wf num' /\ 1 <= to_Z num' /\ (to_Z num' | to_Z num)
      /\ to_Z sqrtNum < bound
      /\ no_small_divisor (to_Z num') bound
      /\ factors_ok bound factors'
      /\ factors_product factors' * to_Z num' = factors_product factors * to_Z num.
Proof.
  intros Hfuel Hs.
  induction k as [|k IH]; intros i num factors Hi Hnum Hi3 Hodd Hpos Hle Hno Hok Hk.
  - cbn [odd_divisors]. rewrite op_le_value by auto.
    destruct (Z.leb_spec (to_Z i) (to_Z sqrtNum)); [lia|].
    exists num, factors, (to_Z i). split_and; auto; try lia. apply Z.divide_refl.
  - cbn [odd_divisors]. rewrite op_le_value by auto.
    destruct (Z.leb_spec (to_Z i) (to_Z sqrtNum)) as [Hin | Hout].
    2:{ exists num, factors, (to_Z i). split_and; auto; try lia. apply Z.divide_refl. }
    destruct (divide_out_spec fuel i Hfuel Hi ltac:(lia) fuel num 0 Hnum Hpos Hle)
      as (num' & c & Hrun & Hw' & Hpos' & Hc & Heq & Hnd & Hsame).
    rewrite Hrun. cbn [bind]. cbn [Z.add].
    destruct (op_plus_spec i TWO Hi wf_TWO) as [Hwi Hvi]. change (to_Z TWO) with 2 in Hvi.
    assert (Hdiv : (to_Z num' | to_Z num)).
    { rewrite Heq. apply Z.divide_factor_l. }
    assert (Hle' : to_Z num' <= Z.of_nat fuel).
    { pose proof (Z.divide_pos_le (to_Z num') (to_Z num) ltac:(lia) Hdiv). lia. }
    assert (Hno' : no_small_divisor (to_Z num') (to_Z (op_plus i TWO))).
    { intros d Hd Hdd. rewrite Hvi in Hd.
      assert (Hcases : d < to_Z i \/ d = to_Z i \/ d = to_Z i + 1) by lia.
      destruct Hcases as [Hlt | [-> | ->]].
      - apply (Hno d); [lia|]. eapply Z.divide_trans; eauto.
      - contradiction.
      - destruct Hodd as [h Hh]. apply (Hno 2); [lia|].
        apply Z.divide_trans with (to_Z num'); [|exact Hdiv].
        apply Z.divide_trans with (to_Z i + 1); [|exact Hdd].
        exists (h + 1). lia. }
    assert (Hodd' : Z.Odd (to_Z (op_plus i TWO))).
    { destruct Hodd as [h Hh]. exists (h + 1). lia. }
    assert (Hok' : factors_ok (to_Z (op_plus i TWO))
                     (if c >? 0 then factors ++ [(i, c)] else factors)).
    { destruct (Z.gtb_spec c 0) as [Hc1 | Hc0].
      - apply (factors_ok_snoc (to_Z i)); auto; try lia.
        apply (prime_from_no_small _ (to_Z num)); auto; [lia|].
        rewrite Heq. apply Z.divide_mul_r.
        replace c with (1 + (c - 1)) by lia.
        rewrite Z.pow_add_r, Z.pow_1_r by lia. apply Z.divide_factor_l.
      - apply (factors_ok_mono (to_Z i)); auto. lia. }
    destruct (IH (op_plus i TWO) num' (if c >? 0 then factors ++ [(i, c)] else factors))
      as (num'' & fs'' & bound & Hrun' & Hw'' & Hpos'' & Hdiv'' & Hb & Hno'' & Hok'' & Hprod);
      auto; try lia.
    exists num'', fs'', bound. split_and; auto.
    + eapply Z.divide_trans; eauto.
    + rewrite Hprod. destruct (Z.gtb_spec c 0) as [Hc1 | Hc0].
      * rewrite factors_product_snoc, Heq. ring.
      * assert (c = 0) by lia. subst c. rewrite Heq, Z.pow_0_r. ring.
Qed.

(** The residual cofactor of trial division is prime: it has no divisor
    below a bound whose square exceeds it. *)
Lemma residual_prime (c bound : Z) :
  1 < c -> 0 < bound -> no_small_divisor c bound -> c < bound * bound ->
  Z.prime c /\ bound <= c.
Proof.
  intros Hc Hb Hno Hsq.
  assert (Hbc : bound <= c).
  { destruct (Z.le_gt_cases bound c); auto.
    exfalso. apply (Hno c); [lia | apply Z.divide_refl]. }
  split; [|exact Hbc]. split; [lia|].
  intros d Hd [e He].
  assert (He1 : 1 < e < c) by nia.
  assert (Hdb : bound <= d).
  { destruct (Z.le_gt_cases bound d); auto.
    exfalso. apply (Hno d); [lia | exists e; exact He]. }
  assert (Heb : bound <= e).
  { destruct (Z.le_gt_cases bound e); auto.
    exfalso. apply (Hno e); [lia | exists d; lia]. }
  nia.
Qed.

Lemma primeFactorization_spec (fuel : nat) (n : BigInt) :
  (9 <= fuel)%nat -> wf n -> 2 <= Z.abs (to_Z n) -> Z.abs (to_Z n) <= Z.of_nat fuel ->
  exists fs bound,
    primeFactorization fuel n = Ok fs
    /\ factors_ok bound fs
    /\ factors_product fs = Z.abs (to_Z n).
Proof.
  intros Hfuel Hn Hn2 Hk. unfold primeFactorization.
  destruct (abs_spec n Hn) as (Hwa & Hva & _).
  rewrite op_le_value by (auto using wf_ONE). change (to_Z ONE) with 1.
  destruct (Z.leb_spec (to_Z (abs n)) 1); [lia|].
  destruct (divide_out_spec fuel TWO Hfuel wf_TWO ltac:(reflexivity) fuel (abs n) 0 Hwa
              ltac:(lia) ltac:(lia))
    as (num1 & c & Hrun & Hw1 & Hpos1 & Hc & Heq & Hnd & _).
  change (to_Z TWO) with 2 in Heq, Hnd.
  rewrite Hrun. cbn [bind]. cbn [Z.add].
  assert (Hdiv1 : (to_Z num1 | to_Z (abs n))).
  { rewrite Heq. apply Z.divide_factor_l. }
  assert (Hle1 : to_Z num1 <= Z.of_nat fuel).
  { pose proof (Z.divide_pos_le (to_Z num1) (to_Z (abs n)) ltac:(lia) Hdiv1). lia. }
  destruct (sqrt_spec fuel num1 Hfuel Hw1 ltac:(lia) Hle1)
    as (s & Hsq & Hws & Hs0 & Hfloor).
  rewrite Hsq. cbn [bind].
  assert (Hok0 : factors_ok 3 (if c >? 0 then [(TWO, c)] else [])).
  { destruct (Z.gtb_spec c 0).
    - split; [|repeat constructor]. constructor; [|constructor]. cbn [fst snd].
      split_and; try lia; [apply wf_TWO | apply Z.prime_2 | reflexivity].
    - split; constructor. }
  destruct (odd_divisors_spec fuel s Hfuel Hws fuel (BigInt_of_ll 3) num1
              (if c >? 0 then [(TWO, c)] else []))
    as (num2 & fs & bound & Hrun2 & Hw2 & Hpos2 & Hdiv2 & Hb & Hno & Hok & Hprod);
    auto using wf_of_ll_3; change (to_Z (BigInt_of_ll 3)) with 3; try lia.
  { exists 1. reflexivity. }
  { intros d Hd Hdd. assert (d = 2) by lia. subst d. contradiction. }
  { nia. }
  rewrite Hrun2. cbn [bind].
  assert (Htotal : factors_product fs * to_Z num2 = Z.abs (to_Z n)).
  { rewrite Hprod, <- Hva, Heq. destruct (Z.gtb_spec c 0).
    - cbn [factors_product]. change (to_Z TWO) with 2. ring.
    - assert (c = 0) by lia. subst c. cbn [factors_product]. rewrite Z.pow_0_r. ring. }
  rewrite op_gt_value by (auto using wf_ONE). change (to_Z ONE) with 1.
  destruct (Z.ltb_spec 1 (to_Z num2)) as [Hbig | Hone].
  - assert (Hlt : to_Z num2 < bound * bound).
    { pose proof (Z.divide_pos_le (to_Z num2) (to_Z num1) ltac:(lia) Hdiv2). nia. }
    destruct (residual_prime (to_Z num2) bound Hbig ltac:(lia) Hno Hlt) as [Hprime Hge].
    exists (fs ++ [(num2, 1)]), (to_Z num2 + 1). split; [reflexivity|]. split.
    + apply (factors_ok_snoc bound); auto; lia.
    + rewrite factors_product_snoc, Z.pow_1_r. exact Htotal.
  - exists fs, bound. split; [reflexivity|]. split; [exact Hok|].
    assert (to_Z num2 = 1) by lia. lia.
Qed.

End Factorization.

(** * Conversions from and to [long long] *)

Section Conversions.

Lemma wrap64_small (z : Z) : LLONG_MIN <= z <= LLONG_MAX -> wrap64 z = z.
Proof.
  unfold LLONG_MIN, LLONG_MAX, wrap64. intros H.
  rewrite Z.mod_small by lia. lia.
Qed.

Lemma ll_digits_zero (fuel : nat) : ll_digits fuel 0 = [].
Proof. destruct fuel; reflexivity. Qed.

Lemma log2_quot10 (num : Z) :
  0 < Z.quot num 10 -> Z.log2 (Z.quot num 10) < Z.log2 num.
Proof.
  intros Hq.
  assert (Hnum : 0 < num).
  { destruct (Z.le_gt_cases num 0) as [Hle | Hgt]; [exfalso | exact Hgt].
    pose proof (Z.quot_opp_l num 10 ltac:(lia)) as Ho.
    pose proof (Z.quot_pos (- num) 10 ltac:(lia) ltac:(lia)). lia. }
  destruct (quot_rem_digit num ltac:(lia)) as (Hr & Hs & _).
  pose proof (Z.log2_spec num Hnum) as Hspec.
  pose proof (Z.log2_nonneg num) as Hnn.
  rewrite Z.pow_succ_r in Hspec by lia.
  apply Z.log2_lt_pow2; lia.
Qed.

(** The digit loop of the [long long] constructor writes the decimal
    digits of a positive number, least significant first. *)
Lemma ll_digits_spec (fuel : nat) :
  forall num, 0 < num -> Z.log2 num < Z.of_nat fuel ->
    digits_ok (ll_digits fuel num)
    /\ value (ll_digits fuel num) = num
    /\ ll_digits fuel num <> []
    /\ 10 ^ (Z.of_nat (length (ll_digits fuel num)) - 1) <= num.
Proof.
  induction fuel as [|fuel IH]; intros num Hpos Hfuel.
  - pose proof (Z.log2_nonneg num). lia.
  - cbn [ll_digits]. destruct (Z.gtb_spec num 0); [|lia].
    destruct (quot_rem_digit num ltac:(lia)) as (Hr & Hs & Hq).
    destruct (Z.eq_dec (Z.quot num 10) 0) as [Hz | Hnz].
    + rewrite Hz, ll_digits_zero. cbn [value length].
      split_and; [repeat constructor; lia | lia | discriminate | cbn; lia].
    + pose proof (log2_quot10 num ltac:(lia)) as Hlog.
      destruct (IH (Z.quot num 10) ltac:(lia) ltac:(lia)) as (Hok & Hv & Hne & Hp).
      cbn [value length]. split_and.
      * constructor; auto.
      * lia.
      * discriminate.
      * replace (Z.of_nat (S (length (ll_digits fuel (Z.quot num 10)))) - 1)
          with (Z.succ (Z.of_nat (length (ll_digits fuel (Z.quot num 10))) - 1)) by lia.
        assert (1 <= length (ll_digits fuel (Z.quot num 10)))%nat
          by (destruct (ll_digits fuel (Z.quot num 10)); [contradiction | cbn; lia]).
        rewrite Z.pow_succ_r by lia. lia.
Qed.

Lemma of_ll_positive (m : Z) (neg : bool) :
  0 < m ->
  let x := mkBigInt (ll_digits (S (Z.to_nat (Z.log2 m))) m) neg in
  wf x /\ value (digits x) = m.
Proof.
  intros Hm x.
  pose proof (Z.log2_nonneg m).
  destruct (ll_digits_spec (S (Z.to_nat (Z.log2 m))) m Hm ltac:(lia))
    as (Hok & Hv & Hne & Hp).
  split; [|exact Hv]. constructor; cbn [digits negative x]; auto.
  - right. rewrite Hv. exact Hp.
  - rewrite Hv. lia.
Qed.

(** Apart from the minimum, the constructor from [long long] is exact. *)
Lemma BigInt_of_ll_exact (n : Z) :
  LLONG_MIN < n <= LLONG_MAX -> wf (BigInt_of_ll n) /\ to_Z (BigInt_of_ll n) = n.
Proof.
  intros Hn. unfold BigInt_of_ll.
  destruct (Z.ltb_spec n 0) as [Hneg | Hnn].
  - rewrite wrap64_small by (unfold LLONG_MIN, LLONG_MAX in *; lia).
    destruct (Z.eqb_spec (- n) 0); [lia|].
    destruct (of_ll_positive (- n) true ltac:(lia)) as [Hw Hv].
    split; [exact Hw|]. unfold to_Z. cbn [negative]. rewrite Hv. lia.
  - destruct (Z.eqb_spec n 0) as [-> | Hnz].
    + split; [apply canonical_wf; reflexivity | reflexivity].
    + destruct (of_ll_positive n false ltac:(lia)) as [Hw Hv].
      split; [exact Hw|]. unfold to_Z. cbn [negative]. exact Hv.
Qed.

Lemma decimal_digits_ll (fuel : nat) :
  forall n acc, 0 <= n ->
    decimal_digits fuel n acc
    = map (fun d => code_char (48 + d)) (rev (ll_digits fuel n)) ++ acc.
Proof.
  induction fuel as [|fuel IH]; intros n acc Hn; [reflexivity|].
  cbn [decimal_digits ll_digits].
  destruct (Z.eqb_spec n 0) as [-> | Hnz]; [reflexivity|].
  destruct (Z.gtb_spec n 0); [|lia].
  rewrite Z.rem_mod_nonneg, Z.quot_div_nonneg by lia.
  rewrite IH by (apply Z.div_pos; lia).
  cbn [rev]. rewrite map_app, <- app_assoc. reflexivity.
Qed.

Lemma isZero_value_zero (x : BigInt) : isZero x = true -> value (digits x) = 0.
Proof.
  unfold isZero. destruct (digits x) as [|d [|d' ds]]; try discriminate.
  intros H. apply Z.eqb_eq in H. subst. reflexivity.
Qed.

(** Apart from the minimum, the text of a converted [long long] is its
    decimal rendering. *)
Lemma toString_of_ll (n : Z) :
  LLONG_MIN < n <= LLONG_MAX -> toString (BigInt_of_ll n) = decimal n.
Proof.
  intros Hn. unfold BigInt_of_ll, decimal.
  destruct (Z.ltb_spec n 0) as [Hneg | Hnn].
  - rewrite wrap64_small by (unfold LLONG_MIN, LLONG_MAX in *; lia).
    destruct (Z.eqb_spec (- n) 0); [lia|]. destruct (Z.eqb_spec n 0); [lia|].
    destruct (of_ll_positive (- n) true ltac:(lia)) as [Hw Hv].
    unfold toString.
    destruct (isZero _) eqn:Hz; [apply isZero_value_zero in Hz; lia|].
    cbn [digits negative]. rewrite Z.abs_neq by lia.
    rewrite decimal_digits_ll, app_nil_r by lia. reflexivity.
  - destruct (Z.eqb_spec n 0) as [-> | Hnz]; [reflexivity|].
    destruct (of_ll_positive n false ltac:(lia)) as [Hw Hv].
    unfold toString.
    destruct (isZero _) eqn:Hz; [apply isZero_value_zero in Hz; lia|].
    cbn [digits negative]. rewrite Z.abs_eq by lia.
    rewrite decimal_digits_ll, app_nil_r by lia. reflexivity.
Qed.

(** The accumulation loop of [toLongLong] on a value that fits. *)
Lemma horner_value (ds : list Z) :
  digits_ok ds -> value ds <= LLONG_MAX ->
  fold_left (fun acc d => wrap64 (acc * 10 + d)) (rev ds) 0 = value ds.
Proof.
  induction 1 as [|d ds Hd Hok IH]; intros Hle; [reflexivity|].
  cbn [rev value] in *. rewrite fold_left_app. cbn [fold_left].
  pose proof (value_bound ds Hok) as Hb.
  rewrite IH by lia. rewrite wrap64_small; [ring|].
  unfold LLONG_MIN, LLONG_MAX in *. lia.
Qed.

Lemma wf_LLONG_MAX :
  wf (BigInt_of_ll LLONG_MAX) /\ to_Z (BigInt_of_ll LLONG_MAX) = LLONG_MAX.
Proof. apply BigInt_of_ll_exact. unfold LLONG_MIN, LLONG_MAX. lia. Qed.

Lemma toLongLong_nonneg (x : BigInt) :
  wf x -> 0 <= to_Z x ->
  toLongLong x = if to_Z x <=? LLONG_MAX then Ok (to_Z x) else Throw OutOfRange.
Proof.
  intros Hx Hnn. unfold toLongLong.
  destruct wf_LLONG_MAX as [Hwm Hvm].
  rewrite op_gt_value by auto. rewrite Hvm.
  pose proof (wf_nonneg_sign x Hx Hnn) as Hs.
  destruct (Z.leb_spec (to_Z x) LLONG_MAX) as [Hle | Hgt].
  - destruct (Z.ltb_spec LLONG_MAX (to_Z x)); [lia|]. cbn [orb].
    assert (Hlt : op_lt x (BigInt_of_ll LLONG_MIN) = false).
    { change (BigInt_of_ll LLONG_MIN) with (mkBigInt [] true).
      unfold op_lt. cbn [negative]. rewrite Hs. reflexivity. }
    rewrite Hlt, Hs. rewrite (to_Z_nonneg x Hs) in *.
    rewrite horner_value by (auto; apply wf_digits, Hx). reflexivity.
  - destruct (Z.ltb_spec LLONG_MAX (to_Z x)); [reflexivity | lia].
Qed.

End Conversions.

(** * The text constructor *)

Section Text.

Lemma wrap_size_small (z : Z) : 0 <= z < SIZE_MOD -> wrap_size z = z.
Proof. intros H. apply Z.mod_small, H. Qed.

Lemma isdigit_range (c : ascii) : isdigit c = true -> 0 <= char_code c - 48 <= 9.
Proof. unfold isdigit. intros H. apply andb_true_iff in H as [H1 H2]. lia. Qed.

Lemma code_char_code (c : ascii) : code_char (48 + (char_code c - 48)) = c.
Proof.
  unfold code_char, char_code.
  replace (48 + (Z.of_N (N_of_ascii c) - 48)) with (Z.of_N (N_of_ascii c)) by lia.
  pose proof (N_ascii_bounded c) as Hb.
  rewrite Z.mod_small by lia. rewrite N2Z.id. apply ascii_N_embedding.
Qed.

Lemma digits_ok_of_text (body : list ascii) :
  Forall (fun c => isdigit c = true) body ->
  digits_ok (map (fun c => char_code c - 48) body).
Proof.
  induction 1 as [|c body Hc _ IH]; cbn [map]; constructor; auto.
  apply isdigit_range, Hc.
Qed.

Lemma firstn_snoc_nth (k : nat) (body : list ascii) :
  (k < length body)%nat -> firstn (S k) body = firstn k body ++ [nth k body zero].
Proof.
  revert k. induction body as [|c body IH]; intros k Hk; [cbn in Hk; lia|].
  destruct k as [|k]; [reflexivity|].
  cbn [length] in Hk. cbn [firstn nth app]. f_equal. apply IH. lia.
Qed.

(** With a sign character the loop runs from the last index down to 1 and
    collects the digits, least significant first. *)
Lemma parse_loop_signed (c0 : ascii) (body : list ascii) :
  Forall (fun c => isdigit c = true) body ->
  Z.of_nat (length (c0 :: body)) < SIZE_MOD ->
  forall (k fuel : nat) (ds : list Z),
    (k <= length body)%nat -> (k < fuel)%nat ->
    parse_loop fuel (c0 :: body) 1 (Z.of_nat k) ds
    = Ok (ds ++ map (fun c => char_code c - 48) (rev (firstn k body))).
Proof.
  intros Hall Hlen.
  induction k as [|k IH]; intros fuel ds Hk Hfuel;
    (destruct fuel as [|fuel]; [lia|]); cbn [parse_loop].
  - cbn. rewrite app_nil_r. reflexivity.
  - destruct (Z.geb_spec (Z.of_nat (S k)) 1); [|lia].
    unfold string_at.
    destruct (Z.ltb_spec (Z.of_nat (S k)) (Z.of_nat (length (c0 :: body))));
      [|cbn [length] in *; lia].
    rewrite Nat2Z.id. cbn [nth bind].
    assert (Hd : isdigit (nth k body zero) = true).
    { rewrite Forall_forall in Hall. apply Hall, nth_In. lia. }
    rewrite Hd.
    replace (Z.of_nat (S k) - 1) with (Z.of_nat k) by lia.
    rewrite wrap_size_small by (cbn [length] in Hlen; lia).
    rewrite IH by lia.
    rewrite firstn_snoc_nth by lia.
    rewrite rev_app_distr. cbn [rev app map]. rewrite <- app_assoc. reflexivity.
Qed.

(** A character that is not a digit, at or above the lower bound, stops
    the loop with [InvalidInput] before the index can wrap. *)
Lemma parse_loop_nondigit (str : list ascii) (start : Z) (p : nat) :
  0 <= start <= Z.of_nat p -> isdigit (nth p str zero) = false ->
  Z.of_nat (length str) < SIZE_MOD ->
  forall (fuel : nat) (i : nat) (ds : list Z),
    (p <= i)%nat -> (i < length str)%nat -> (i < fuel)%nat ->
    parse_loop fuel str start (Z.of_nat i) ds = Throw InvalidInput.
Proof.
  intros Hstart Hp Hlen.
  induction fuel as [|fuel IH]; intros i ds Hpi Hi Hfuel; [lia|].
  cbn [parse_loop].
  destruct (Z.geb_spec (Z.of_nat i) start); [|lia].
  unfold string_at.
  destruct (Z.ltb_spec (Z.of_nat i) (Z.of_nat (length str))); [|lia].
  rewrite Nat2Z.id. cbn [bind].
  destruct (isdigit (nth i str zero)) eqn:Hd; [|reflexivity].
  assert (Hne : p <> i) by (intros ->; congruence).
  destruct i as [|i]; [lia|].
  replace (Z.of_nat (S i) - 1) with (Z.of_nat i) by lia.
  rewrite wrap_size_small by lia.
  apply IH; lia.
Qed.

Lemma numeral_value (body : list ascii) :
  value (map (fun c => char_code c - 48) (rev body)) = numeral body.
Proof.
  unfold numeral.
  assert (Hgen : forall acc,
             fold_left (fun a c => a * 10 + (char_code c - 48)) body acc
             = acc * 10 ^ Z.of_nat (length body)
               + value (map (fun c => char_code c - 48) (rev body))).
  { induction body as [|c body IH]; intros acc.
    - cbn. lia.
    - cbn [fold_left rev length]. rewrite IH, map_app, value_app.
      rewrite length_map, length_rev. cbn [map value].
      rewrite Nat2Z.inj_succ, Z.pow_succ_r by lia. ring. }
  rewrite Hgen. lia.
Qed.

Lemma is_sign_cases (c0 : ascii) :
  is_sign c0 = true ->
  (if Ascii.eqb c0 "-" then 1 else if Ascii.eqb c0 "+" then 1 else 0) = 1.
Proof.
  unfold is_sign. destruct (Ascii.eqb c0 "-"), (Ascii.eqb c0 "+"); auto; discriminate.
Qed.

(** A sign followed by digits is parsed to the value it denotes. *)
Lemma parse_signed (s : string) (c0 : ascii) (body : list ascii) :
  list_ascii_of_string s = c0 :: body -> is_sign c0 = true -> body <> [] ->
  Forall (fun c => isdigit c = true) body ->
  Z.of_nat (length (c0 :: body)) < SIZE_MOD ->
  BigInt_of_string s
  = Ok (normalize (mkBigInt (map (fun c => char_code c - 48) (rev body))
                            (Ascii.eqb c0 "-"))).
Proof.
  intros Hs Hsign Hne Hall Hlen. unfold BigInt_of_string. rewrite Hs.
  rewrite (is_sign_cases c0 Hsign).
  destruct (Z.geb_spec 1 (Z.of_nat (length (c0 :: body)))) as [Hge | _].
  { destruct body; [contradiction | cbn [length] in Hge; lia]. }
  rewrite wrap_size_small by (cbn [length] in *; lia).
  replace (Z.of_nat (length (c0 :: body)) - 1) with (Z.of_nat (length body))
    by (cbn [length]; lia).
  rewrite (parse_loop_signed c0 body Hall Hlen (length body)) by (cbn [length]; lia).
  cbn [bind app]. rewrite firstn_all. reflexivity.
Qed.

Lemma parse_loop_unsigned (str : list ascii) :
  Z.of_nat (length str) < SIZE_MOD - 1 ->
  Forall (fun c => isdigit c = true) str ->
  forall (fuel : nat) (i : Z) (ds : list Z),
    0 <= i < Z.of_nat (length str) -> i + 1 < Z.of_nat fuel ->
    parse_loop fuel str 0 i ds = Undefined.
Proof.
  intros Hlen Hall fuel.
  induction fuel as [|fuel IH]; intros i ds Hi Hfuel; [lia|].
  cbn [parse_loop].
  destruct (Z.geb_spec i 0); [|lia].
  unfold string_at. destruct (Z.ltb_spec i (Z.of_nat (length str))); [|lia].
  cbn [bind].
  assert (Hd : isdigit (nth (Z.to_nat i) str zero) = true).
  { rewrite Forall_forall in Hall. apply Hall, nth_In. lia. }
  rewrite Hd.
  destruct (Z.eq_dec i 0) as [-> | Hnz].
  - change (wrap_size (0 - 1)) with (SIZE_MOD - 1).
    destruct fuel as [|fuel]; [lia|]. cbn [parse_loop]. unfold string_at.
    destruct (Z.geb_spec (SIZE_MOD - 1) 0) as [_ | Hneg]; [|unfold SIZE_MOD in Hneg; lia].
    destruct (Z.ltb_spec (SIZE_MOD - 1) (Z.of_nat (length str))); [lia|].
    destruct (Z.eqb_spec (SIZE_MOD - 1) (Z.of_nat (length str))); [lia|].
    reflexivity.
  - assert (Hw : wrap_size (i - 1) = i - 1).
    { unfold wrap_size. apply Z.mod_small. unfold SIZE_MOD in *. lia. }
    rewrite Hw. apply IH; lia.
Qed.

(** Digits without a sign: the lower bound of the loop is 0, the index
    wraps and the text is read out of bounds. *)
Lemma parse_unsigned (s : string) :
  list_ascii_of_string s <> [] ->
  Forall (fun c => isdigit c = true) (list_ascii_of_string s) ->
  Z.of_nat (length (list_ascii_of_string s)) < SIZE_MOD - 1 ->
  BigInt_of_string s = Undefined.
Proof.
  intros Hne Hall Hlen. unfold BigInt_of_string.
  destruct (list_ascii_of_string s) as [|c0 str] eqn:Hs; [contradiction|].
  assert (Hc0 : isdigit c0 = true) by (inversion Hall; assumption).
  assert (Hsign : Ascii.eqb c0 "-" = false /\ Ascii.eqb c0 "+" = false).
  { split; apply Ascii.eqb_neq; intros ->; discriminate Hc0. }
  destruct Hsign as [-> ->].
  destruct (Z.geb_spec 0 (Z.of_nat (length (c0 :: str)))) as [Hge | _].
  { cbn [length] in Hge. lia. }
  rewrite wrap_size_small by (unfold SIZE_MOD in *; cbn [length] in *; lia).
  rewrite parse_loop_unsigned; auto; cbn [length] in *; lia.
Qed.

(** A character that is not a digit after the optional sign. *)
Lemma parse_nondigit (s : string) :
  Exists (fun c => isdigit c = false) (text_body (list_ascii_of_string s)) ->
  Z.of_nat (length (list_ascii_of_string s)) < SIZE_MOD ->
  BigInt_of_string s = Throw InvalidInput.
Proof.
  intros Hex Hlen. unfold BigInt_of_string.
  destruct (list_ascii_of_string s) as [|c0 body] eqn:Hs; [reflexivity|].
  cbn [text_body] in Hex.
  destruct (is_sign c0) eqn:Hsign.
  - rewrite (is_sign_cases c0 Hsign).
    apply (Exists_nth _ body) in Hex. destruct Hex as (p & d & Hp & Hbad).
    rewrite (nth_indep body d zero Hp) in Hbad.
    destruct (Z.geb_spec 1 (Z.of_nat (length (c0 :: body)))) as [Hge | _];
      [cbn [length] in Hge; lia|].
    rewrite wrap_size_small by (cbn [length] in *; lia).
    replace (Z.of_nat (length (c0 :: body)) - 1) with (Z.of_nat (length body))
      by (cbn [length]; lia).
    rewrite (parse_loop_nondigit (c0 :: body) 1 (S p)); auto; cbn [length]; lia.
  - assert (Hstart : (if Ascii.eqb c0 "-" then 1
                      else if Ascii.eqb c0 "+" then 1 else 0) = 0).
    { unfold is_sign in Hsign. apply orb_false_iff in Hsign as [-> ->]. reflexivity. }
    assert (Hneg : Ascii.eqb c0 "-" = false).
    { unfold is_sign in Hsign. apply orb_false_iff in Hsign. tauto. }
    rewrite Hstart.
    apply (Exists_nth _ (c0 :: body)) in Hex. destruct Hex as (p & d & Hp & Hbad).
    rewrite (nth_indep (c0 :: body) d zero Hp) in Hbad.
    destruct (Z.geb_spec 0 (Z.of_nat (length (c0 :: body)))) as [Hge | _];
      [cbn [length] in Hge; lia|].
    rewrite wrap_size_small by (cbn [length] in *; lia).
    replace (Z.of_nat (length (c0 :: body)) - 1) with (Z.of_nat (length body))
      by (cbn [length]; lia).
    rewrite (parse_loop_nondigit (c0 :: body) 0 p); auto; cbn [length] in *; lia.
Qed.

Lemma removeLeadingZeros_top_nonzero (ds : list Z) (top : Z) :
  top <> 0 -> removeLeadingZeros (ds ++ [top]) = ds ++ [top].
Proof.
  intros Htop. unfold removeLeadingZeros. rewrite rev_app_distr. cbn [rev app].
  assert (Hs : strip_back (top :: rev ds) = top :: rev ds).
  { cbn [strip_back]. destruct (rev ds); auto.
    destruct (Z.eqb_spec top 0); [contradiction | reflexivity]. }
  rewrite Hs. cbn [rev]. rewrite rev_involutive. reflexivity.
Qed.

(** Parsing and formatting a canonical negative text gives the text back. *)
Lemma roundtrip_signed (s : string) (c1 : ascii) (rest : list ascii) :
  list_ascii_of_string s = "-"%char :: c1 :: rest ->
  Forall (fun c => isdigit c = true) (c1 :: rest) -> c1 <> "0"%char ->
  Z.of_nat (length ("-"%char :: c1 :: rest)) < SIZE_MOD ->
  exists x, BigInt_of_string s = Ok x /\ toString x = s.
Proof.
  intros Hs Hall Hc1 Hlen.
  rewrite (parse_signed s "-" (c1 :: rest) Hs eq_refl ltac:(discriminate) Hall Hlen).
  eexists. split; [reflexivity|].
  change (Ascii.eqb "-" "-") with true.
  set (dv := fun c => char_code c - 48).
  assert (Hd1 : dv c1 <> 0).
  { unfold dv. intros E. apply Hc1.
    rewrite <- (code_char_code c1), E. reflexivity. }
  cbn [rev]. rewrite map_app. cbn [map].
  unfold normalize. cbn [digits negative].
  rewrite removeLeadingZeros_top_nonzero by exact Hd1.
  assert (Hnorm : match map dv (rev rest) ++ [dv c1] with
                  | [d] => if d =? 0
                           then mkBigInt (map dv (rev rest) ++ [dv c1]) false
                           else mkBigInt (map dv (rev rest) ++ [dv c1]) true
                  | _ => mkBigInt (map dv (rev rest) ++ [dv c1]) true
                  end = mkBigInt (map dv (rev rest) ++ [dv c1]) true).
  { destruct (map dv (rev rest)) as [|d0 [|d1 l]]; cbn [app]; auto.
    destruct (Z.eqb_spec (dv c1) 0); [contradiction | reflexivity]. }
  rewrite Hnorm. unfold toString.
  assert (Hnz : isZero (mkBigInt (map dv (rev rest) ++ [dv c1]) true) = false).
  { unfold isZero. cbn [digits].
    destruct (map dv (rev rest)) as [|d0 [|d1 l]]; cbn [app]; auto.
    apply Z.eqb_neq, Hd1. }
  rewrite Hnz. cbn [digits negative].
  rewrite rev_app_distr. cbn [rev app map]. rewrite <- map_rev, rev_involutive, map_map.
  assert (Hid : map (fun c => code_char (48 + dv c)) rest = rest).
  { clear. induction rest as [|c rest IH]; cbn [map]; [reflexivity|].
    unfold dv at 1. rewrite code_char_code, IH. reflexivity. }
  rewrite Hid. unfold dv. rewrite code_char_code.
  rewrite <- (string_of_list_ascii_of_string s), Hs. reflexivity.
Qed.

End Text.

(** * The claims of the specification *)

Section Claims.

Lemma normalize_negative (x : BigInt) :
  isZero (normalize x) = true \/ negative (normalize x) = negative x.
Proof.
  unfold normalize.
  destruct (removeLeadingZeros (digits x)) as [|d [|d' r]]; cbn; auto.
  destruct (Z.eqb_spec d 0) as [-> | Hd]; cbn; auto.
Qed.

Lemma op_div_sign (fuel : nat) (x y q : BigInt) :
  op_div fuel x y = Ok q ->
  isZero q = true \/ negative q = xorb (negative x) (negative y).
Proof.
  unfold op_div. destruct (isZero y); [discriminate|].
  destruct (divideWithRemainder fuel x y) as [[q0 r0]| | |]; cbn [bind]; try discriminate.
  intros H. inversion H.
  exact (normalize_negative (mkBigInt (digits q0) (xorb (negative x) (negative y)))).
Qed.

Lemma op_mod_sign (fuel : nat) (x y r : BigInt) :
  op_mod fuel x y = Ok r -> isZero r = true \/ negative r = negative x.
Proof.
  unfold op_mod. destruct (isZero y); [discriminate|].
  destruct (divideWithRemainder fuel x y) as [[q0 r0]| | |]; cbn [bind]; try discriminate.
  intros H. inversion H.
  exact (normalize_negative (mkBigInt (digits r0) (negative x))).
Qed.

Lemma isZero_false_value (x : BigInt) : wf x -> isZero x = false -> to_Z x <> 0.
Proof.
  intros Hx H. rewrite (isZero_value x Hx) in H. apply Z.eqb_neq, H.
Qed.

(** C1, as amended: division truncates and is exact.  For canonical [a] and
    canonical non-zero [b], with the budget of 9 subtractions per quotient
    digit, [a / b] and [a % b] return the truncated quotient and remainder,
    [(a / b) * b + (a % b) == a] holds, the quotient is zero or carries the
    XOR of the operands' signs, and the remainder is zero or carries the
    sign of [a]. *)
Theorem division_truncating_exact (fuel : nat) (a b : BigInt) :
  (9 <= fuel)%nat -> canonical a -> canonical b -> isZero b = false ->
  exists q r p,
    op_div fuel a b = Ok q /\ op_mod fuel a b = Ok r /\ op_mul q b = Ok p
    /\ op_eq (op_plus p r) a = true
    /\ (isZero q = true \/ negative q = xorb (negative a) (negative b))
    /\ (isZero r = true \/ negative r = negative a)
    /\ canonical q /\ canonical r
    /\ to_Z q = Z.quot (to_Z a) (to_Z b) /\ to_Z r = Z.rem (to_Z a) (to_Z b).
Proof.
  intros Hfuel Ha Hb Hnz.
  apply canonical_wf in Ha, Hb.
  pose proof (isZero_false_value b Hb Hnz) as Hb0.
  destruct (op_div_spec fuel a b Hfuel Ha Hb Hb0) as (q & Hq & Hwq & Hvq).
  destruct (op_mod_spec fuel a b Hfuel Ha Hb Hb0) as (r & Hr & Hwr & Hvr).
  destruct (op_mul_spec q b Hwq Hb) as (p & Hp & Hwp & Hvp).
  destruct (op_plus_spec p r Hwp Hwr) as [Hws Hvs].
  exists q, r, p. split_and; auto.
  - rewrite op_eq_value by auto. apply Z.eqb_eq.
    rewrite Hvs, Hvp, Hvq, Hvr. pose proof (Z.quot_rem' (to_Z a) (to_Z b)). lia.
  - eapply op_div_sign; eauto.
  - eapply op_mod_sign; eauto.
  - apply canonical_wf, Hwq.
  - apply canonical_wf, Hwr.
Qed.

Lemma division_truncating_exact_witness :
  exists q r p,
    op_div 9 (BigInt_of_ll (-47)) (BigInt_of_ll 5) = Ok q
    /\ op_mod 9 (BigInt_of_ll (-47)) (BigInt_of_ll 5) = Ok r
    /\ op_mul q (BigInt_of_ll 5) = Ok p
    /\ op_eq (op_plus p r) (BigInt_of_ll (-47)) = true
    /\ (isZero q = true
        \/ negative q = xorb (negative (BigInt_of_ll (-47))) (negative (BigInt_of_ll 5)))
    /\ (isZero r = true \/ negative r = negative (BigInt_of_ll (-47)))
    /\ canonical q /\ canonical r
    /\ to_Z q = Z.quot (to_Z (BigInt_of_ll (-47))) (to_Z (BigInt_of_ll 5))
    /\ to_Z r = Z.rem (to_Z (BigInt_of_ll (-47))) (to_Z (BigInt_of_ll 5)).
Proof.
  apply (division_truncating_exact 9 (BigInt_of_ll (-47)) (BigInt_of_ll 5));
    [lia | reflexivity | reflexivity | reflexivity].
Defined.

(** C1, as stated, fails on a zero quotient: [1 / -5] is the canonical zero,
    whose sign flag is false, while the XOR of the operands' signs is true. *)
Lemma division_sign_counterexample :
  exists q,
    op_div 9 (BigInt_of_ll 1) (BigInt_of_ll (-5)) = Ok q
    /\ canonical (BigInt_of_ll 1) /\ canonical (BigInt_of_ll (-5))
    /\ isZero (BigInt_of_ll (-5)) = false
    /\ negative q <> xorb (negative (BigInt_of_ll 1)) (negative (BigInt_of_ll (-5))).
Proof.
  exists ZERO. split_and; try reflexivity. cbn. discriminate.
Qed.

Lemma div_digit_no_throw (fuel : nat) (r dv : BigInt) (digit : Z) (e : exception) :
  div_digit fuel r dv digit <> Throw e.
Proof.
  revert r digit. induction fuel as [|fuel IH]; intros r digit; cbn [div_digit];
    destruct (op_ge r dv); try discriminate. apply IH.
Qed.

Lemma div_loop_no_throw (fuel : nat) (cur : list Z) (dv : BigInt) (i : nat)
    (q r : BigInt) (e : exception) :
  div_loop fuel cur dv i q r <> Throw e.
Proof.
  revert q r. induction i as [|i IH]; intros q r; cbn [div_loop]; [discriminate|].
  destruct (div_digit fuel _ dv 0) as [[r2 k]| e' | |] eqn:Hd; cbn [bind];
    try discriminate.
  - apply IH.
  - exfalso. exact (div_digit_no_throw _ _ _ _ _ Hd).
Qed.

Lemma divideWithRemainder_no_throw (fuel : nat) (x y : BigInt) (e : exception) :
  divideWithRemainder fuel x y <> Throw e.
Proof.
  unfold divideWithRemainder. destruct (isZero x); [discriminate|].
  destruct (div_loop fuel _ (abs y) _ BigInt_default BigInt_default)
    as [[q r]| e' | |] eqn:Hd; cbn [bind]; try discriminate.
  exfalso. exact (div_loop_no_throw _ _ _ _ _ _ _ Hd).
Qed.

(** C6: [x / 0] and [x % 0] throw [DivisionByZero] for every [x]; no other
    exception leaves the two operators, and none at all unless the divisor
    is zero; on canonical operands with a non-zero divisor both return a
    value.  The operands are passed by const reference, that is, as values
    of the model, so a failure leaves them as they were. *)
Theorem division_by_zero (fuel : nat) (x y : BigInt) :
  (isZero y = true ->
   op_div fuel x y = Throw DivisionByZero /\ op_mod fuel x y = Throw DivisionByZero)
  /\ (forall e, op_div fuel x y = Throw e \/ op_mod fuel x y = Throw e ->
                e = DivisionByZero /\ isZero y = true)
  /\ (canonical x -> canonical y -> isZero y = false -> (9 <= fuel)%nat ->
      exists q r, op_div fuel x y = Ok q /\ op_mod fuel x y = Ok r).
Proof.
  split_and.
  - intros Hz. unfold op_div, op_mod. rewrite Hz. auto.
  - intros e. unfold op_div, op_mod. destruct (isZero y).
    + intros [H | H]; inversion H; auto.
    + destruct (divideWithRemainder fuel x y) as [[q r]| e' | |] eqn:Hd; cbn [bind];
        try (intros [H | H]; discriminate).
      exfalso. exact (divideWithRemainder_no_throw _ _ _ _ Hd).
  - intros Hx Hy Hnz Hfuel. apply canonical_wf in Hx, Hy.
    pose proof (isZero_false_value y Hy Hnz) as Hy0.
    destruct (op_div_spec fuel x y Hfuel Hx Hy Hy0) as (q & Hq & _).
    destruct (op_mod_spec fuel x y Hfuel Hx Hy Hy0) as (r & Hr & _).
    exists q, r. auto.
Qed.

Lemma division_by_zero_witness :
  (op_div 9 (BigInt_of_ll 7) ZERO = Throw DivisionByZero
   /\ op_mod 9 (BigInt_of_ll 7) ZERO = Throw DivisionByZero)
  /\ (exists q r, op_div 9 (BigInt_of_ll 7) (BigInt_of_ll (-2)) = Ok q
                  /\ op_mod 9 (BigInt_of_ll 7) (BigInt_of_ll (-2)) = Ok r).
Proof.
  split.
  - apply (proj1 (division_by_zero 9 (BigInt_of_ll 7) ZERO)). reflexivity.
  - apply (proj2 (proj2 (division_by_zero 9 (BigInt_of_ll 7) (BigInt_of_ll (-2)))));
      [reflexivity | reflexivity | reflexivity | lia].
Defined.

(** C8: for canonical [n >= 0], given an iteration budget of at least [n]
    (and 9), [sqrt] returns the floor square root [r]: [r * r <= n] and
    [(r + 1) * (r + 1) > n], both on the denotation and through the class's
    own operators; on canonical input it throws [InvalidInput] exactly when
    [n < 0]; [sqrt(100) == 10] and [sqrt(99) == 9]. *)
Theorem sqrt_floor (fuel : nat) (n : BigInt) :
  canonical n -> (9 <= fuel)%nat -> to_Z n <= Z.of_nat fuel ->
  (0 <= to_Z n ->
   exists r rr s ss,
     sqrt fuel n = Ok r /\ canonical r
     /\ to_Z r * to_Z r <= to_Z n < (to_Z r + 1) * (to_Z r + 1)
     /\ op_mul r r = Ok rr /\ op_le rr n = true
     /\ s = op_plus r ONE /\ op_mul s s = Ok ss /\ op_gt ss n = true)
  /\ (sqrt fuel n = Throw InvalidInput <-> to_Z n < 0)
  /\ (op_lt n ZERO = true <-> to_Z n < 0)
  /\ sqrt 100 (BigInt_of_ll 100) = Ok (BigInt_of_ll 10)
  /\ sqrt 100 (BigInt_of_ll 99) = Ok (BigInt_of_ll 9).
Proof.
  intros Hn Hfuel Hk. apply canonical_wf in Hn. split_and.
  - intros Hnn.
    destruct (sqrt_spec fuel n Hfuel Hn Hnn Hk) as (r & Hrun & Hwr & Hr0 & Hfloor).
    destruct (op_mul_spec r r Hwr Hwr) as (rr & Hrr & Hwrr & Hvrr).
    destruct (op_plus_spec r ONE Hwr wf_ONE) as [Hws Hvs]. change (to_Z ONE) with 1 in Hvs.
    destruct (op_mul_spec _ _ Hws Hws) as (ss & Hss & Hwss & Hvss).
    exists r, rr, (op_plus r ONE), ss. split_and; auto; try lia.
    + apply canonical_wf, Hwr.
    + rewrite op_le_value by auto. apply Z.leb_le. lia.
    + rewrite op_gt_value by auto. apply Z.ltb_lt. rewrite Hvss, Hvs. lia.
  - split; [|apply sqrt_negative, Hn].
    intros Hthrow. destruct (Z.lt_ge_cases (to_Z n) 0) as [|Hnn]; auto.
    destruct (sqrt_spec fuel n Hfuel Hn Hnn Hk) as (r & Hrun & _).
    rewrite Hrun in Hthrow. discriminate.
  - rewrite op_lt_value by (auto using wf_ZERO). apply Z.ltb_lt.
  - reflexivity.
  - reflexivity.
Qed.

Lemma sqrt_floor_witness :
  exists r rr s ss,
    sqrt 50 (BigInt_of_ll 50) = Ok r /\ canonical r
    /\ to_Z r * to_Z r <= to_Z (BigInt_of_ll 50) < (to_Z r + 1) * (to_Z r + 1)
    /\ op_mul r r = Ok rr /\ op_le rr (BigInt_of_ll 50) = true
    /\ s = op_plus r ONE /\ op_mul s s = Ok ss /\ op_gt ss (BigInt_of_ll 50) = true.
Proof.
  refine (proj1 (sqrt_floor 50 (BigInt_of_ll 50) _ _ _) _).
  - reflexivity.
  - lia.
  - vm_compute. discriminate.
  - vm_compute. discriminate.
Defined.

(** C10: for every base [b], zero included, [pow(b, 0)] returns 1 before
    any multiplication, and so does [b ^ 0]. *)
Theorem pow_zero_exponent (fuel : nat) (b : BigInt) :
  pow fuel b ZERO = Ok ONE
  /\ op_pow fuel b ZERO = Ok ONE
  /\ pow fuel ZERO ZERO = Ok ONE
  /\ op_eq ONE (BigInt_of_ll 1) = true
  /\ to_Z ONE = 1.
Proof. split_and; reflexivity. Qed.

Lemma prime_gt_2_odd (p : Z) : Z.prime p -> 2 < p -> Z.Odd p.
Proof.
  intros [_ Hp] H2. destruct (Z.Even_or_Odd p) as [[h Hh] | Hodd]; auto.
  exfalso. apply (Hp 2); [lia|]. exists h. lia.
Qed.

Lemma ascending_head_lt (x : BigInt * Z) (fs : list (BigInt * Z)) :
  ascending (x :: fs) -> Forall (fun pk => to_Z (fst x) < to_Z (fst pk)) fs.
Proof. intros H. apply StronglySorted_inv in H. apply H. Qed.

(** C9: for canonical [n] with [|n| >= 2], given an iteration budget of at
    least [|n|] (and 9), [primeFactorization] returns entries that are
    canonical primes with multiplicity at least 1, in strictly ascending
    order (so 2, when present, comes first, every later factor is odd and
    the residual cofactor is last), whose product of powers is [|n|]; and
    [primeFactorization(360) == [(2,3), (3,2), (5,1)]]. *)
Theorem primeFactorization_correct (fuel : nat) (n : BigInt) :
  canonical n -> 2 <= Z.abs (to_Z n) ->
  (9 <= fuel)%nat -> Z.abs (to_Z n) <= Z.of_nat fuel ->
  (exists fs,
     primeFactorization fuel n = Ok fs
     /\ Forall (fun pk => canonical (fst pk) /\ Z.prime (to_Z (fst pk)) /\ 1 <= snd pk) fs
     /\ ascending fs
     /\ Forall (fun pk => Z.Odd (to_Z (fst pk))) (tl fs)
     /\ factors_product fs = Z.abs (to_Z n))
  /\ primeFactorization 360 (BigInt_of_ll 360)
     = Ok [(BigInt_of_ll 2, 3); (BigInt_of_ll 3, 2); (BigInt_of_ll 5, 1)].
Proof.
  intros Hn Hn2 Hfuel Hk. apply canonical_wf in Hn. split; [|reflexivity].
  destruct (primeFactorization_spec fuel n Hfuel Hn Hn2 Hk)
    as (fs & bound & Hrun & [Hall Hasc] & Hprod).
  exists fs. split_and; auto.
  - eapply Forall_impl; [|exact Hall]. intros [p k]. cbn [fst snd].
    intros (Hw & Hp & Hk1 & _). split_and; auto. apply canonical_wf, Hw.
  - destruct fs as [|[p k] fs]; [constructor|]. cbn [tl].
    pose proof (ascending_head_lt _ _ Hasc) as Hgt. cbn [fst] in Hgt.
    inversion Hall as [|? ? Hhead Htail]; subst. cbn [fst] in Hhead.
    destruct Hhead as (_ & [Hp1 _] & _).
    rewrite Forall_forall in *. intros [q j] Hin.
    specialize (Hgt _ Hin). specialize (Htail _ Hin). cbn [fst snd] in *.
    apply prime_gt_2_odd; [tauto | lia].
Qed.

Lemma primeFactorization_correct_witness :
  exists fs,
    primeFactorization 84 (BigInt_of_ll (-84)) = Ok fs
    /\ Forall (fun pk => canonical (fst pk) /\ Z.prime (to_Z (fst pk)) /\ 1 <= snd pk) fs
    /\ ascending fs
    /\ Forall (fun pk => Z.Odd (to_Z (fst pk))) (tl fs)
    /\ factors_product fs = Z.abs (to_Z (BigInt_of_ll (-84))).
Proof.
  refine (proj1 (primeFactorization_correct 84 (BigInt_of_ll (-84)) _ _ _ _)).
  - reflexivity.
  - vm_compute. discriminate.
  - lia.
  - vm_compute. discriminate.
Defined.

(** C2, what the code does: a canonical text with a leading ['-'] is
    parsed and formatted back unchanged, but on a canonical text without
    sign character the parse loop runs with lower bound 0, its [size_t]
    index wraps below 0 and the text is read out of bounds, so that no
    value is constructed and nothing can be formatted. *)
Theorem roundtrip_text (s : string) :
  Z.of_nat (length (list_ascii_of_string s)) < SIZE_MOD - 1 ->
  (forall c1 rest,
     list_ascii_of_string s = "-"%char :: c1 :: rest ->
     Forall (fun c => isdigit c = true) (c1 :: rest) -> c1 <> "0"%char ->
     exists x, BigInt_of_string s = Ok x /\ toString x = s)
  /\ (list_ascii_of_string s <> [] ->
      Forall (fun c => isdigit c = true) (list_ascii_of_string s) ->
      BigInt_of_string s = Undefined /\ forall x, BigInt_of_string s <> Ok x).
Proof.
  intros Hlen. split.
  - intros c1 rest Hs Hall Hc1. apply (roundtrip_signed s c1 rest); auto.
    rewrite <- Hs. lia.
  - intros Hne Hall. rewrite (parse_unsigned s Hne Hall Hlen).
    split; [reflexivity | discriminate].
Qed.

Lemma roundtrip_text_witness :
  (exists x, BigInt_of_string "-123" = Ok x /\ toString x = "-123"%string)
  /\ (BigInt_of_string "123" = Undefined /\ forall x, BigInt_of_string "123" <> Ok x).
Proof.
  split.
  - refine (proj1 (roundtrip_text "-123" _) "1"%char ["2"; "3"]%char _ _ _).
    + vm_compute. reflexivity.
    + reflexivity.
    + repeat constructor.
    + discriminate.
  - refine (proj2 (roundtrip_text "123" _) _ _).
    + vm_compute. reflexivity.
    + discriminate.
    + repeat constructor.
Defined.

(** C3, what the code does: on canonical operands [operator+],
    [operator-], [operator*] and [abs] return canonical values, but unary
    negation only flips the flag: its result is canonical exactly when the
    operand is not zero, and the negation of the canonical zero is the pair
    of digits [0] and a set sign flag, which [operator==] tells apart from
    zero. *)
Theorem negation_canonical (x y : BigInt) :
  canonical x -> canonical y ->
  (canonical (op_neg x) <-> isZero x = false)
  /\ canonical (op_plus x y) /\ canonical (op_minus x y) /\ canonical (abs x)
  /\ (exists p, op_mul x y = Ok p /\ canonical p)
  /\ canonical ZERO
  /\ op_neg ZERO = mkBigInt [0] true
  /\ canonicalb (op_neg ZERO) = false
  /\ op_eq (op_neg ZERO) ZERO = false.
Proof.
  intros Hx Hy. apply canonical_wf in Hx, Hy.
  split; [|split_and; try reflexivity].
  - rewrite canonical_wf, (isZero_value x Hx). split.
    + intros Hw. apply Z.eqb_neq. intros Hz.
      assert (Hv : value (digits x) = 0) by (unfold to_Z in Hz; destruct (negative x); lia).
      pose proof (wf_zero x Hx Hv) as Hnx.
      pose proof (wf_zero (op_neg x) Hw Hv) as Hnn.
      cbn in Hnn. rewrite Hnx in Hnn. discriminate.
    + intros Hnz. apply Z.eqb_neq in Hnz. apply (op_neg_spec x Hx Hnz).
  - apply canonical_wf, (op_plus_spec x y Hx Hy).
  - apply canonical_wf, (op_minus_spec x y Hx Hy).
  - apply canonical_wf, (abs_spec x Hx).
  - destruct (op_mul_spec x y Hx Hy) as (p & Hp & Hw & _).
    exists p. split; [exact Hp | apply canonical_wf, Hw].
Qed.

Lemma negation_canonical_witness :
  (canonical (op_neg ZERO) <-> isZero ZERO = false)
  /\ canonical (op_plus ZERO (BigInt_of_ll (-7)))
  /\ canonical (op_minus ZERO (BigInt_of_ll (-7))) /\ canonical (abs ZERO)
  /\ (exists p, op_mul ZERO (BigInt_of_ll (-7)) = Ok p /\ canonical p)
  /\ canonical ZERO
  /\ op_neg ZERO = mkBigInt [0] true
  /\ canonicalb (op_neg ZERO) = false
  /\ op_eq (op_neg ZERO) ZERO = false.
Proof.
  apply (negation_canonical ZERO (BigInt_of_ll (-7))); reflexivity.
Defined.

(** C4, what the code does: every [long long] above the minimum is
    converted exactly, to a canonical value whose text is the decimal
    rendering; for the minimum the negation [num = -num] does not leave the
    64-bit range, the digit loop [while (num > 0)] does not run, and the
    value has no digits: its text is ["-"]. *)
Theorem of_ll_behaviour (n : Z) :
  LLONG_MIN < n <= LLONG_MAX ->
  (canonical (BigInt_of_ll n) /\ to_Z (BigInt_of_ll n) = n
   /\ toString (BigInt_of_ll n) = decimal n)
  /\ BigInt_of_ll LLONG_MIN = mkBigInt [] true
  /\ canonicalb (BigInt_of_ll LLONG_MIN) = false
  /\ toString (BigInt_of_ll LLONG_MIN) = "-"%string
  /\ decimal LLONG_MIN = "-9223372036854775808"%string.
Proof.
  intros Hn. split; [|split_and; reflexivity].
  destruct (BigInt_of_ll_exact n Hn) as [Hw Hv].
  split_and; auto; [apply canonical_wf, Hw | apply toString_of_ll, Hn].
Qed.

Lemma of_ll_behaviour_witness :
  (canonical (BigInt_of_ll (-450)) /\ to_Z (BigInt_of_ll (-450)) = -450
   /\ toString (BigInt_of_ll (-450)) = decimal (-450))
  /\ BigInt_of_ll LLONG_MIN = mkBigInt [] true
  /\ canonicalb (BigInt_of_ll LLONG_MIN) = false
  /\ toString (BigInt_of_ll LLONG_MIN) = "-"%string
  /\ decimal LLONG_MIN = "-9223372036854775808"%string.
Proof.
  apply (of_ll_behaviour (-450)). unfold LLONG_MIN, LLONG_MAX. lia.
Defined.

(** C5, what the code does on a text [s]: [InvalidInput] when [s] is empty,
    when it is a sign alone, and when a character after the optional sign
    is not a digit; the denoted integer, in canonical form, when [s] is a
    sign followed by digits; but on digits without a sign the constructor
    does not succeed: the index of the parse loop wraps below 0 and the text
    is read out of bounds. *)
Theorem text_constructor_behaviour (s : string) :
  Z.of_nat (length (list_ascii_of_string s)) < SIZE_MOD - 1 ->
  (list_ascii_of_string s = [] -> BigInt_of_string s = Throw InvalidInput)
  /\ (forall c0, list_ascii_of_string s = [c0] -> is_sign c0 = true ->
                 BigInt_of_string s = Throw InvalidInput)
  /\ (Exists (fun c => isdigit c = false) (text_body (list_ascii_of_string s)) ->
      BigInt_of_string s = Throw InvalidInput)
  /\ (forall c0 body,
        list_ascii_of_string s = c0 :: body -> is_sign c0 = true -> body <> [] ->
        Forall (fun c => isdigit c = true) body ->
        exists x, BigInt_of_string s = Ok x /\ canonical x
                  /\ to_Z x = if Ascii.eqb c0 "-" then - numeral body else numeral body)
  /\ (list_ascii_of_string s <> [] ->
      Forall (fun c => isdigit c = true) (list_ascii_of_string s) ->
      BigInt_of_string s = Undefined)
  /\ BigInt_of_string "" = Throw InvalidInput
  /\ BigInt_of_string "abc" = Throw InvalidInput
  /\ BigInt_of_string "-" = Throw InvalidInput.
Proof.
  intros Hlen. split_and; try reflexivity.
  - intros Hs. unfold BigInt_of_string. rewrite Hs. reflexivity.
  - intros c0 Hs Hsign. unfold BigInt_of_string. rewrite Hs.
    rewrite (is_sign_cases c0 Hsign). reflexivity.
  - intros Hex. apply parse_nondigit; auto. lia.
  - intros c0 body Hs Hsign Hne Hall.
    rewrite (parse_signed s c0 body Hs Hsign Hne Hall) by (rewrite <- Hs; lia).
    eexists. split; [reflexivity|].
    destruct (normalize_spec
                (mkBigInt (map (fun c => char_code c - 48) (rev body)) (Ascii.eqb c0 "-")))
      as [Hw Hz]; cbn [digits].
    + destruct body as [|c body]; [contradiction|]. cbn [rev].
      rewrite map_app. destruct (map _ (rev body)); discriminate.
    + apply digits_ok_of_text, Forall_rev, Hall.
    + split; [apply canonical_wf, Hw|]. rewrite Hz. unfold to_Z. cbn [digits negative].
      rewrite numeral_value. reflexivity.
  - intros Hne Hall. apply parse_unsigned; auto.
Qed.

Lemma text_constructor_behaviour_witness :
  BigInt_of_string "2024" = Undefined
  /\ (exists x, BigInt_of_string "+2024" = Ok x /\ canonical x /\ to_Z x = 2024)
  /\ BigInt_of_string "-20x4" = Throw InvalidInput.
Proof.
  split_and.
  - refine (proj1 (proj2 (proj2 (proj2 (proj2 (text_constructor_behaviour "2024" _)))))
              _ _).
    + vm_compute. reflexivity.
    + discriminate.
    + repeat constructor.
  - refine (proj1 (proj2 (proj2 (proj2 (text_constructor_behaviour "+2024" _))))
              "+"%char ["2"; "0"; "2"; "4"]%char _ _ _ _).
    + vm_compute. reflexivity.
    + reflexivity.
    + reflexivity.
    + discriminate.
    + repeat constructor.
  - refine (proj1 (proj2 (proj2 (text_constructor_behaviour "-20x4" _))) _).
    + vm_compute. reflexivity.
    + vm_compute. do 2 apply Exists_cons_tl. apply Exists_cons_hd. reflexivity.
Defined.

(** C7, what the code does: the lower bound of the range test is
    [BigInt(LLONG_MIN)], which has no digits, so every value with a digit
    and a set sign flag compares below it, and [toLongLong] throws
    [OutOfRange] on every negative value, [-1] and [-2^63] included; values
    from 0 to the maximum are converted exactly and larger ones throw. *)
Theorem toLongLong_behaviour (x : BigInt) :
  canonical x ->
  (negative x = true -> toLongLong x = Throw OutOfRange)
  /\ (0 <= to_Z x <= LLONG_MAX -> toLongLong x = Ok (to_Z x))
  /\ (LLONG_MAX < to_Z x -> toLongLong x = Throw OutOfRange).
Proof.
  intros Hx. apply canonical_wf in Hx. split_and.
  - intros Hneg. unfold toLongLong.
    assert (Hlt : op_lt x (BigInt_of_ll LLONG_MIN) = true).
    { change (BigInt_of_ll LLONG_MIN) with (mkBigInt [] true).
      unfold op_lt, compareMagnitude. cbn [digits negative length]. rewrite Hneg.
      cbn [Bool.eqb negb].
      pose proof (wf_nonempty x Hx) as Hne.
      destruct (digits x) as [|d ds]; [contradiction | reflexivity]. }
    rewrite Hlt, orb_true_r. reflexivity.
  - intros Hr. rewrite toLongLong_nonneg by (auto; lia).
    destruct (Z.leb_spec (to_Z x) LLONG_MAX); [reflexivity | lia].
  - intros Hr. rewrite toLongLong_nonneg by (auto; unfold LLONG_MAX in *; lia).
    destruct (Z.leb_spec (to_Z x) LLONG_MAX); [lia | reflexivity].
Qed.

Lemma toLongLong_behaviour_witness :
  toLongLong (BigInt_of_ll (-1)) = Throw OutOfRange
  /\ toLongLong (BigInt_of_ll 42) = Ok (to_Z (BigInt_of_ll 42)).
Proof.
  split.
  - apply (proj1 (toLongLong_behaviour (BigInt_of_ll (-1)) eq_refl)). reflexivity.
  - apply (proj1 (proj2 (toLongLong_behaviour (BigInt_of_ll 42) eq_refl))).
    vm_compute. split; discriminate.
Defined.

End Claims.

(** * The arithmetic operators on canonical values *)

Section Arithmetic.

(** [operator+] on canonical operands returns the canonical sum. *)
Theorem op_plus_correct (x y : BigInt) :
  canonical x -> canonical y ->
  canonical (op_plus x y) /\ to_Z (op_plus x y) = to_Z x + to_Z y.
Proof.
  intros Hx Hy. apply canonical_wf in Hx, Hy.
  destruct (op_plus_spec x y Hx Hy) as [Hw Hv]. split; [apply canonical_wf, Hw | exact Hv].
Qed.

Lemma op_plus_correct_witness :
  canonical (op_plus (BigInt_of_ll 995) (BigInt_of_ll (-1002)))
  /\ to_Z (op_plus (BigInt_of_ll 995) (BigInt_of_ll (-1002)))
     = to_Z (BigInt_of_ll 995) + to_Z (BigInt_of_ll (-1002)).
Proof.
  apply (op_plus_correct (BigInt_of_ll 995) (BigInt_of_ll (-1002))); reflexivity.
Defined.

(** [operator-] on canonical operands returns the canonical difference. *)
Theorem op_minus_correct (x y : BigInt) :
  canonical x -> canonical y ->
  canonical (op_minus x y) /\ to_Z (op_minus x y) = to_Z x - to_Z y.
Proof.
  intros Hx Hy. apply canonical_wf in Hx, Hy.
  destruct (op_minus_spec x y Hx Hy) as [Hw Hv]. split; [apply canonical_wf, Hw | exact Hv].
Qed.

Lemma op_minus_correct_witness :
  canonical (op_minus (BigInt_of_ll (-5)) (BigInt_of_ll (-1002)))
  /\ to_Z (op_minus (BigInt_of_ll (-5)) (BigInt_of_ll (-1002)))
     = to_Z (BigInt_of_ll (-5)) - to_Z (BigInt_of_ll (-1002)).
Proof.
  apply (op_minus_correct (BigInt_of_ll (-5)) (BigInt_of_ll (-1002))); reflexivity.
Defined.

(** [operator*] on canonical operands stays inside its buffer and returns
    the canonical product. *)
Theorem op_mul_correct (x y : BigInt) :
  canonical x -> canonical y ->
  exists p, op_mul x y = Ok p /\ canonical p /\ to_Z p = to_Z x * to_Z y.
Proof.
  intros Hx Hy. apply canonical_wf in Hx, Hy.
  destruct (op_mul_spec x y Hx Hy) as (p & Hp & Hw & Hv).
  exists p. split_and; auto. apply canonical_wf, Hw.
Qed.

Lemma op_mul_correct_witness :
  exists p, op_mul (BigInt_of_ll (-999)) (BigInt_of_ll 99) = Ok p /\ canonical p
            /\ to_Z p = to_Z (BigInt_of_ll (-999)) * to_Z (BigInt_of_ll 99).
Proof.
  apply (op_mul_correct (BigInt_of_ll (-999)) (BigInt_of_ll 99)); reflexivity.
Defined.

(** The comparison operators order canonical values as the integers they
    denote, and [operator==] holds exactly for equal values. *)
Theorem comparison_order (x y : BigInt) :
  canonical x -> canonical y ->
  op_lt x y = (to_Z x <? to_Z y)
  /\ op_le x y = (to_Z x <=? to_Z y)
  /\ op_gt x y = (to_Z y <? to_Z x)
  /\ op_ge x y = (to_Z y <=? to_Z x)
  /\ op_eq x y = (to_Z x =? to_Z y)
  /\ op_ne x y = negb (to_Z x =? to_Z y)
  /\ (to_Z x = to_Z y -> x = y).
Proof.
  intros Hx Hy. apply canonical_wf in Hx, Hy. split_and.
  - apply op_lt_value; auto.
  - apply op_le_value; auto.
  - apply op_gt_value; auto.
  - apply op_ge_value; auto.
  - apply op_eq_value; auto.
  - unfold op_ne. rewrite op_eq_value by auto. reflexivity.
  - apply wf_inj; auto.
Qed.

Lemma comparison_order_witness :
  op_lt (BigInt_of_ll (-12)) (BigInt_of_ll (-3))
  = (to_Z (BigInt_of_ll (-12)) <? to_Z (BigInt_of_ll (-3))).
Proof.
  apply (comparison_order (BigInt_of_ll (-12)) (BigInt_of_ll (-3))); reflexivity.
Defined.

(** Addition and subtraction cancel, addition and multiplication commute
    and addition is associative, as equalities of the returned values. *)
Theorem arithmetic_laws (a b c : BigInt) :
  canonical a -> canonical b -> canonical c ->
  op_eq (op_minus (op_plus a b) b) a = true
  /\ op_plus a b = op_plus b a
  /\ op_plus (op_plus a b) c = op_plus a (op_plus b c)
  /\ op_mul a b = op_mul b a.
Proof.
  intros Ha Hb Hc. apply canonical_wf in Ha, Hb, Hc.
  destruct (op_plus_spec a b Ha Hb) as [Hwab Hvab].
  destruct (op_plus_spec b a Hb Ha) as [Hwba Hvba].
  destruct (op_plus_spec b c Hb Hc) as [Hwbc Hvbc].
  destruct (op_minus_spec (op_plus a b) b Hwab Hb) as [Hwm Hvm].
  destruct (op_plus_spec (op_plus a b) c Hwab Hc) as [Hw1 Hv1].
  destruct (op_plus_spec a (op_plus b c) Ha Hwbc) as [Hw2 Hv2].
  destruct (op_mul_spec a b Ha Hb) as (p & Hp & Hwp & Hvp).
  destruct (op_mul_spec b a Hb Ha) as (q & Hq & Hwq & Hvq).
  split_and.
  - rewrite op_eq_value by auto. apply Z.eqb_eq. lia.
  - apply wf_inj; auto. lia.
  - apply wf_inj; auto. lia.
  - rewrite Hp, Hq. f_equal. apply wf_inj; auto. lia.
Qed.

Lemma arithmetic_laws_witness :
  op_eq (op_minus (op_plus (BigInt_of_ll 99) (BigInt_of_ll (-100))) (BigInt_of_ll (-100)))
        (BigInt_of_ll 99) = true.
Proof.
  apply (arithmetic_laws (BigInt_of_ll 99) (BigInt_of_ll (-100)) ZERO); reflexivity.
Defined.

(** [normalize] turns any non-empty vector of decimal digits into the
    canonical value of the same integer; it changes nothing on a canonical
    value and is idempotent. *)
Theorem normalize_canonical (x : BigInt) :
  digits x <> [] -> digits_ok (digits x) ->
  canonical (normalize x)
  /\ to_Z (normalize x) = to_Z x
  /\ normalize (normalize x) = normalize x
  /\ (canonical x -> normalize x = x).
Proof.
  intros Hne Hok. destruct (normalize_spec x Hne Hok) as [Hw Hv]. split_and; auto.
  - apply canonical_wf, Hw.
  - apply normalize_wf_id, Hw.
  - intros Hx. apply normalize_wf_id, canonical_wf, Hx.
Qed.

Lemma normalize_canonical_witness :
  canonical (normalize (mkBigInt [0; 0; 0] true))
  /\ to_Z (normalize (mkBigInt [0; 0; 0] true)) = to_Z (mkBigInt [0; 0; 0] true).
Proof.
  refine (let H := normalize_canonical (mkBigInt [0; 0; 0] true) _ _ in
          conj (proj1 H) (proj1 (proj2 H))).
  - discriminate.
  - repeat constructor; lia.
Defined.

(** [abs], [min] and [max] on canonical values are the absolute value, the
    minimum and the maximum of the integers. *)
Theorem abs_min_max (a b : BigInt) :
  canonical a -> canonical b ->
  canonical (abs a) /\ to_Z (abs a) = Z.abs (to_Z a)
  /\ to_Z (min a b) = Z.min (to_Z a) (to_Z b)
  /\ to_Z (max a b) = Z.max (to_Z a) (to_Z b)
  /\ (min a b = a \/ min a b = b) /\ (max a b = a \/ max a b = b).
Proof.
  intros Ha Hb. apply canonical_wf in Ha, Hb.
  destruct (abs_spec a Ha) as (Hw & Hv & _). unfold min, max.
  rewrite op_lt_value, op_gt_value by auto.
  split_and; auto.
  - apply canonical_wf, Hw.
  - destruct (Z.ltb_spec (to_Z a) (to_Z b)); lia.
  - destruct (Z.ltb_spec (to_Z b) (to_Z a)); lia.
  - destruct (to_Z a <? to_Z b); auto.
  - destruct (to_Z b <? to_Z a); auto.
Qed.

Lemma abs_min_max_witness :
  canonical (abs (BigInt_of_ll (-8)))
  /\ to_Z (abs (BigInt_of_ll (-8))) = Z.abs (to_Z (BigInt_of_ll (-8))).
Proof.
  refine (let H := abs_min_max (BigInt_of_ll (-8)) (BigInt_of_ll 3) _ _ in
          conj (proj1 H) (proj1 (proj2 H))); reflexivity.
Defined.

End Arithmetic.

(** * Powers, greatest common divisor and least common multiple *)

Section Powers.

Lemma pow_split (b e : Z) :
  0 <= e -> b ^ e = b ^ Z.rem e 2 * (b * b) ^ Z.quot e 2.
Proof.
  intros He.
  pose proof (Z.quot_rem' e 2) as Hqr.
  pose proof (Z.rem_bound_pos e 2 He ltac:(lia)) as Hr.
  pose proof (Z.quot_pos e 2 He ltac:(lia)) as Hq.
  rewrite Hqr at 1. rewrite Z.pow_add_r, Z.pow_mul_r, Z.pow_2_r by lia. ring.
Qed.

Lemma half_lt (e : Z) : 0 < e -> 0 <= Z.quot e 2 < e.
Proof. intros He. pose proof (half_bounds e ltac:(lia)). lia. Qed.

Lemma rem2_cases (e : Z) : 0 <= e -> Z.rem e 2 = 0 \/ Z.rem e 2 = 1.
Proof. intros He. pose proof (Z.rem_bound_pos e 2 He ltac:(lia)). lia. Qed.

(** Square and multiply: [res * b ^ e] is kept while [e] is halved. *)
Lemma pow_loop_spec (fuel : nat) :
  (9 <= fuel)%nat ->
  forall (k : nat) (res b e : BigInt),
    wf res -> wf b -> wf e -> 0 <= to_Z e <= Z.of_nat k ->
    exists r, pow_loop fuel k res b e = Ok r
              /\ wf r /\ to_Z r = to_Z res * to_Z b ^ to_Z e.
Proof.
  intros Hfuel.
  induction k as [|k IH]; intros res b e Hres Hb He Hk.
  - cbn [pow_loop]. rewrite (isZero_value e He).
    destruct (Z.eqb_spec (to_Z e) 0) as [Hz | Hz]; [|lia]. cbn [negb].
    exists res. rewrite Hz, Z.pow_0_r. split_and; auto. ring.
  - cbn [pow_loop]. rewrite (isZero_value e He).
    destruct (Z.eqb_spec (to_Z e) 0) as [Hz | Hz]; cbn [negb].
    { exists res. rewrite Hz, Z.pow_0_r. split_and; auto. ring. }
    destruct (op_mod_spec fuel e TWO Hfuel He wf_TWO ltac:(discriminate))
      as (m & Hm & Hwm & Hvm).
    destruct (op_div_spec fuel e TWO Hfuel He wf_TWO ltac:(discriminate))
      as (e' & He' & Hwe' & Hve').
    change (to_Z TWO) with 2 in Hvm, Hve'.
    destruct (op_mul_spec b b Hb Hb) as (b' & Hb' & Hwb' & Hvb').
    destruct (op_mul_spec res b Hres Hb) as (rb & Hrb & Hwrb & Hvrb).
    pose proof (half_lt (to_Z e) ltac:(lia)) as Hhalf.
    rewrite Hm. cbn [bind]. rewrite op_eq_value by (auto using wf_ONE).
    change (to_Z ONE) with 1. rewrite Hvm.
    rewrite (pow_split (to_Z b) (to_Z e)) by lia.
    destruct (rem2_cases (to_Z e) ltac:(lia)) as [Hr | Hr]; rewrite Hr.
    + cbn [Z.eqb bind]. rewrite Hb'. cbn [bind]. rewrite He'. cbn [bind].
      destruct (IH res b' e' Hres Hwb' Hwe' ltac:(lia)) as (r & Hrun & Hwr & Hvr).
      exists r. split_and; auto. rewrite Hvr, Hvb', Hve', Z.pow_0_r. ring.
    + cbn [Z.eqb Pos.eqb]. rewrite Hrb. cbn [bind]. rewrite Hb'. cbn [bind].
      rewrite He'. cbn [bind].
      destruct (IH rb b' e' Hwrb Hwb' Hwe' ltac:(lia)) as (r & Hrun & Hwr & Hvr).
      exists r. split_and; auto. rewrite Hvr, Hvrb, Hvb', Hve', Z.pow_1_r. ring.
Qed.

(** [pow] returns the power for a canonical base and a canonical exponent
    that is not negative, given an iteration budget of at least the exponent
    (and 9), and throws [InvalidInput] for a negative exponent. *)
Theorem pow_correct (fuel : nat) (base e : BigInt) :
  canonical base -> canonical e -> (9 <= fuel)%nat -> to_Z e <= Z.of_nat fuel ->
  (0 <= to_Z e ->
   exists r, pow fuel base e = Ok r /\ canonical r /\ to_Z r = to_Z base ^ to_Z e)
  /\ (to_Z e < 0 -> pow fuel base e = Throw InvalidInput).
Proof.
  intros Hb He Hfuel Hk. apply canonical_wf in Hb, He. unfold pow.
  rewrite op_lt_value by (auto using wf_ZERO). change (to_Z ZERO) with 0.
  rewrite (isZero_value e He). split.
  - intros Hnn. destruct (Z.ltb_spec (to_Z e) 0); [lia|].
    destruct (Z.eqb_spec (to_Z e) 0) as [Hz | Hz].
    + exists ONE. rewrite Hz, Z.pow_0_r. split_and; reflexivity.
    + destruct (pow_loop_spec fuel Hfuel fuel (BigInt_of_ll 1) base e wf_of_ll_1 Hb He
                  ltac:(lia)) as (r & Hrun & Hw & Hv).
      exists r. split_and; auto; [apply canonical_wf, Hw|].
      rewrite Hv. change (to_Z (BigInt_of_ll 1)) with 1. ring.
  - intros Hneg. destruct (Z.ltb_spec (to_Z e) 0); [reflexivity | lia].
Qed.

Lemma pow_correct_witness :
  exists r, pow 11 (BigInt_of_ll (-2)) (BigInt_of_ll 11) = Ok r /\ canonical r
            /\ to_Z r = to_Z (BigInt_of_ll (-2)) ^ to_Z (BigInt_of_ll 11).
Proof.
  refine (proj1 (pow_correct 11 (BigInt_of_ll (-2)) (BigInt_of_ll 11) _ _ _ _) _).
  - reflexivity.
  - reflexivity.
  - lia.
  - vm_compute. discriminate.
  - vm_compute. discriminate.
Defined.

Lemma modPow_loop_spec (fuel : nat) (modulus : BigInt) :
  (9 <= fuel)%nat -> wf modulus -> 0 < to_Z modulus ->
  forall (k : nat) (res b e : BigInt),
    wf res -> wf b -> wf e ->
    0 <= to_Z b < to_Z modulus -> 0 <= to_Z res ->
    to_Z res < to_Z modulus \/ 1 <= to_Z e ->
    0 <= to_Z e <= Z.of_nat k ->
    exists r, modPow_loop fuel k res b e modulus = Ok r
              /\ wf r
              /\ to_Z r = (to_Z res * to_Z b ^ to_Z e) mod to_Z modulus.
Proof.
  intros Hfuel Hm Hpos.
  assert (Hdone : forall res e, wf res -> to_Z e = 0 -> 0 <= to_Z res ->
                    to_Z res < to_Z modulus \/ 1 <= to_Z e ->
                    forall b, to_Z res = (to_Z res * to_Z b ^ to_Z e) mod to_Z modulus).
  { intros res e _ Hz Hr0 Hlt b. rewrite Hz, Z.pow_0_r, Z.mul_1_r.
    symmetry. apply Z.mod_small. lia. }
  induction k as [|k IH]; intros res b e Hres Hb He Hbr Hr0 Hlt Hk.
  - cbn [modPow_loop]. rewrite (isZero_value e He).
    destruct (Z.eqb_spec (to_Z e) 0) as [Hz | Hz]; [|lia]. cbn [negb].
    exists res. split_and; auto.
  - cbn [modPow_loop]. rewrite (isZero_value e He).
    destruct (Z.eqb_spec (to_Z e) 0) as [Hz | Hz]; cbn [negb].
    { exists res. split_and; auto. }
    destruct (op_mod_spec fuel e TWO Hfuel He wf_TWO ltac:(discriminate))
      as (m & Hmo & Hwm & Hvm).
    destruct (op_div_spec fuel e TWO Hfuel He wf_TWO ltac:(discriminate))
      as (e' & He' & Hwe' & Hve').
    change (to_Z TWO) with 2 in Hvm, Hve'.
    destruct (op_mul_spec b b Hb Hb) as (sq & Hsq & Hwsq & Hvsq).
    destruct (op_mod_spec fuel sq modulus Hfuel Hwsq Hm ltac:(lia))
      as (b' & Hb' & Hwb' & Hvb').
    rewrite Hvsq, Z.rem_mod_nonneg in Hvb' by nia.
    destruct (op_mul_spec res b Hres Hb) as (rb & Hrb & Hwrb & Hvrb).
    destruct (op_mod_spec fuel rb modulus Hfuel Hwrb Hm ltac:(lia))
      as (res1 & Hres1 & Hwres1 & Hvres1).
    rewrite Hvrb, Z.rem_mod_nonneg in Hvres1 by nia.
    pose proof (half_lt (to_Z e) ltac:(lia)) as Hhalf.
    pose proof (Z.mod_pos_bound (to_Z b * to_Z b) (to_Z modulus) Hpos) as Hbb.
    pose proof (Z.mod_pos_bound (to_Z res * to_Z b) (to_Z modulus) Hpos) as Hrbb.
    pose proof (half_bounds (to_Z e) ltac:(lia)) as Hhb.
    pose proof (Z.quot_rem' (to_Z e) 2) as Hqr.
    rewrite Hmo. cbn [bind]. rewrite op_eq_value by (auto using wf_ONE).
    change (to_Z ONE) with 1. rewrite Hvm.
    rewrite (pow_split (to_Z b) (to_Z e)) by lia.
    assert (Hpm : forall q, 0 <= q ->
                   ((to_Z b * to_Z b) mod to_Z modulus) ^ q mod to_Z modulus
                   = (to_Z b * to_Z b) ^ q mod to_Z modulus).
    { intros q _. symmetry. apply Zpower_mod. exact Hpos. }
    destruct (rem2_cases (to_Z e) ltac:(lia)) as [Hr | Hr]; rewrite Hr.
    + cbn [Z.eqb bind]. rewrite Hsq. cbn [bind]. rewrite Hb'. cbn [bind].
      rewrite He'. cbn [bind].
      destruct (IH res b' e' Hres Hwb' Hwe') as (r & Hrun & Hwr & Hvr); try lia.
      exists r. split_and; auto. rewrite Hvr, Hvb', Hve', Z.pow_0_r, Z.mul_1_l.
      rewrite <- Z.mul_mod_idemp_r, Hpm, Z.mul_mod_idemp_r by lia. reflexivity.
    + cbn [Z.eqb Pos.eqb]. rewrite Hrb. cbn [bind]. rewrite Hres1. cbn [bind].
      rewrite Hsq. cbn [bind]. rewrite Hb'. cbn [bind]. rewrite He'. cbn [bind].
      destruct (IH res1 b' e' Hwres1 Hwb' Hwe') as (r & Hrun & Hwr & Hvr); try lia.
      exists r. split_and; auto. rewrite Hvr, Hvres1, Hvb', Hve', Z.pow_1_r.
      rewrite <- Z.mul_mod_idemp_r, Hpm, Z.mul_mod_idemp_r by lia.
      rewrite Z.mul_mod_idemp_l by lia. f_equal. ring.
Qed.

(** [modPow] throws [InvalidInput] for a modulus that is not positive and
    for a negative exponent; for exponent 0 it returns 1 whatever the
    modulus, 1 included; for a base that is not negative and an exponent of
    at least 1 it returns the residue of the power. *)
Theorem modPow_correct (fuel : nat) (base e modulus : BigInt) :
  canonical base -> canonical e -> canonical modulus ->
  (9 <= fuel)%nat -> to_Z e <= Z.of_nat fuel ->
  (to_Z modulus <= 0 -> modPow fuel base e modulus = Throw InvalidInput)
  /\ (0 < to_Z modulus -> to_Z e < 0 -> modPow fuel base e modulus = Throw InvalidInput)
  /\ (0 < to_Z modulus -> to_Z e = 0 -> modPow fuel base e modulus = Ok ONE)
  /\ (0 < to_Z modulus -> 1 <= to_Z e -> 0 <= to_Z base ->
      exists r, modPow fuel base e modulus = Ok r /\ canonical r
                /\ to_Z r = (to_Z base ^ to_Z e) mod to_Z modulus).
Proof.
  intros Hb He Hm Hfuel Hk. apply canonical_wf in Hb, He, Hm. unfold modPow.
  rewrite op_le_value, op_lt_value by (auto using wf_ZERO). change (to_Z ZERO) with 0.
  split_and.
  - intros Hle. destruct (Z.leb_spec (to_Z modulus) 0); [reflexivity | lia].
  - intros Hpos Hneg. destruct (Z.leb_spec (to_Z modulus) 0); [lia|].
    destruct (Z.ltb_spec (to_Z e) 0); [reflexivity | lia].
  - intros Hpos Hz. destruct (Z.leb_spec (to_Z modulus) 0); [lia|].
    destruct (Z.ltb_spec (to_Z e) 0); [lia|].
    destruct (op_mod_spec fuel base modulus Hfuel Hb Hm ltac:(lia)) as (b & Hrun & _).
    rewrite Hrun. cbn [bind].
    assert (Hiz : isZero e = true) by (rewrite (isZero_value e He); apply Z.eqb_eq, Hz).
    destruct fuel; cbn [modPow_loop]; rewrite Hiz; reflexivity.
  - intros Hpos He1 Hb0. destruct (Z.leb_spec (to_Z modulus) 0); [lia|].
    destruct (Z.ltb_spec (to_Z e) 0); [lia|].
    destruct (op_mod_spec fuel base modulus Hfuel Hb Hm ltac:(lia)) as (b & Hrun & Hwb & Hvb).
    rewrite Z.rem_mod_nonneg in Hvb by lia.
    pose proof (Z.mod_pos_bound (to_Z base) (to_Z modulus) Hpos) as Hbb.
    rewrite Hrun. cbn [bind].
    destruct (modPow_loop_spec fuel modulus Hfuel Hm Hpos fuel (BigInt_of_ll 1) b e
                wf_of_ll_1 Hwb He) as (r & Hr & Hwr & Hvr);
      change (to_Z (BigInt_of_ll 1)) with 1; try lia.
    exists r. split_and; auto; [apply canonical_wf, Hwr|].
    rewrite Hvr, Hvb, Z.mul_1_l. symmetry. apply Zpower_mod. exact Hpos.
Qed.

Lemma modPow_correct_witness :
  exists r, modPow 13 (BigInt_of_ll 4) (BigInt_of_ll 13) (BigInt_of_ll 497) = Ok r
            /\ canonical r
            /\ to_Z r = (to_Z (BigInt_of_ll 4) ^ to_Z (BigInt_of_ll 13))
                        mod to_Z (BigInt_of_ll 497).
Proof.
  refine (proj2 (proj2 (proj2 (modPow_correct 13 (BigInt_of_ll 4) (BigInt_of_ll 13)
                                 (BigInt_of_ll 497) _ _ _ _ _))) _ _ _).
  - reflexivity.
  - reflexivity.
  - reflexivity.
  - lia.
  - vm_compute. discriminate.
  - vm_compute. reflexivity.
  - vm_compute. discriminate.
  - vm_compute. discriminate.
Defined.

(** Euclid's loop on operands that are not negative. *)
Lemma gcd_loop_spec (fuel : nat) :
  (9 <= fuel)%nat ->
  forall (k : nat) (x y : BigInt),
    wf x -> wf y -> 0 <= to_Z x -> 0 <= to_Z y <= Z.of_nat k ->
    exists g, gcd_loop fuel k x y = Ok g /\ wf g /\ to_Z g = Z.gcd (to_Z x) (to_Z y).
Proof.
  intros Hfuel.
  induction k as [|k IH]; intros x y Hx Hy Hx0 Hk.
  - cbn [gcd_loop]. rewrite (isZero_value y Hy).
    destruct (Z.eqb_spec (to_Z y) 0) as [Hz | Hz]; [|lia]. cbn [negb].
    exists x. rewrite Hz, Z.gcd_0_r. split_and; auto. lia.
  - cbn [gcd_loop]. rewrite (isZero_value y Hy).
    destruct (Z.eqb_spec (to_Z y) 0) as [Hz | Hz]; cbn [negb].
    { exists x. rewrite Hz, Z.gcd_0_r. split_and; auto. lia. }
    destruct (op_mod_spec fuel x y Hfuel Hx Hy Hz) as (m & Hm & Hwm & Hvm).
    rewrite Z.rem_mod_nonneg in Hvm by lia.
    pose proof (Z.mod_pos_bound (to_Z x) (to_Z y) ltac:(lia)) as Hb.
    rewrite Hm. cbn [bind].
    destruct (IH y m Hy Hwm ltac:(lia) ltac:(lia)) as (g & Hg & Hwg & Hvg).
    exists g. split_and; auto.
    rewrite Hvg, Hvm, Z.gcd_comm, Z.gcd_mod by lia. apply Z.gcd_comm.
Qed.

Lemma gcd_spec (fuel : nat) (a b : BigInt) :
  (9 <= fuel)%nat -> wf a -> wf b -> Z.abs (to_Z b) <= Z.of_nat fuel ->
  exists g, gcd fuel a b = Ok g /\ wf g /\ to_Z g = Z.gcd (to_Z a) (to_Z b).
Proof.
  intros Hfuel Ha Hb Hk. unfold gcd.
  destruct (abs_spec a Ha) as (Hwa & Hva & _).
  destruct (abs_spec b Hb) as (Hwb & Hvb & _).
  destruct (gcd_loop_spec fuel Hfuel fuel (abs a) (abs b) Hwa Hwb ltac:(lia) ltac:(lia))
    as (g & Hg & Hwg & Hvg).
  exists g. split_and; auto. rewrite Hvg, Hva, Hvb, Z.gcd_abs_l, Z.gcd_abs_r. reflexivity.
Qed.

(** [gcd] returns the greatest common divisor of canonical operands, which
    is never negative, given an iteration budget of at least [|b|] (and 9);
    in particular [gcd(a, 0)] is [|a|]. *)
Theorem gcd_correct (fuel : nat) (a b : BigInt) :
  canonical a -> canonical b -> (9 <= fuel)%nat -> Z.abs (to_Z b) <= Z.of_nat fuel ->
  exists g, gcd fuel a b = Ok g /\ canonical g
            /\ to_Z g = Z.gcd (to_Z a) (to_Z b)
            /\ 0 <= to_Z g
            /\ (to_Z g | to_Z a) /\ (to_Z g | to_Z b)
            /\ (to_Z b = 0 -> to_Z g = Z.abs (to_Z a)).
Proof.
  intros Ha Hb Hfuel Hk. apply canonical_wf in Ha, Hb.
  destruct (gcd_spec fuel a b Hfuel Ha Hb Hk) as (g & Hg & Hwg & Hvg).
  exists g. rewrite Hvg. split_and; auto.
  - apply canonical_wf, Hwg.
  - apply Z.gcd_nonneg.
  - apply Z.gcd_divide_l.
  - apply Z.gcd_divide_r.
  - intros ->. apply Z.gcd_0_r.
Qed.

Lemma gcd_correct_witness :
  exists g, gcd 18 (BigInt_of_ll (-48)) (BigInt_of_ll 18) = Ok g /\ canonical g
            /\ to_Z g = Z.gcd (to_Z (BigInt_of_ll (-48))) (to_Z (BigInt_of_ll 18))
            /\ 0 <= to_Z g
            /\ (to_Z g | to_Z (BigInt_of_ll (-48))) /\ (to_Z g | to_Z (BigInt_of_ll 18))
            /\ (to_Z (BigInt_of_ll 18) = 0 -> to_Z g = Z.abs (to_Z (BigInt_of_ll (-48)))).
Proof.
  apply (gcd_correct 18 (BigInt_of_ll (-48)) (BigInt_of_ll 18)).
  - reflexivity.
  - reflexivity.
  - lia.
  - vm_compute. discriminate.
Defined.

(** [lcm] returns the least common multiple of canonical operands, 0 when
    one of them is zero. *)
Theorem lcm_correct (fuel : nat) (a b : BigInt) :
  canonical a -> canonical b -> (9 <= fuel)%nat -> Z.abs (to_Z b) <= Z.of_nat fuel ->
  exists l, lcm fuel a b = Ok l /\ canonical l
            /\ to_Z l = Z.lcm (to_Z a) (to_Z b)
            /\ (to_Z a = 0 \/ to_Z b = 0 -> l = ZERO).
Proof.
  intros Ha Hb Hfuel Hk. apply canonical_wf in Ha, Hb. unfold lcm.
  rewrite (isZero_value a Ha), (isZero_value b Hb).
  destruct (Z.eqb_spec (to_Z a) 0) as [Ea | Ea]; cbn [orb].
  { exists ZERO. rewrite Ea, Z.lcm_0_l. split_and; auto; reflexivity. }
  destruct (Z.eqb_spec (to_Z b) 0) as [Eb | Eb].
  { exists ZERO. rewrite Eb, Z.lcm_0_r. split_and; auto; reflexivity. }
  destruct (op_mul_spec a b Ha Hb) as (p & Hp & Hwp & Hvp).
  destruct (gcd_spec fuel a b Hfuel Ha Hb Hk) as (g & Hg & Hwg & Hvg).
  destruct (abs_spec p Hwp) as (Hwap & Hvap & _).
  pose proof (Z.gcd_nonneg (to_Z a) (to_Z b)) as Hg0.
  assert (Hgnz : Z.gcd (to_Z a) (to_Z b) <> 0).
  { intros E. apply Z.gcd_eq_0 in E. tauto. }
  destruct (op_div_spec fuel (abs p) g Hfuel Hwap Hwg ltac:(lia)) as (l & Hl & Hwl & Hvl).
  rewrite Hp. cbn [bind]. rewrite Hg. cbn [bind].
  exists l. split_and; auto; [apply canonical_wf, Hwl | | intros [E | E]; contradiction].
  rewrite Hvl, Hvap, Hvp, Hvg. rewrite Z.quot_div_nonneg by lia.
  unfold Z.lcm.
  destruct (Z.gcd_divide_r (to_Z a) (to_Z b)) as [c Hc].
  set (gg := Z.gcd (to_Z a) (to_Z b)) in *.
  rewrite Hc. rewrite Z.div_mul by lia.
  rewrite Z.mul_assoc, Z.abs_mul, (Z.abs_eq gg) by lia.
  apply Z.div_mul. lia.
Qed.

Lemma lcm_correct_witness :
  exists l, lcm 18 (BigInt_of_ll (-48)) (BigInt_of_ll 18) = Ok l /\ canonical l
            /\ to_Z l = Z.lcm (to_Z (BigInt_of_ll (-48))) (to_Z (BigInt_of_ll 18))
            /\ (to_Z (BigInt_of_ll (-48)) = 0 \/ to_Z (BigInt_of_ll 18) = 0 -> l = ZERO).
Proof.
  apply (lcm_correct 18 (BigInt_of_ll (-48)) (BigInt_of_ll 18)).
  - reflexivity.
  - reflexivity.
  - lia.
  - vm_compute. discriminate.
Defined.

End Powers.

(** * Factorial, Fibonacci and Catalan numbers *)

Section Combinatorics.

Lemma wrap32_small (z : Z) : - 2 ^ 31 <= z <= INT_MAX -> wrap32 z = z.
Proof.
  unfold INT_MAX, wrap32. intros H. rewrite Z.mod_small by lia. lia.
Qed.

Lemma of_int_exact (i : Z) :
  - 2 ^ 31 <= i <= INT_MAX -> wf (BigInt_of_ll i) /\ to_Z (BigInt_of_ll i) = i.
Proof.
  intros Hi. apply BigInt_of_ll_exact. unfold INT_MAX, LLONG_MIN, LLONG_MAX in *. lia.
Qed.

Lemma fact_succ_Z (i : Z) :
  1 <= i ->
  Z.of_nat (fact (Z.to_nat i)) = Z.of_nat (fact (Z.to_nat (i - 1))) * i.
Proof.
  intros Hi. replace (Z.to_nat i) with (S (Z.to_nat (i - 1))) by lia.
  change (fact (S (Z.to_nat (i - 1))))
    with (S (Z.to_nat (i - 1)) * fact (Z.to_nat (i - 1)))%nat.
  rewrite Nat2Z.inj_mul.
  replace (Z.of_nat (S (Z.to_nat (i - 1)))) with i by lia. ring.
Qed.

Lemma factorial_loop_spec (n : Z) :
  0 <= n < INT_MAX ->
  forall (k : nat) (i : Z) (res : BigInt),
    wf res -> 1 <= i <= n + 1 ->
    to_Z res = Z.of_nat (fact (Z.to_nat (i - 1))) ->
    n + 1 - i <= Z.of_nat k ->
    exists r, factorial_loop k i n res = Ok r
              /\ wf r /\ to_Z r = Z.of_nat (fact (Z.to_nat n)).
Proof.
  intros Hn.
  induction k as [|k IH]; intros i res Hres Hi Hv Hk; cbn [factorial_loop].
  - destruct (Z.leb_spec i n); [lia|].
    exists res. split_and; auto. rewrite Hv. do 2 f_equal. lia.
  - destruct (Z.leb_spec i n) as [Hle | Hgt].
    2:{ exists res. split_and; auto. rewrite Hv. do 2 f_equal. lia. }
    destruct (of_int_exact i ltac:(unfold INT_MAX in *; lia)) as [Hwi Hvi].
    destruct (op_mul_spec res (BigInt_of_ll i) Hres Hwi) as (res' & Hmul & Hw' & Hv').
    rewrite Hmul. cbn [bind].
    rewrite wrap32_small by (unfold INT_MAX in *; lia).
    apply IH; auto; try lia.
    replace (i + 1 - 1) with i by lia.
    rewrite Hv', Hv, Hvi. symmetry. apply fact_succ_Z. lia.
Qed.

Lemma factorial_spec (fuel : nat) (n : Z) :
  0 <= n < INT_MAX -> n <= Z.of_nat fuel ->
  exists r, factorial fuel n = Ok r /\ wf r /\ to_Z r = Z.of_nat (fact (Z.to_nat n)).
Proof.
  intros Hn Hk. unfold factorial. destruct (Z.ltb_spec n 0); [lia|].
  destruct (Z.eq_dec n 0) as [-> | Hnz].
  - exists (BigInt_of_ll 1). split_and; [|apply wf_of_ll_1 | reflexivity].
    destruct fuel; reflexivity.
  - apply factorial_loop_spec; auto using wf_of_ll_1; try lia; reflexivity.
Qed.

(** [factorial] throws [InvalidInput] for a negative argument and returns
    the factorial otherwise, given an iteration budget of at least [n]. *)
Theorem factorial_correct (fuel : nat) (n : Z) :
  (n < 0 -> factorial fuel n = Throw InvalidInput)
  /\ (0 <= n < INT_MAX -> n <= Z.of_nat fuel ->
      exists r, factorial fuel n = Ok r /\ canonical r
                /\ to_Z r = Z.of_nat (fact (Z.to_nat n))).
Proof.
  split.
  - intros Hneg. unfold factorial. destruct (Z.ltb_spec n 0); [reflexivity | lia].
  - intros Hn Hk. destruct (factorial_spec fuel n Hn Hk) as (r & Hr & Hw & Hv).
    exists r. split_and; auto. apply canonical_wf, Hw.
Qed.

Lemma factorial_correct_witness :
  factorial 25 (-1) = Throw InvalidInput
  /\ exists r, factorial 25 25 = Ok r /\ canonical r
               /\ to_Z r = Z.of_nat (fact (Z.to_nat 25)).
Proof.
  split.
  - apply (proj1 (factorial_correct 25 (-1))). lia.
  - apply (proj2 (factorial_correct 25 25)); [unfold INT_MAX|]; lia.
Defined.

Lemma fibonacci_loop_spec (n : Z) :
  2 <= n < INT_MAX ->
  forall (k : nat) (i : Z) (a b : BigInt),
    wf a -> wf b -> 2 <= i <= n + 1 ->
    to_Z a = fib (Z.to_nat (i - 2)) -> to_Z b = fib (Z.to_nat (i - 1)) ->
    n + 1 - i <= Z.of_nat k ->
    exists r, fibonacci_loop k i n a b = Ok r
              /\ wf r /\ to_Z r = fib (Z.to_nat n).
Proof.
  intros Hn.
  induction k as [|k IH]; intros i a b Ha Hb Hi Hva Hvb Hk; cbn [fibonacci_loop].
  - destruct (Z.leb_spec i n); [lia|].
    exists b. split_and; auto. rewrite Hvb. f_equal. lia.
  - destruct (Z.leb_spec i n) as [Hle | Hgt].
    2:{ exists b. split_and; auto. rewrite Hvb. f_equal. lia. }
    cbv zeta. destruct (op_plus_spec a b Ha Hb) as [Hw Hv].
    rewrite wrap32_small by (unfold INT_MAX in *; lia).
    apply IH; auto; try lia.
    + rewrite Hvb. f_equal. lia.
    + rewrite Hv, Hva, Hvb.
      replace (Z.to_nat (i + 1 - 1)) with (S (S (Z.to_nat (i - 2)))) by lia.
      replace (Z.to_nat (i - 1)) with (S (Z.to_nat (i - 2))) by lia.
      cbn [fib]. lia.
Qed.

(** [fibonacci] throws [InvalidInput] for a negative argument and returns
    the Fibonacci number otherwise, given an iteration budget of at least
    [n]. *)
Theorem fibonacci_correct (fuel : nat) (n : Z) :
  (n < 0 -> fibonacci fuel n = Throw InvalidInput)
  /\ (0 <= n < INT_MAX -> n <= Z.of_nat fuel ->
      exists r, fibonacci fuel n = Ok r /\ canonical r /\ to_Z r = fib (Z.to_nat n)).
Proof.
  unfold fibonacci. split.
  - intros Hneg. destruct (Z.ltb_spec n 0); [reflexivity | lia].
  - intros Hn Hk. destruct (Z.ltb_spec n 0); [lia|].
    destruct (Z.leb_spec n 1) as [Hsmall | Hbig].
    + destruct (of_int_exact n ltac:(unfold INT_MAX in *; lia)) as [Hw Hv].
      exists (BigInt_of_ll n). split_and; auto; [apply canonical_wf, Hw|].
      rewrite Hv. assert (n = 0 \/ n = 1) as [-> | ->] by lia; reflexivity.
    + destruct (fibonacci_loop_spec n ltac:(lia) fuel 2 (BigInt_of_ll 0) (BigInt_of_ll 1))
        as (r & Hr & Hw & Hv); auto using wf_of_ll_1; try lia; try reflexivity.
      { apply canonical_wf. reflexivity. }
      exists r. split_and; auto. apply canonical_wf, Hw.
Qed.

Lemma fibonacci_correct_witness :
  fibonacci 30 (-1) = Throw InvalidInput
  /\ exists r, fibonacci 30 30 = Ok r /\ canonical r /\ to_Z r = fib (Z.to_nat 30).
Proof.
  split.
  - apply (proj1 (fibonacci_correct 30 (-1))). lia.
  - apply (proj2 (fibonacci_correct 30 30)); [unfold INT_MAX|]; lia.
Defined.



End Combinatorics.

(** * Primality test *)

Section Primality.

Lemma wf_of_ll_100 : wf (BigInt_of_ll 100).
Proof. apply canonical_wf. reflexivity. Qed.

(** Trial division by 2, 3, ... up to the square root decides primality. *)
Lemma trial_division_spec (fuel : nat) (num : BigInt) (B : Z) :
  (9 <= fuel)%nat -> wf num -> 2 <= to_Z num -> 0 <= B -> to_Z num <= B * B ->
  forall (k : nat) (i : BigInt),
    wf i -> 2 <= to_Z i -> no_small_divisor (to_Z num) (to_Z i) ->
    B + 1 - to_Z i <= Z.of_nat k ->
    exists b, trial_division fuel k num i = Ok b /\ (b = true <-> Z.prime (to_Z num)).
Proof.
  intros Hfuel Hnum Hn2 HB HnB.
  assert (Hstop : forall i, wf i -> 2 <= to_Z i -> no_small_divisor (to_Z num) (to_Z i) ->
                    to_Z num < to_Z i * to_Z i ->
                    exists b, Ok true = Ok b /\ (b = true <-> Z.prime (to_Z num))).
  { intros i Hi Hi2 Hno Hlt. exists true. split; [reflexivity|].
    split; [intros _ | reflexivity].
    apply (residual_prime (to_Z num) (to_Z i)); auto; lia. }
  induction k as [|k IH]; intros i Hi Hi2 Hno Hk; cbn [trial_division];
    destruct (op_mul_spec i i Hi Hi) as (sq & Hsq & Hwsq & Hvsq);
    rewrite Hsq; cbn [bind]; rewrite op_le_value by auto; rewrite Hvsq.
  - destruct (Z.leb_spec (to_Z i * to_Z i) (to_Z num)); [nia|].
    apply (Hstop i); auto.
  - destruct (Z.leb_spec (to_Z i * to_Z i) (to_Z num)) as [Hle | Hgt].
    2:{ apply (Hstop i); auto. }
    destruct (op_mod_spec fuel num i Hfuel Hnum Hi ltac:(lia)) as (m & Hm & Hwm & Hvm).
    rewrite Hm. cbn [bind]. rewrite op_eq_value by (auto using wf_ZERO).
    change (to_Z ZERO) with 0. rewrite Hvm.
    destruct (Z.eqb_spec (Z.rem (to_Z num) (to_Z i)) 0) as [Hz | Hnz].
    + exists false. split; [reflexivity|]. split; [discriminate|].
      intros [_ Hp]. exfalso. apply (Hp (to_Z i)); [nia|].
      apply Z.rem_divide; [lia | exact Hz].
    + destruct (op_plus_spec i ONE Hi wf_ONE) as [Hw1 Hv1]. change (to_Z ONE) with 1 in Hv1.
      apply IH; auto; try nia.
      intros d Hd Hdiv. rewrite Hv1 in Hd.
      destruct (Z.eq_dec d (to_Z i)) as [-> | Hne].
      * apply Hnz. apply Z.rem_divide; [lia | exact Hdiv].
      * apply (Hno d); [lia | exact Hdiv].
Qed.

(** On a canonical value of at most 100 [isPrime] is exact: it draws no
    random number and answers true exactly for the primes. *)
Theorem isPrime_small (fuel : nat) (draws : nat -> Z) (n : BigInt) :
  canonical n -> to_Z n <= 100 -> (9 <= fuel)%nat ->
  exists b, isPrime fuel draws n = Ok b /\ (b = true <-> Z.prime (to_Z n)).
Proof.
  intros Hn H100 Hfuel. apply canonical_wf in Hn. unfold isPrime.
  rewrite op_le_value by (auto using wf_ONE). change (to_Z ONE) with 1.
  destruct (Z.leb_spec (to_Z n) 1) as [Hsmall | Hbig].
  { exists false. split; [reflexivity|]. split; [discriminate|]. intros [Hp _]. lia. }
  rewrite op_eq_value by (auto using wf_TWO). change (to_Z TWO) with 2.
  destruct (Z.eqb_spec (to_Z n) 2) as [E2 | E2].
  { exists true. split; [reflexivity|]. rewrite E2. split; [intros _; apply Z.prime_2 | auto]. }
  destruct (op_mod_spec fuel n TWO Hfuel Hn wf_TWO ltac:(discriminate)) as (m & Hm & Hwm & Hvm).
  change (to_Z TWO) with 2 in Hvm.
  rewrite Hm. cbn [bind]. rewrite op_eq_value by (auto using wf_ZERO).
  change (to_Z ZERO) with 0. rewrite Hvm.
  destruct (Z.eqb_spec (Z.rem (to_Z n) 2) 0) as [Hz | Hnz].
  { exists false. split; [reflexivity|]. split; [discriminate|].
    intros [_ Hp]. exfalso. apply (Hp 2); [lia|]. apply Z.rem_divide; [lia | exact Hz]. }
  unfold isPrimeMillerRabin.
  destruct (abs_spec n Hn) as (Hwa & Hva & _). rewrite Z.abs_eq in Hva by lia.
  rewrite op_le_value by (auto using wf_of_ll_100).
  change (to_Z (BigInt_of_ll 100)) with 100. rewrite Hva.
  destruct (Z.leb_spec (to_Z n) 100); [|lia].
  rewrite <- Hva.
  apply (trial_division_spec fuel (abs n) 10); auto using wf_TWO; try lia;
    change (to_Z TWO) with 2; try lia.
  intros d Hd. lia.
Qed.

Lemma isPrime_small_witness :
  exists b, isPrime 9 (fun _ => 2) (BigInt_of_ll 97) = Ok b
            /\ (b = true <-> Z.prime (to_Z (BigInt_of_ll 97))).
Proof.
  apply (isPrime_small 9 (fun _ => 2) (BigInt_of_ll 97)).
  - reflexivity.
  - vm_compute. discriminate.
  - lia.
Defined.

Lemma random_rounds_spec (fuel : nat) (draws : nat -> Z) (num : BigInt) :
  (9 <= fuel)%nat -> wf num -> Z.abs (to_Z num) <= Z.of_nat fuel ->
  (forall i, 2 <= draws i <= 100) ->
  forall (count i : nat),
    random_rounds fuel draws i count num
    = Ok (forallb (fun j => Z.gcd (draws j) (to_Z num) =? 1) (seq i count)).
Proof.
  intros Hfuel Hnum Hk Hdraws.
  induction count as [|count IH]; intros i; cbn [random_rounds seq forallb]; auto.
  destruct (of_int_exact (draws i)) as [Hwd Hvd].
  { specialize (Hdraws i). unfold INT_MAX. lia. }
  destruct (gcd_spec fuel (BigInt_of_ll (draws i)) num Hfuel Hwd Hnum Hk)
    as (g & Hg & Hwg & Hvg).
  rewrite Hg. cbn [bind]. unfold op_ne. rewrite op_eq_value by (auto using wf_ONE).
  change (to_Z ONE) with 1. rewrite Hvg, Hvd.
  destruct (Z.eqb_spec (Z.gcd (draws i) (to_Z num)) 1); cbn [negb andb]; auto.
Qed.

(** Above 100 [isPrime] rejects the even numbers and otherwise accepts
    exactly when each of the 5 numbers drawn from [2,100] is coprime to [n];
    so it accepts every number, prime or composite, that has no common
    factor with any number from 2 to 100. *)
Theorem isPrime_large (fuel : nat) (draws : nat -> Z) (n : BigInt) :
  canonical n -> 100 < to_Z n -> (9 <= fuel)%nat -> to_Z n <= Z.of_nat fuel ->
  (forall i, 2 <= draws i <= 100) ->
  ((2 | to_Z n) -> isPrime fuel draws n = Ok false)
  /\ (~ (2 | to_Z n) ->
      isPrime fuel draws n
      = Ok (forallb (fun j => Z.gcd (draws j) (to_Z n) =? 1) (seq 0 5)))
  /\ (~ (2 | to_Z n) -> (forall d, 2 <= d <= 100 -> Z.gcd d (to_Z n) = 1) ->
      isPrime fuel draws n = Ok true).
Proof.
  intros Hn H100 Hfuel Hk Hdraws. apply canonical_wf in Hn.
  assert (Hodd : ~ (2 | to_Z n) ->
                 isPrime fuel draws n
                 = Ok (forallb (fun j => Z.gcd (draws j) (to_Z n) =? 1) (seq 0 5))).
  { intros Hnd. unfold isPrime.
    rewrite op_le_value by (auto using wf_ONE). change (to_Z ONE) with 1.
    destruct (Z.leb_spec (to_Z n) 1); [lia|].
    rewrite op_eq_value by (auto using wf_TWO). change (to_Z TWO) with 2.
    destruct (Z.eqb_spec (to_Z n) 2); [lia|].
    destruct (op_mod_spec fuel n TWO Hfuel Hn wf_TWO ltac:(discriminate))
      as (m & Hm & Hwm & Hvm).
    change (to_Z TWO) with 2 in Hvm.
    rewrite Hm. cbn [bind]. rewrite op_eq_value by (auto using wf_ZERO).
    change (to_Z ZERO) with 0. rewrite Hvm.
    destruct (Z.eqb_spec (Z.rem (to_Z n) 2) 0) as [Hz | Hnz].
    { exfalso. apply Hnd. apply Z.rem_divide; [lia | exact Hz]. }
    unfold isPrimeMillerRabin.
    destruct (abs_spec n Hn) as (Hwa & Hva & _). rewrite Z.abs_eq in Hva by lia.
    rewrite op_le_value by (auto using wf_of_ll_100).
    change (to_Z (BigInt_of_ll 100)) with 100. rewrite Hva.
    destruct (Z.leb_spec (to_Z n) 100); [lia|].
    rewrite (random_rounds_spec fuel draws (abs n)); auto; rewrite Hva; [reflexivity|lia]. }
  split_and.
  - intros Hdiv. unfold isPrime.
    rewrite op_le_value by (auto using wf_ONE). change (to_Z ONE) with 1.
    destruct (Z.leb_spec (to_Z n) 1); [lia|].
    rewrite op_eq_value by (auto using wf_TWO). change (to_Z TWO) with 2.
    destruct (Z.eqb_spec (to_Z n) 2); [lia|].
    destruct (op_mod_spec fuel n TWO Hfuel Hn wf_TWO ltac:(discriminate))
      as (m & Hm & Hwm & Hvm).
    change (to_Z TWO) with 2 in Hvm.
    rewrite Hm. cbn [bind]. rewrite op_eq_value by (auto using wf_ZERO).
    change (to_Z ZERO) with 0. rewrite Hvm.
    apply Z.rem_divide in Hdiv; [|lia]. rewrite Hdiv. reflexivity.
  - exact Hodd.
  - intros Hnd Hco. rewrite (Hodd Hnd). f_equal.
    apply forallb_forall. intros j _. apply Z.eqb_eq, Hco, Hdraws.
Qed.

Lemma isPrime_large_witness :
  isPrime (Z.to_nat 10403) (fun _ => 77) (BigInt_of_ll 10403) = Ok true.
Proof.
  refine (proj2 (proj2 (isPrime_large (Z.to_nat 10403) (fun _ => 77) (BigInt_of_ll 10403)
                          _ _ _ _ _)) _ _).
  - reflexivity.
  - vm_compute. reflexivity.
  - lia.
  - vm_compute. discriminate.
  - intros _. lia.
  - change (to_Z (BigInt_of_ll 10403)) with 10403. intros [c Hc]. lia.
  - change (to_Z (BigInt_of_ll 10403)) with 10403. intros d Hd.
    assert (Hall : forallb (fun d => Z.gcd d 10403 =? 1)
                     (map Z.of_nat (seq 2 99)) = true) by (vm_compute; reflexivity).
    rewrite forallb_forall in Hall. apply Z.eqb_eq, Hall.
    apply in_map_iff. exists (Z.to_nat d). split; [lia|]. apply in_seq. lia.
Defined.

End Primality.

(** * Formatting, parsing and conversions composed *)

Section RoundTrips.

Lemma ll_digits_canonical (x : BigInt) :
  wf x -> 0 < value (digits x) ->
  ll_digits (S (Z.to_nat (Z.log2 (value (digits x))))) (value (digits x)) = digits x.
Proof.
  intros Hx Hv.
  destruct (of_ll_positive (value (digits x)) false Hv) as [Hw Hval].
  apply (wf_digits_eq _ x Hw Hx Hval).
Qed.

Lemma toString_decimal_wf (x : BigInt) : wf x -> toString x = decimal (to_Z x).
Proof.
  intros Hx. pose proof (wf_value_nonneg x Hx) as Hnn.
  destruct (Z.eq_dec (value (digits x)) 0) as [Hz | Hnz].
  - assert (x = ZERO).
    { apply wf_inj; auto using wf_ZERO. unfold to_Z. rewrite Hz.
      destruct (negative x); reflexivity. }
    subst x. reflexivity.
  - assert (Hv : 0 < value (digits x)) by lia.
    unfold toString, decimal. rewrite (isZero_value x Hx).
    unfold to_Z. destruct (negative x).
    + destruct (Z.eqb_spec (- value (digits x)) 0); [lia|].
      destruct (Z.ltb_spec (- value (digits x)) 0); [|lia].
      rewrite Z.abs_neq by lia. rewrite Z.opp_involutive.
      rewrite decimal_digits_ll, app_nil_r, ll_digits_canonical by (auto; lia).
      reflexivity.
    + destruct (Z.eqb_spec (value (digits x)) 0); [lia|].
      destruct (Z.ltb_spec (value (digits x)) 0); [lia|].
      rewrite Z.abs_eq by lia.
      rewrite decimal_digits_ll, app_nil_r, ll_digits_canonical by (auto; lia).
      reflexivity.
Qed.

(** The text of a canonical value is the decimal rendering of the integer
    it denotes: ["0"] for zero, a leading ['-'] exactly for negative values
    and no leading zeros. *)
Theorem toString_decimal (x : BigInt) :
  canonical x -> toString x = decimal (to_Z x).
Proof. intros Hx. apply toString_decimal_wf, canonical_wf, Hx. Qed.

Lemma toString_decimal_witness :
  toString (BigInt_of_ll (-9050)) = decimal (to_Z (BigInt_of_ll (-9050))).
Proof. apply (toString_decimal (BigInt_of_ll (-9050))). reflexivity. Defined.

Lemma char_code_code_char (z : Z) : 0 <= z < 256 -> char_code (code_char z) = z.
Proof.
  intros Hz. unfold char_code, code_char. rewrite Z.mod_small by lia.
  rewrite N_ascii_embedding by lia. lia.
Qed.

Lemma digit_text_ok (ds : list Z) :
  digits_ok ds ->
  Forall (fun c => isdigit c = true) (map (fun d => code_char (48 + d)) ds)
  /\ map (fun c => char_code c - 48) (map (fun d => code_char (48 + d)) ds) = ds.
Proof.
  induction 1 as [|d ds Hd _ [IH1 IH2]]; cbn [map]; [split; [constructor | reflexivity]|].
  assert (Hc : char_code (code_char (48 + d)) = 48 + d) by (apply char_code_code_char; lia).
  split.
  - constructor; auto. unfold isdigit. rewrite Hc. apply andb_true_iff. lia.
  - rewrite Hc, IH2. f_equal. lia.
Qed.

(** Formatting a canonical value and parsing the text gives the value back
    when it is negative; the text of a value that is not negative has no
    sign character, and parsing it reads out of bounds. *)
Theorem format_then_parse (x : BigInt) :
  canonical x -> Z.of_nat (length (digits x)) + 1 < SIZE_MOD - 1 ->
  (negative x = true -> BigInt_of_string (toString x) = Ok x)
  /\ (negative x = false -> BigInt_of_string (toString x) = Undefined).
Proof.
  intros Hx Hlen. apply canonical_wf in Hx.
  pose proof (wf_digits x Hx) as Hok. pose proof (wf_nonempty x Hx) as Hne.
  destruct (digit_text_ok (rev (digits x)) (digits_ok_rev _ Hok)) as [Hall Hinv].
  set (body := map (fun d => code_char (48 + d)) (rev (digits x))) in *.
  assert (Hbl : length body = length (digits x)).
  { unfold body. rewrite length_map, length_rev. reflexivity. }
  assert (Hbne : body <> []).
  { intros E. rewrite E in Hbl. destruct (digits x); [contradiction | discriminate]. }
  split; intros Hneg.
  - assert (Hnz : isZero x = false).
    { rewrite (isZero_value x Hx). apply Z.eqb_neq.
      pose proof (wf_negative_pos x Hx Hneg). unfold to_Z. rewrite Hneg. lia. }
    assert (Hs : toString x = String "-" (string_of_list_ascii body)).
    { unfold toString. rewrite Hnz, Hneg. reflexivity. }
    rewrite (parse_signed (toString x) "-" body); auto.
    + change (Ascii.eqb "-" "-") with true.
      rewrite map_rev, Hinv, rev_involutive. f_equal.
      rewrite <- Hneg. replace (mkBigInt (digits x) (negative x)) with x by (destruct x; reflexivity).
      apply normalize_wf_id, Hx.
    + rewrite Hs. cbn [list_ascii_of_string].
      rewrite list_ascii_of_string_of_list_ascii. reflexivity.
    + cbn [length]. unfold SIZE_MOD in *. lia.
  - apply parse_unsigned.
    + unfold toString. destruct (isZero x); [discriminate|]. rewrite Hneg.
      cbn [String.append]. rewrite list_ascii_of_string_of_list_ascii. exact Hbne.
    + unfold toString. destruct (isZero x); [repeat constructor|]. rewrite Hneg.
      cbn [String.append]. rewrite list_ascii_of_string_of_list_ascii. exact Hall.
    + unfold toString. destruct (isZero x).
      * cbn. unfold SIZE_MOD. lia.
      * rewrite Hneg. cbn [String.append].
        rewrite list_ascii_of_string_of_list_ascii. fold body. lia.
Qed.

Lemma format_then_parse_witness :
  BigInt_of_string (toString (BigInt_of_ll (-700))) = Ok (BigInt_of_ll (-700))
  /\ BigInt_of_string (toString (BigInt_of_ll 700)) = Undefined.
Proof.
  split.
  - apply (proj1 (format_then_parse (BigInt_of_ll (-700)) eq_refl eq_refl)). reflexivity.
  - apply (proj2 (format_then_parse (BigInt_of_ll 700) eq_refl eq_refl)). reflexivity.
Defined.

(** Parsing a sign followed by digits and formatting the result gives the
    decimal rendering of the denoted integer: a ['+'], leading zeros and the
    sign of zero are dropped. *)
Theorem parse_then_format (s : string) (c0 : ascii) (body : list ascii) :
  list_ascii_of_string s = c0 :: body -> is_sign c0 = true -> body <> [] ->
  Forall (fun c => isdigit c = true) body ->
  Z.of_nat (length (c0 :: body)) < SIZE_MOD ->
  exists x, BigInt_of_string s = Ok x
            /\ toString x
               = decimal (if Ascii.eqb c0 "-" then - numeral body else numeral body).
Proof.
  intros Hs Hsign Hne Hall Hlen.
  rewrite (parse_signed s c0 body Hs Hsign Hne Hall Hlen).
  eexists. split; [reflexivity|].
  destruct (normalize_spec
              (mkBigInt (map (fun c => char_code c - 48) (rev body)) (Ascii.eqb c0 "-")))
    as [Hw Hz]; cbn [digits].
  - destruct body as [|c body]; [contradiction|]. cbn [rev].
    rewrite map_app. destruct (map _ (rev body)); discriminate.
  - apply digits_ok_of_text, Forall_rev, Hall.
  - rewrite (toString_decimal_wf _ Hw), Hz. unfold to_Z. cbn [digits negative].
    rewrite numeral_value. reflexivity.
Qed.

Lemma parse_then_format_witness :
  exists x, BigInt_of_string "-000" = Ok x
            /\ toString x
               = decimal (if Ascii.eqb "-" "-" then - numeral ["0"; "0"; "0"]%char
                          else numeral ["0"; "0"; "0"]%char).
Proof.
  apply (parse_then_format "-000" "-" ["0"; "0"; "0"]%char).
  - reflexivity.
  - reflexivity.
  - discriminate.
  - repeat constructor.
  - vm_compute. reflexivity.
Defined.




(** The square root of a square is the absolute value. *)
Theorem sqrt_of_square (fuel : nat) (x : BigInt) :
  canonical x -> (9 <= fuel)%nat -> to_Z x * to_Z x <= Z.of_nat fuel ->
  exists p, op_mul x x = Ok p /\ sqrt fuel p = Ok (abs x).
Proof.
  intros Hx Hfuel Hk. apply canonical_wf in Hx.
  destruct (op_mul_spec x x Hx Hx) as (p & Hp & Hwp & Hvp).
  destruct (abs_spec x Hx) as (Hwa & Hva & _).
  destruct (sqrt_spec fuel p Hfuel Hwp ltac:(nia) ltac:(lia))
    as (r & Hr & Hwr & Hr0 & Hfloor).
  exists p. split; [exact Hp|]. rewrite Hr. f_equal.
  apply wf_inj; auto. rewrite Hva, Hvp in *. nia.
Qed.

Lemma sqrt_of_square_witness :
  exists p, op_mul (BigInt_of_ll (-12)) (BigInt_of_ll (-12)) = Ok p
            /\ sqrt 144 p = Ok (abs (BigInt_of_ll (-12))).
Proof.
  apply (sqrt_of_square 144 (BigInt_of_ll (-12))).
  - reflexivity.
  - lia.
  - vm_compute. discriminate.
Defined.

(** [primeFactorization] looks at the absolute value only: it returns the
    empty sequence for -1, 0 and 1, and the same result for [n] and [-n]. *)
Theorem primeFactorization_sign (fuel : nat) (n : BigInt) :
  canonical n ->
  (Z.abs (to_Z n) <= 1 -> primeFactorization fuel n = Ok [])
  /\ (to_Z n <> 0 -> primeFactorization fuel (op_neg n) = primeFactorization fuel n).
Proof.
  intros Hn. apply canonical_wf in Hn.
  destruct (abs_spec n Hn) as (Hwa & Hva & _). split.
  - intros Hsmall. unfold primeFactorization.
    rewrite op_le_value by (auto using wf_ONE). change (to_Z ONE) with 1.
    destruct (Z.leb_spec (to_Z (abs n)) 1); [reflexivity | lia].
  - intros Hnz. destruct (op_neg_spec n Hn Hnz) as [Hwn Hvn].
    destruct (abs_spec (op_neg n) Hwn) as (Hwa' & Hva' & _).
    assert (Habs : abs (op_neg n) = abs n) by (apply wf_inj; auto; lia).
    unfold primeFactorization. rewrite Habs. reflexivity.
Qed.

Lemma primeFactorization_sign_witness :
  primeFactorization 60 (op_neg (BigInt_of_ll 60)) = primeFactorization 60 (BigInt_of_ll 60).
Proof.
  apply (proj2 (primeFactorization_sign 60 (BigInt_of_ll 60) eq_refl)).
  vm_compute. discriminate.
Defined.

End RoundTrips.

(** * Signs, digit counts and the shared division routine *)

Section Signs.

(** [divideWithRemainder] works on the absolute values: on canonical
    operands with a non-zero divisor it returns a canonical quotient and
    remainder, neither negative, with [|a| = q * |b| + r] and [r < |b|]. *)
Theorem divideWithRemainder_correct (fuel : nat) (a b : BigInt) :
  canonical a -> canonical b -> to_Z b <> 0 -> (9 <= fuel)%nat ->
  exists q r,
    divideWithRemainder fuel a b = Ok (q, r)
    /\ canonical q /\ canonical r
    /\ to_Z q = Z.abs (to_Z a) / Z.abs (to_Z b)
    /\ to_Z r = Z.abs (to_Z a) mod Z.abs (to_Z b).
Proof.
  intros Ha Hb Hnz Hfuel. apply canonical_wf in Ha, Hb.
  destruct (divideWithRemainder_spec fuel a b Hfuel Ha Hb Hnz)
    as (q & r & Hrun & Hwq & Hwr & Hq & Hr & Heq).
  exists q, r. split_and; auto.
  - apply canonical_wf, Hwq.
  - apply canonical_wf, Hwr.
  - apply (Z.div_unique _ _ _ (to_Z r)); lia.
  - apply (Z.mod_unique _ _ (to_Z q)); lia.
Qed.

Lemma divideWithRemainder_correct_witness :
  exists q r,
    divideWithRemainder 9 (BigInt_of_ll (-1234)) (BigInt_of_ll (-7)) = Ok (q, r)
    /\ canonical q /\ canonical r
    /\ to_Z q = Z.abs (to_Z (BigInt_of_ll (-1234))) / Z.abs (to_Z (BigInt_of_ll (-7)))
    /\ to_Z r = Z.abs (to_Z (BigInt_of_ll (-1234))) mod Z.abs (to_Z (BigInt_of_ll (-7))).
Proof.
  apply (divideWithRemainder_correct 9 (BigInt_of_ll (-1234)) (BigInt_of_ll (-7))).
  - reflexivity.
  - reflexivity.
  - vm_compute. discriminate.
  - lia.
Defined.

(** Unary minus is an involution on every value and negates the denoted
    integer; adding the negation of a canonical value to it gives the
    canonical zero, also when the value is zero and its negation is the
    non-canonical negative zero. *)
Theorem negation_inverse (x : BigInt) :
  canonical x ->
  op_neg (op_neg x) = x
  /\ to_Z (op_neg x) = - to_Z x
  /\ op_plus x (op_neg x) = ZERO
  /\ op_minus x x = ZERO.
Proof.
  intros Hx. apply canonical_wf in Hx. split_and.
  - destruct x as [ds ng]. unfold op_neg. cbn [digits negative].
    rewrite negb_involutive. reflexivity.
  - unfold op_neg, to_Z. cbn [digits negative]. destruct (negative x); cbn [negb]; lia.
  - destruct (Z.eq_dec (to_Z x) 0) as [Hz | Hnz].
    + assert (x = ZERO) by (apply wf_inj; auto using wf_ZERO).
      subst x. reflexivity.
    + destruct (op_neg_spec x Hx Hnz) as [Hw Hv].
      destruct (op_plus_spec x (op_neg x) Hx Hw) as [Hws Hvs].
      apply wf_inj; auto using wf_ZERO. change (to_Z ZERO) with 0. lia.
  - destruct (op_minus_spec x x Hx Hx) as [Hws Hvs].
    apply wf_inj; auto using wf_ZERO. change (to_Z ZERO) with 0. lia.
Qed.

Lemma negation_inverse_witness :
  op_neg (op_neg ZERO) = ZERO
  /\ to_Z (op_neg ZERO) = - to_Z ZERO
  /\ op_plus ZERO (op_neg ZERO) = ZERO
  /\ op_minus ZERO ZERO = ZERO.
Proof. apply (negation_inverse ZERO). reflexivity. Defined.

(** On a canonical value [isZero], [isNegative] and [isPositive] report the
    sign of the denoted integer, so exactly one of them holds. *)
Theorem sign_predicates (x : BigInt) :
  canonical x ->
  isZero x = (to_Z x =? 0)
  /\ isNegative x = (to_Z x <? 0)
  /\ isPositive x = (0 <? to_Z x).
Proof.
  intros Hx. apply canonical_wf in Hx.
  pose proof (wf_value_nonneg x Hx) as Hnn.
  pose proof (wf_negative_pos x Hx) as Hpos.
  unfold isNegative, isPositive. rewrite (isZero_value x Hx).
  unfold to_Z in *. split_and; auto.
  - destruct (negative x); cbn [andb negb].
    + specialize (Hpos eq_refl).
      destruct (Z.eqb_spec (- value (digits x)) 0), (Z.ltb_spec (- value (digits x)) 0);
        cbn; lia.
    + symmetry. apply Z.ltb_ge. lia.
  - destruct (negative x); cbn [andb negb].
    + specialize (Hpos eq_refl). symmetry. apply Z.ltb_ge. lia.
    + destruct (Z.eqb_spec (value (digits x)) 0), (Z.ltb_spec 0 (value (digits x)));
        cbn; lia.
Qed.

Lemma sign_predicates_witness :
  isZero (BigInt_of_ll (-3)) = (to_Z (BigInt_of_ll (-3)) =? 0)
  /\ isNegative (BigInt_of_ll (-3)) = (to_Z (BigInt_of_ll (-3)) <? 0)
  /\ isPositive (BigInt_of_ll (-3)) = (0 <? to_Z (BigInt_of_ll (-3))).
Proof. apply (sign_predicates (BigInt_of_ll (-3))). reflexivity. Defined.

(** [getDigitCount] of a canonical value is the number of its decimal
    digits: 1 for zero, and otherwise the [c] with
    [10^(c-1) <= |x| < 10^c]. *)
Theorem digit_count (x : BigInt) :
  canonical x ->
  1 <= getDigitCount x
  /\ Z.abs (to_Z x) < 10 ^ getDigitCount x
  /\ (to_Z x = 0 -> getDigitCount x = 1)
  /\ (to_Z x <> 0 -> 10 ^ (getDigitCount x - 1) <= Z.abs (to_Z x)).
Proof.
  intros Hx. apply canonical_wf in Hx. unfold getDigitCount.
  pose proof (wf_length_pos x Hx) as Hlen.
  pose proof (value_bound _ (wf_digits x Hx)) as Hb.
  assert (Habs : Z.abs (to_Z x) = value (digits x)).
  { unfold to_Z. destruct (negative x); lia. }
  rewrite Habs. split_and; try lia.
  - intros Hz. assert (x = ZERO) by (apply wf_inj; auto using wf_ZERO).
    subst x. reflexivity.
  - intros Hnz. destruct (wf_top x Hx) as [H1 | Hp]; [|exact Hp].
    rewrite H1. change (10 ^ (Z.of_nat 1 - 1)) with 1. lia.
Qed.

Lemma digit_count_witness :
  1 <= getDigitCount (BigInt_of_ll (-1000))
  /\ Z.abs (to_Z (BigInt_of_ll (-1000))) < 10 ^ getDigitCount (BigInt_of_ll (-1000))
  /\ (to_Z (BigInt_of_ll (-1000)) = 0 -> getDigitCount (BigInt_of_ll (-1000)) = 1)
  /\ (to_Z (BigInt_of_ll (-1000)) <> 0 ->
      10 ^ (getDigitCount (BigInt_of_ll (-1000)) - 1)
      <= Z.abs (to_Z (BigInt_of_ll (-1000)))).
Proof. apply (digit_count (BigInt_of_ll (-1000))). reflexivity. Defined.

End Signs.
